(** * OpenTimelineIO: bisection primitives and the type-filtered tree walk

    A shallow embedding of
    - [tests/benchmarks/composition_benchmark.cpp]: [bisect_right_original]
      and its tuned variants [bisect_right_optimized_v2], [_v3], [_v4];
    - [src/opentimelineio/composition.h]: [Composition::find_children];
    - the drivers [BM_BisectRight_*] that run the bisections over
      [create_test_data].

    Machine integers are integers of [Z] with the 64-bit wrap-around written
    out, the [std::vector] argument is a list indexed by [Z], the optional
    error-status out-parameter is threaded explicitly, and loops take a
    fuel argument. *)

From Stdlib Require Import ZArith List Bool Lia String.
Import ListNotations.
Open Scope Z_scope.

(* ================================================================= *)
(** ** 64-bit integers and the double-precision midpoint *)

Module Int64.

Definition modulus : Z := 2 ^ 64.
Definition half_modulus : Z := 2 ^ 63.
Definition max_signed : Z := 2 ^ 63 - 1.
Definition min_signed : Z := - 2 ^ 63.

(** [int64_t] values are the integers of [[min_signed, max_signed]]. *)
Definition in_range (z : Z) : Prop := min_signed <= z <= max_signed.

(** Two's complement reduction of an integer to [int64_t].  Signed overflow
    is undefined in C++; the arithmetic below wraps, as the compiled code
    does, and an index that wrapped is caught where it is subscripted. *)
Definition wrap (z : Z) : Z := (z + half_modulus) mod modulus - half_modulus.

(** Conversion of an [int64_t] to [size_t] (the usual arithmetic
    conversion in [right - left > ELEMENTS_PER_CACHE_LINE]). *)
Definition to_unsigned (z : Z) : Z := z mod modulus.

Definition add (a b : Z) : Z := wrap (a + b).
Definition sub (a b : Z) : Z := wrap (a - b).
Definition mul (a b : Z) : Z := wrap (a * b).
(** [a >> n] on a signed operand is the arithmetic shift. *)
Definition shr (a n : Z) : Z := Z.shiftr a n.
(** [a / b] on integers truncates toward zero. *)
Definition div (a b : Z) : Z := wrap (Z.quot a b).

(** The value of [(double) z] for an [int64_t] [z]: integers below [2^53]
    in magnitude are exact, larger ones are rounded to 53 significant bits,
    ties to the even significand. *)
Definition to_double (z : Z) : Z :=
  let a := Z.abs z in
  if a <? 2 ^ 53 then z
  else
    let e := Z.log2 a - 52 in
    let q := a / 2 ^ e in
    let r := a mod 2 ^ e in
    let half := 2 ^ (e - 1) in
    let q' := if r <? half then q
              else if half <? r then q + 1
              else if Z.even q then q else q + 1 in
    Z.sgn z * (q' * 2 ^ e).

(** [static_cast<int64_t>(std::floor(d / 2.0))] for a double [d] that holds
    an integer: halving is exact, so the result is the floor of [d / 2]. *)
Definition floor_half (d : Z) : Z := wrap (d / 2).

End Int64.

(* ================================================================= *)
(** ** Error reporting *)

(** Modelled from the spec: [opentimelineio/errorStatus.h] is not among the
    translated sources.  Section 6 describes an error report as an error
    kind and a message; the kinds used by the translated code are the
    success value and [INTERNAL_ERROR], every other kind is carried by its
    enumerator number. *)
Inductive Outcome : Type :=
  | OK
  | INTERNAL_ERROR
  | OTHER_OUTCOME (code : nat).

Record ErrorStatus : Type := mkErrorStatus {
  outcome : Outcome;
  details : string
}.

(** The error-status pointer argument: [None] is the null pointer, [Some e] a
    pointer to a status object that currently holds [e]. *)
Definition handle : Type := option ErrorStatus.

(** Assignment through the handle when one was supplied. *)
Definition report (error_status : handle) (e : ErrorStatus) : handle :=
  match error_status with
  | Some _ => Some e
  | None => None
  end.

(** Modelled from the spec: [is_error] on a status pointer, from
    [errorStatus.h]; with no handle failures are silent, with a handle an
    error is any kind other than success. *)
Definition is_error (error_status : handle) : bool :=
  match error_status with
  | Some e => match outcome e with OK => false | _ => true end
  | None => false
  end.

(* ================================================================= *)
(** ** The time type *)

(** [otio::RationalTime] is an external collaborator; the bisections use
    its operators [<], [<=] and [>]. *)
Class TimeOps (time : Type) : Type := {
  time_lt : time -> time -> bool;
  time_le : time -> time -> bool;
  time_gt : time -> time -> bool
}.

(** The three operators describe one total preorder. *)
Class TimeOrder (time : Type) `{TimeOps time} : Prop := {
  time_gt_lt : forall a b, time_gt a b = time_lt b a;
  time_le_lt : forall a b, time_le a b = negb (time_lt b a);
  time_le_trans : forall a b c,
    time_le a b = true -> time_le b c = true -> time_le a c = true
}.

#[export] Instance Z_TimeOps : TimeOps Z :=
  {| time_lt := Z.ltb; time_le := Z.leb; time_gt := Z.gtb |}.


(* ================================================================= *)
(** ** Outcomes of a run *)

Inductive result (A : Type) : Type :=
  | Done (a : A)      (* the function returned [a] *)
  | UB                (* undefined behaviour was reached *)
  | OutOfFuel.        (* the loop was still running when fuel ran out *)
Arguments Done {A} a.
Arguments UB {A}.
Arguments OutOfFuel {A}.

(** What a bisection call leaves behind: the indices at which the sequence
    was subscripted, in order, the state of the error-report handle, and the
    returned index. *)
Record run : Type := mkRun {
  probes : list Z;
  status : handle;
  returned : result Z
}.

(** Computations that subscript the sequence: the probes made so far and
    the outcome. *)
Definition probing (A : Type) : Type := list Z * result A.

Definition ret {A : Type} (a : A) : probing A := ([], Done a).

Definition bind {A B : Type} (m : probing A) (f : A -> probing B) : probing B :=
  match snd m with
  | Done a => (fst m ++ fst (f a), snd (f a))
  | UB => (fst m, UB)
  | OutOfFuel => (fst m, OutOfFuel)
  end.

Notation "x <- m ;; f" := (bind m (fun x => f))
  (at level 61, m at next level, right associativity).

Definition out_of_fuel {A : Type} : probing A := ([], OutOfFuel).

(** [(bool) * (int64_t)]: a comparison result promoted to an integer. *)
Definition b2z (b : bool) : Z := if b then 1 else 0.

(* ================================================================= *)
(** ** The bisections of [composition_benchmark.cpp] *)

Section Bisect.

Context {Composable time : Type} {ops : TimeOps time}.

(** [seq.size()] *)
Definition size (seq : list Composable) : Z := Z.of_nat (List.length seq).

(** [seq[i]]: defined for [0 <= i < seq.size()] only. *)
Definition subscript (seq : list Composable) (i : Z) : probing Composable :=
  if (0 <=? i) && (i <? size seq) then
    match nth_error seq (Z.to_nat i) with
    | Some c => ([i], Done c)
    | None => ([i], UB)
    end
  else ([i], UB).

Variable seq : list Composable.
Variable tgt : time.
Variable key_func : Composable -> time.

(** [static_cast<int64_t>(std::floor((lower + upper) / 2.0))]: the sum is
    formed in [int64_t], converted to [double], halved and floored. *)
Definition midpoint_index (lower_search_bound upper_search_bound : Z) : Z :=
  Int64.floor_half
    (Int64.to_double (Int64.add lower_search_bound upper_search_bound)).

(** The [while] loop of [bisect_right_original]. *)
Fixpoint original_loop (fuel : nat) (lower_search_bound upper_search_bound : Z)
  : probing Z :=
  if lower_search_bound <? upper_search_bound then
    match fuel with
    | O => out_of_fuel
    | S fuel' =>
        let midpoint_index :=
          midpoint_index lower_search_bound upper_search_bound in
        c <- subscript seq midpoint_index ;;
        if time_lt tgt (key_func c)
        then original_loop fuel' lower_search_bound midpoint_index
        else original_loop fuel' (Int64.add midpoint_index 1) upper_search_bound
    end
  else ret lower_search_bound.

(** The branch-free [while (left < right)] loop of
    [bisect_right_optimized_v2], which is also the final loop of
    [bisect_right_optimized_v3]. *)
Fixpoint v2_loop (fuel : nat) (left right : Z) : probing Z :=
  if left <? right then
    match fuel with
    | O => out_of_fuel
    | S fuel' =>
        let mid := Int64.add left (Int64.shr (Int64.sub right left) 1) in
        c <- subscript seq mid ;;
        let mid_val := key_func c in
        let left' :=
          Int64.add left
            (Int64.mul (b2z (time_le mid_val tgt))
                       (Int64.sub (Int64.add mid 1) left)) in
        let right' :=
          Int64.sub right
            (Int64.mul (b2z (time_gt mid_val tgt)) (Int64.sub right mid)) in
        v2_loop fuel' left' right'
    end
  else ret left.

(** The unrolled [while (right - left > 4)] loop of
    [bisect_right_optimized_v3]; it hands [left] and [right] to the final
    loop. *)
Fixpoint v3_loop (fuel : nat) (left right : Z) : probing (Z * Z) :=
  if 4 <? Int64.sub right left then
    match fuel with
    | O => out_of_fuel
    | S fuel' =>
        let range := Int64.sub right left in
        let mid1 := Int64.add left (Int64.shr range 2) in
        let mid2 := Int64.add left (Int64.shr range 1) in
        let mid3 := Int64.sub right (Int64.shr range 2) in
        c1 <- subscript seq mid1 ;;
        c2 <- subscript seq mid2 ;;
        c3 <- subscript seq mid3 ;;
        let val1 := key_func c1 in
        let val2 := key_func c2 in
        let val3 := key_func c3 in
        if time_lt tgt val1 then v3_loop fuel' left mid1
        else if time_lt tgt val2 then v3_loop fuel' (Int64.add mid1 1) mid2
        else if time_lt tgt val3 then v3_loop fuel' (Int64.add mid2 1) mid3
        else v3_loop fuel' (Int64.add mid3 1) right
    end
  else ret (left, right).

(** [sizeof(Retainer<Composable>)] comes from a header that is not among
    the translated sources; it is a parameter of the fourth variant. *)
Variable sizeof_Retainer : Z.

Definition CACHE_LINE_SIZE : Z := 64.
Definition ELEMENTS_PER_CACHE_LINE : Z := CACHE_LINE_SIZE / sizeof_Retainer.

(** The prefetch hints take the address of two elements. *)
Definition prefetch (left mid right : Z) : probing unit :=
  if ELEMENTS_PER_CACHE_LINE <? Int64.to_unsigned (Int64.sub right left) then
    let next_mid_lower := Int64.sub mid (Int64.div (Int64.sub mid left) 2) in
    let next_mid_upper := Int64.add mid (Int64.div (Int64.sub right mid) 2) in
    _ <- subscript seq next_mid_lower ;;
    _ <- subscript seq next_mid_upper ;;
    ret tt
  else ret tt.

(** The [while] loop of [bisect_right_optimized_v4]. *)
Fixpoint v4_loop (fuel : nat) (left right : Z) : probing Z :=
  if left <? right then
    match fuel with
    | O => out_of_fuel
    | S fuel' =>
        let mid := Int64.add left (Int64.shr (Int64.sub right left) 1) in
        _ <- prefetch left mid right ;;
        c <- subscript seq mid ;;
        let mid_val := key_func c in
        let is_less := time_le mid_val tgt in
        let left' :=
          Int64.add left
            (Int64.mul (b2z is_less) (Int64.sub (Int64.add mid 1) left)) in
        let right' :=
          Int64.sub right
            (Int64.mul (b2z (negb is_less)) (Int64.sub right mid)) in
        v4_loop fuel' left' right'
    end
  else ret left.

(** The status every variant stores on a negative lower bound. *)
Definition negative_lower_bound : ErrorStatus :=
  mkErrorStatus INTERNAL_ERROR "lower_search_bound must be non-negative".

(** The upper bound in force: the one supplied, or [seq.size()]. *)
Definition upper_bound (upper_search_bound : option Z) : Z :=
  match upper_search_bound with
  | Some upper => upper
  | None => Int64.wrap (size seq)
  end.

(** The part all four functions share: [*lower_search_bound] is read before
    anything checks that the optional holds a value, a negative bound is
    reported through the handle and answered with [0], and an absent upper
    bound becomes [seq.size()] (converted to [int64_t]; in the variants the
    conditional expression passes through [size_t] and back, which leaves a
    supplied bound as it is). *)
Definition with_bounds (error_status : handle)
    (lower_search_bound upper_search_bound : option Z)
    (search : Z -> Z -> probing Z) : run :=
  match lower_search_bound with
  | None => mkRun [] error_status UB
  | Some lower =>
      if lower <? 0 then
        mkRun [] (report error_status negative_lower_bound) (Done 0)
      else
        let r := search lower (upper_bound upper_search_bound) in
        mkRun (fst r) error_status (snd r)
  end.

Definition bisect_right_original (fuel : nat) (error_status : handle)
    (lower_search_bound upper_search_bound : option Z) : run :=
  with_bounds error_status lower_search_bound upper_search_bound
    (original_loop fuel).

Definition bisect_right_optimized_v2 (fuel : nat) (error_status : handle)
    (lower_search_bound upper_search_bound : option Z) : run :=
  with_bounds error_status lower_search_bound upper_search_bound
    (v2_loop fuel).

Definition bisect_right_optimized_v3 (fuel : nat) (error_status : handle)
    (lower_search_bound upper_search_bound : option Z) : run :=
  with_bounds error_status lower_search_bound upper_search_bound
    (fun left right =>
       lr <- v3_loop fuel left right ;;
       v2_loop fuel (fst lr) (snd lr)).

Definition bisect_right_optimized_v4 (fuel : nat) (error_status : handle)
    (lower_search_bound upper_search_bound : option Z) : run :=
  with_bounds error_status lower_search_bound upper_search_bound
    (v4_loop fuel).

End Bisect.

(* ================================================================= *)
(** ** What the bisections are measured against *)

Section BisectSpec.

Context {Composable time : Type} {ops : TimeOps time}.
Variable seq : list Composable.
Variable tgt : time.
Variable key_func : Composable -> time.

(** The key of the element at index [i], when there is one. *)
Definition key_at (i : Z) : option time :=
  if 0 <=? i then option_map key_func (nth_error seq (Z.to_nat i)) else None.

(** The keys over [[l, u)] are non-decreasing. *)
Definition sorted_on (l u : Z) : Prop :=
  forall i j ki kj,
    l <= i -> i < j -> j < u ->
    key_at i = Some ki -> key_at j = Some kj -> time_le ki kj = true.

(** No key of [[l, u)] is greater than [tgt]. *)
Definition none_above (l u : Z) : Prop :=
  forall i k, l <= i < u -> key_at i = Some k -> time_gt k tgt = false.

(** Every key of [[l, u)] is greater than [tgt]. *)
Definition all_above (l u : Z) : Prop :=
  forall i k, l <= i < u -> key_at i = Some k -> time_gt k tgt = true.

(** Where the keys change from "not above [tgt]" to "above [tgt]". *)
Definition boundary (l u r : Z) : Prop :=
  l <= r <= u /\ none_above l r /\ all_above r u.

(** The number of elements whose key is at most [tgt]. *)
Definition count_le : Z :=
  Z.of_nat (List.length (filter (fun c => time_le (key_func c) tgt) seq)).

(** The invariant of every loop started on [[l0, u0)]: the interval only
    shrinks, and over sorted keys everything dropped on the left is not
    above [tgt] and everything dropped on the right is. *)
Definition narrowed (l0 u0 l u : Z) : Prop :=
  l0 <= l /\ u <= u0 /\ (l <= u \/ (l = l0 /\ u = u0)) /\
  (sorted_on l0 u0 -> none_above l0 l /\ all_above u u0).

(** A check that suffices for sortedness: every key is at most itself and
    at most every later key. *)
Fixpoint sortedb (keys : list time) : bool :=
  match keys with
  | [] => true
  | k :: rest => forallb (time_le k) rest && sortedb rest
  end.

(** What a completed search over [[l, u)] leaves behind: the handle is as
    it was, every probe lies in [[l, u)], and the index is where the keys
    of a sorted sub-range pass [tgt]. *)
Definition completed (error_status : handle) (l u : Z) (r : run) : Prop :=
  exists i,
    returned r = Done i /\ status r = error_status /\
    Forall (fun p => l <= p < u) (probes r) /\
    (u < l -> i = l) /\
    (l <= u -> l <= i <= u /\ (sorted_on l u -> boundary l u i)).

(** One round of the scalar loops with the machine arithmetic resolved:
    the new bounds. *)
Definition round_step (l u : Z) : probing (Z * Z) :=
  let mid := l + (u - l) / 2 in
  c <- subscript seq mid ;;
  ret (if time_lt tgt (key_func c) then (l, mid) else (mid + 1, u)).

(** One round of the unrolled loop, likewise. *)
Definition v3_step (l u : Z) : probing (Z * Z) :=
  let mid1 := l + (u - l) / 4 in
  let mid2 := l + (u - l) / 2 in
  let mid3 := u - (u - l) / 4 in
  c1 <- subscript seq mid1 ;;
  c2 <- subscript seq mid2 ;;
  c3 <- subscript seq mid3 ;;
  ret (if time_lt tgt (key_func c1) then (l, mid1)
       else if time_lt tgt (key_func c2) then (mid1 + 1, mid2)
       else if time_lt tgt (key_func c3) then (mid2 + 1, mid3)
       else (mid3 + 1, u)).

(** One round of the prefetching loop, likewise. *)
Definition v4_step (sizeof_Retainer : Z) (l u : Z) : probing (Z * Z) :=
  _ <- prefetch seq sizeof_Retainer l (l + (u - l) / 2) u ;;
  round_step l u.

End BisectSpec.

(** [2^52]: while the upper bound stays below it, the sum of the two bounds
    is a double without rounding. *)
Definition two52 : Z := 4503599627370496.

(** Integer times that are their own keys. *)
Definition id_key (z : Z) : Z := z.

(** A sequence of [2^53 + 3] equal elements, never written out. *)
Abbreviation long_seq := (repeat 1 (Z.to_nat 9007199254740995)).

(* ================================================================= *)
(** ** The timeline tree and [Composition::find_children] *)

(** A node of the timeline tree.  [Meta] stands for everything a node
    carries besides its children: its identity, its dynamic type, its name
    and ranges. *)
#[warnings="-register-all"] Inductive Composable (Meta : Type) : Type :=
  | Leaf (m : Meta)
  | Comp (m : Meta) (_children : list (Composable Meta)).
Arguments Leaf {Meta} m.
Arguments Comp {Meta} m _children.

Section Tree.

Context {Meta : Type}.

Definition meta (c : Composable Meta) : Meta :=
  match c with Leaf m => m | Comp m _ => m end.

(** The [_children] member; a node that is not a composition has none. *)
Definition _children (c : Composable Meta) : list (Composable Meta) :=
  match c with Leaf _ => [] | Comp _ cs => cs end.

(** Whether the cast of the node to a composition pointer succeeds. *)
Definition is_composition (c : Composable Meta) : bool :=
  match c with Leaf _ => false | Comp _ _ => true end.

Fixpoint height (c : Composable Meta) : nat :=
  match c with
  | Leaf _ => O
  | Comp _ cs => S (fold_right (fun k h => Nat.max (height k) h) O cs)
  end.

End Tree.

Section FindChildren.

Context {Meta TimeRange : Type}.

(** Whether the cast of a node to the template type [T] succeeds. *)
Variable is_T : Composable Meta -> bool.

(** [this->children_in_range(range, error_status)] is virtual and defined
    outside the translated sources: it yields the narrowed children and
    the state it leaves in the handle. *)
Variable children_in_range :
  Composable Meta -> TimeRange -> handle -> list (Composable Meta) * handle.

(** [this->transformed_time_range(range, to_item, error_status)], likewise. *)
Variable transformed_time_range :
  Composable Meta -> TimeRange -> Composable Meta -> handle ->
  TimeRange * handle.

(** What a walk gives back: the matches and the state of the handle;
    [None] when the recursion budget ran out. *)
Definition walk : Type := option (list (Composable Meta) * handle).

(** The [for (const auto& child : children)] loop; [out], [search_range]
    and the status behind [error_status] are the variables it updates. *)
Fixpoint find_children_loop
    (recurse : Composable Meta -> handle -> option TimeRange -> walk)
    (this : Composable Meta) (shallow_search : bool)
    (children : list (Composable Meta))
    (out : list (Composable Meta))
    (search_range : option TimeRange) (error_status : handle) : walk :=
  match children with
  | [] => Some (out, error_status)
  | child :: rest =>
      let out := if is_T child then out ++ [child] else out in
      if negb shallow_search then
        if is_composition child then
          let '(search_range, error_status, failed) :=
            match search_range with
            | Some r =>
                let (r', es) :=
                  transformed_time_range this r child error_status in
                (Some r', es, is_error es)
            | None => (None, error_status, false)
            end in
          if failed then Some (out, error_status)
          else
            match recurse child error_status search_range with
            | None => None
            | Some (valid_children, error_status) =>
                if is_error error_status then Some (out, error_status)
                else
                  find_children_loop recurse this shallow_search rest
                    (out ++ valid_children) search_range error_status
            end
        else
          find_children_loop recurse this shallow_search rest
            out search_range error_status
      else
        find_children_loop recurse this shallow_search rest
          out search_range error_status
  end.

(** [this->find_children<T>(error_status, search_range, shallow_search)];
    [fuel] bounds the depth of the recursion. *)
Fixpoint find_children (fuel : nat) (this : Composable Meta)
    (error_status : handle) (search_range : option TimeRange)
    (shallow_search : bool) : walk :=
  match fuel with
  | O => None
  | S fuel' =>
      let out := [] in
      let '(children, error_status, failed) :=
        match search_range with
        | Some r =>
            let (cs, es) := children_in_range this r error_status in
            (cs, es, is_error es)
        | None => (_children this, error_status, false)
        end in
      if failed then Some (out, error_status)
      else
        find_children_loop
          (fun composition es r =>
             find_children fuel' composition es r shallow_search)
          this shallow_search children out search_range error_status
  end.

(** The loop as section 4.5 words it: each child composition is searched
    with the range the caller supplied, transformed into that child's
    space; the loop's own [search_range] stays what it was. *)
Fixpoint specified_loop
    (recurse : Composable Meta -> handle -> option TimeRange -> walk)
    (this : Composable Meta) (shallow_search : bool)
    (children : list (Composable Meta))
    (out : list (Composable Meta))
    (search_range : option TimeRange) (error_status : handle) : walk :=
  match children with
  | [] => Some (out, error_status)
  | child :: rest =>
      let out := if is_T child then out ++ [child] else out in
      if negb shallow_search then
        if is_composition child then
          let '(child_range, error_status, failed) :=
            match search_range with
            | Some r =>
                let (r', es) :=
                  transformed_time_range this r child error_status in
                (Some r', es, is_error es)
            | None => (None, error_status, false)
            end in
          if failed then Some (out, error_status)
          else
            match recurse child error_status child_range with
            | None => None
            | Some (valid_children, error_status) =>
                if is_error error_status then Some (out, error_status)
                else
                  specified_loop recurse this shallow_search rest
                    (out ++ valid_children) search_range error_status
            end
        else
          specified_loop recurse this shallow_search rest
            out search_range error_status
      else
        specified_loop recurse this shallow_search rest
          out search_range error_status
  end.

(** [find_children] with the loop of section 4.5. *)
Fixpoint specified_find_children (fuel : nat) (this : Composable Meta)
    (error_status : handle) (search_range : option TimeRange)
    (shallow_search : bool) : walk :=
  match fuel with
  | O => None
  | S fuel' =>
      let '(children, error_status, failed) :=
        match search_range with
        | Some r =>
            let (cs, es) := children_in_range this r error_status in
            (cs, es, is_error es)
        | None => (_children this, error_status, false)
        end in
      if failed then Some ([], error_status)
      else
        specified_loop
          (fun composition es r =>
             specified_find_children fuel' composition es r shallow_search)
          this shallow_search children [] search_range error_status
  end.

(** The entry a child contributes on its own account. *)
Definition own_entry (child : Composable Meta) : list (Composable Meta) :=
  if is_T child then [child] else [].

(** The matches below a composition in pre-order: each child's own entry,
    then the matches below that child. *)
Fixpoint matches_below (c : Composable Meta) : list (Composable Meta) :=
  match c with
  | Leaf _ => []
  | Comp _ cs =>
      (fix over (cs : list (Composable Meta)) : list (Composable Meta) :=
         match cs with
         | [] => []
         | child :: rest => own_entry child ++ matches_below child ++ over rest
         end) cs
  end.

(** The children the loop runs over and the handle it starts with: the
    narrowed children when a range was given, all of them otherwise. *)
Definition narrowing (this : Composable Meta) (error_status : handle)
    (search_range : option TimeRange) : list (Composable Meta) * handle :=
  match search_range with
  | Some r => children_in_range this r error_status
  | None => (_children this, error_status)
  end.

(** The range and the handle with which the loop searches below a child
    composition. *)
Definition descent (this child : Composable Meta)
    (search_range : option TimeRange) (error_status : handle)
  : option TimeRange * handle :=
  match search_range with
  | Some r =>
      (Some (fst (transformed_time_range this r child error_status)),
       snd (transformed_time_range this r child error_status))
  | None => (None, error_status)
  end.

(** A walk with the non-matching entries struck from its result. *)
Definition filtered (w : walk) : walk :=
  option_map (fun oe => (filter is_T (fst oe), snd oe)) w.

(** What one visited child adds to the result: its own entry, then what a
    search below it returned, if one was made and kept. *)
Definition block_of
    (recurse : Composable Meta -> handle -> option TimeRange -> walk)
    (child : Composable Meta) (block : list (Composable Meta)) : Prop :=
  exists sub,
    block = own_entry child ++ sub /\
    (sub = [] \/
     (is_composition child = true /\
      exists es r es', recurse child es r = Some (sub, es'))).

(** The narrowing hands back nodes that lie below the composition. *)
Definition narrows_below : Prop :=
  forall this r es k,
    In k (fst (children_in_range this r es)) ->
    (height k < height this)%nat.

End FindChildren.

(* ================================================================= *)
(** ** A track of clips, to run the walk on *)

Module TrackModel.

(** A node carries its name and, for a clip, its duration. *)
Definition Meta : Type := (string * Z)%type.
(** Start time and duration. *)
Definition TimeRange : Type := (Z * Z)%type.
Definition node : Type := Composable Meta.

Definition clip (name : string) (d : Z) : node := Leaf (name, d).
Definition track (name : string) (cs : list node) : node := Comp (name, 0) cs.

(** A track lays its children end to end. *)
Fixpoint duration (c : node) : Z :=
  match c with
  | Leaf (_, d) => d
  | Comp _ cs => fold_right (fun k s => duration k + s) 0 cs
  end.

Fixpoint overlapping (offset : Z) (r : TimeRange) (cs : list node)
  : list node :=
  match cs with
  | [] => []
  | c :: rest =>
      let stop := offset + duration c in
      (if (fst r <? stop) && (offset <? fst r + snd r) then [c] else [])
        ++ overlapping stop r rest
  end.

(** Modelled from the spec: [Composition::children_in_range], whose body
    is not among the translated sources.  Section 4.4: the slice from the
    first child whose end time exceeds the start of the range up to the
    first child whose start time is at or after its end. *)
Definition children_in_range (this : node) (r : TimeRange) (es : handle)
  : list node * handle :=
  (overlapping 0 r (_children this), es).

Fixpoint start_of (name : string) (offset : Z) (cs : list node) : Z :=
  match cs with
  | [] => offset
  | c :: rest =>
      if String.eqb (fst (meta c)) name then offset
      else start_of name (offset + duration c) rest
  end.

(** Modelled from the spec: [Item::transformed_time_range], whose body is
    not among the translated sources.  Section 6 (c): the range moved from
    this composition's local space into the local space of the child, which
    starts where the child starts in its parent. *)
Definition transformed_time_range (this : node) (r : TimeRange)
    (to_item : node) (es : handle) : TimeRange * handle :=
  ((fst r - start_of (fst (meta to_item)) 0 (_children this), snd r), es).

(** The cast to a clip pointer. *)
Definition is_clip (c : node) : bool := negb (is_composition c).

(** Two nested tracks. *)
Definition track_A : node := track "A" [clip "a1" 10].
Definition track_B : node := track "B" [clip "b1" 5; clip "b2" 5].

(** A clip of 5, then the two nested tracks of 10 each: the children of
    the top track lie at [[0,5)], [[5,15)] and [[15,25)]. *)
Definition timeline : node := track "top" [clip "c0" 5; track_A; track_B].

(** An error of a kind other than [INTERNAL_ERROR]. *)
Definition range_error : ErrorStatus :=
  mkErrorStatus (OTHER_OUTCOME 21) "invalid time range".



(** A stand-in for the search below a child that returns the start of the
    range it was handed. *)
Definition passed_range (c : node) (es : handle) (r : option TimeRange)
  : walk :=
  Some (match r with Some x => [clip "passed" (fst x)] | None => [] end, es).

End TrackModel.

(* ================================================================= *)
(** ** Further measures for the bisections *)

Section BisectMore.

Context {Composable time : Type} {ops : TimeOps time}.
Variable seq : list Composable.
Variable tgt : time.
Variable key_func : Composable -> time.

(** [r] is a crossing of [[l, u)]: the key just before it, if the sub-range
    has one, is not above [tgt], and the key at it, if the sub-range has
    one, is above [tgt].  No order of the keys is involved. *)
Definition crossing (l u r : Z) : Prop :=
  l <= r <= u /\
  (l < r -> exists k,
     key_at seq key_func (r - 1) = Some k /\ time_gt k tgt = false) /\
  (r < u -> exists k,
     key_at seq key_func r = Some k /\ time_gt k tgt = true).

(** The invariant behind a crossing, for a loop started on [[l0, u0)]: each
    bound that has moved rests on a key that justified the move. *)
Definition bracketed (l0 u0 l u : Z) : Prop :=
  l0 <= l /\ u <= u0 /\ (l <= u \/ (l = l0 /\ u = u0)) /\
  (l0 < l -> exists k,
     key_at seq key_func (l - 1) = Some k /\ time_gt k tgt = false) /\
  (u < u0 -> exists k,
     key_at seq key_func u = Some k /\ time_gt k tgt = true).

(** The four functions on the same arguments. *)
Definition four_runs (sizeof_Retainer : Z) (fuel : nat)
    (error_status : handle) (lower_search_bound upper_search_bound : option Z)
  : list run :=
  [ bisect_right_original seq tgt key_func fuel error_status
      lower_search_bound upper_search_bound;
    bisect_right_optimized_v2 seq tgt key_func fuel error_status
      lower_search_bound upper_search_bound;
    bisect_right_optimized_v3 seq tgt key_func fuel error_status
      lower_search_bound upper_search_bound;
    bisect_right_optimized_v4 seq tgt key_func sizeof_Retainer fuel
      error_status lower_search_bound upper_search_bound ].

End BisectMore.

(** The number of halvings that empty an interval of [s] indices. *)
Definition rounds (s : Z) : nat :=
  if s <=? 0 then O else S (Z.to_nat (Z.log2 s)).

(** What a completed search over [[l, u)] leaves behind on any sequence:
    the handle as it was, at most [bound] probes, all of them in
    [[l, u)], and a crossing as the index. *)
Definition crossed {Composable time : Type} {ops : TimeOps time}
    (seq : list Composable) (tgt : time) (key_func : Composable -> time)
    (error_status : handle) (l u : Z) (bound : nat) (r : run) : Prop :=
  exists i,
    returned r = Done i /\ status r = error_status /\
    Forall (fun p => l <= p < u) (probes r) /\
    (List.length (probes r) <= bound)%nat /\
    (u < l -> i = l) /\
    (l <= u -> crossing seq tgt key_func l u i).

(* ================================================================= *)
(** ** The benchmark drivers *)

Module Benchmark.

(** A clip as the drivers use it: they create clips and never look inside
    one. *)
Inductive Clip : Type := new_Clip.

(** The exception a driver can leave by: [std::length_error]. *)
Inductive exception : Type := length_error.

(** What a call gives: the value it returns, or the exception it throws. *)
Inductive raising (A : Type) : Type :=
  | Returns (a : A)
  | Throws (e : exception).
Arguments Returns {A} a.
Arguments Throws {A} e.

(** [create_test_data(n)].  [data.reserve(n)] converts the [int] to
    [size_t]: a negative [n] becomes a size of at least [2^64 - 2^31],
    above the [max_size()] of any vector, and [reserve] throws
    [std::length_error] before a clip is made.  Otherwise the loop appends
    [n] new clips. *)
Definition create_test_data (n : Z) : raising (list Clip) :=
  if n <? 0 then Throws length_error
  else Returns (repeat new_Clip (Z.to_nat n)).

(** Modelled from the spec: [otio::RationalTime] comes from a header that is
    not among the translated sources.  The drivers only build times of rate
    1, which the exact order of section 2 compares by their values; such a
    time is its value. *)
Definition RationalTime (value rate : Z) : Z := value.

(** The target of every driver: [RationalTime(n / 2, 1)], with the division
    of [int]. *)
Definition target (n : Z) : Z := RationalTime (Z.quot n 2) 1.

(** The key function of every driver: the constant [RationalTime(1, 1)]. *)
Definition key_func (c : Clip) : Z := RationalTime 1 1.

(** A default-constructed status. *)
Definition fresh_status : ErrorStatus := mkErrorStatus OK EmptyString.

(** Each driver up to the end of the first iteration of its measured
    loop: the data is made first, and an exception from [create_test_data]
    leaves the driver before any search; every iteration makes the same
    call with a status of its own. *)
Definition BM_BisectRight_Original (fuel : nat) (n : Z) : raising run :=
  match create_test_data n with
  | Throws e => Throws e
  | Returns data =>
      Returns (bisect_right_original data (target n) key_func fuel
                 (Some fresh_status) (Some 0) None)
  end.

Definition BM_BisectRight_Optimized_V2 (fuel : nat) (n : Z) : raising run :=
  match create_test_data n with
  | Throws e => Throws e
  | Returns data =>
      Returns (bisect_right_optimized_v2 data (target n) key_func fuel
                 (Some fresh_status) (Some 0) None)
  end.

Definition BM_BisectRight_Optimized_V3 (fuel : nat) (n : Z) : raising run :=
  match create_test_data n with
  | Throws e => Throws e
  | Returns data =>
      Returns (bisect_right_optimized_v3 data (target n) key_func fuel
                 (Some fresh_status) (Some 0) None)
  end.

Definition BM_BisectRight_Optimized_V4 (sizeof_Retainer : Z) (fuel : nat)
    (n : Z) : raising run :=
  match create_test_data n with
  | Throws e => Throws e
  | Returns data =>
      Returns (bisect_right_optimized_v4 data (target n) key_func
                 sizeof_Retainer fuel (Some fresh_status) (Some 0) None)
  end.

End Benchmark.

(* ================================================================= *)
(** ** More about the walk *)

Section FindChildrenMore.

Context {Meta TimeRange : Type}.

(** The children up to and including the first composition among them. *)
Fixpoint through_first_composition (children : list (Composable Meta))
  : list (Composable Meta) :=
  match children with
  | [] => []
  | child :: rest =>
      child :: (if is_composition child then []
                else through_first_composition rest)
  end.

(** The narrowing hands back children of the composition. *)
Definition narrows_to_children
    (children_in_range :
       Composable Meta -> TimeRange -> handle ->
       list (Composable Meta) * handle) : Prop :=
  forall this r es,
    incl (fst (children_in_range this r es)) (_children this).

(** The narrowing hands back at most one composition. *)
Definition narrows_to_one_composition
    (children_in_range :
       Composable Meta -> TimeRange -> handle ->
       list (Composable Meta) * handle) : Prop :=
  forall this r es,
    (List.length (filter is_composition (fst (children_in_range this r es)))
     <= 1)%nat.

(** Without a handle the narrowing and the transformation have nowhere to
    report to: they hand back no handle either. *)
Definition handle_stays_null
    (children_in_range :
       Composable Meta -> TimeRange -> handle ->
       list (Composable Meta) * handle)
    (transformed_time_range :
       Composable Meta -> TimeRange -> Composable Meta -> handle ->
       TimeRange * handle) : Prop :=
  (forall this r, snd (children_in_range this r None) = None) /\
  (forall this r c, snd (transformed_time_range this r c None) = None).

(** The loop as it runs without a handle, where no [is_error] test can
    succeed: every child adds its own entry, and in a deep search every
    child composition adds what the search below it returns for the range
    as the loop has transformed it so far. *)
Fixpoint unchecked_loop
    (is_T : Composable Meta -> bool)
    (transformed_time_range :
       Composable Meta -> TimeRange -> Composable Meta -> handle ->
       TimeRange * handle)
    (recurse : Composable Meta -> option TimeRange -> list (Composable Meta))
    (this : Composable Meta) (shallow_search : bool)
    (children : list (Composable Meta)) (search_range : option TimeRange)
  : list (Composable Meta) :=
  match children with
  | [] => []
  | child :: rest =>
      own_entry is_T child ++
      if negb shallow_search && is_composition child then
        let search_range :=
          option_map
            (fun r => fst (transformed_time_range this r child None))
            search_range in
        recurse child search_range ++
        unchecked_loop is_T transformed_time_range recurse this
          shallow_search rest search_range
      else
        unchecked_loop is_T transformed_time_range recurse this
          shallow_search rest search_range
  end.

(** The walk as it runs without a handle; at depth [0] nothing is found. *)
Fixpoint unchecked_find_children
    (is_T : Composable Meta -> bool)
    (children_in_range :
       Composable Meta -> TimeRange -> handle ->
       list (Composable Meta) * handle)
    (transformed_time_range :
       Composable Meta -> TimeRange -> Composable Meta -> handle ->
       TimeRange * handle)
    (fuel : nat) (this : Composable Meta)
    (search_range : option TimeRange) (shallow_search : bool)
  : list (Composable Meta) :=
  match fuel with
  | O => []
  | S fuel' =>
      unchecked_loop is_T transformed_time_range
        (fun composition r =>
           unchecked_find_children is_T children_in_range
             transformed_time_range fuel' composition r shallow_search)
        this shallow_search
        (match search_range with
         | Some r => fst (children_in_range this r None)
         | None => _children this
         end)
        search_range
  end.

End FindChildrenMore.

(* ================================================================= *)
(** * Properties *)

#[export] Instance Z_TimeOrder : TimeOrder Z.
Proof.
  split; simpl; intros.
  - rewrite Z.gtb_ltb. reflexivity.
  - destruct (Z.leb_spec a b), (Z.ltb_spec b a); simpl; auto; lia.
  - apply Z.leb_le in H, H0. apply Z.leb_le. lia.
Qed.

(** ** Machine arithmetic *)

Module Int64Facts.
Import Int64.

Lemma wrap_small (z : Z) : in_range z -> wrap z = z.
Proof.
  unfold in_range, wrap, min_signed, max_signed, half_modulus, modulus.
  intros H. rewrite Z.mod_small; lia.
Qed.

Lemma wrap_le_nonneg (z : Z) : 0 <= z -> wrap z <= z.
Proof.
  unfold wrap, half_modulus, modulus. intros H.
  pose proof (Z.mod_le (z + 2 ^ 63) (2 ^ 64)). lia.
Qed.

Lemma wrap_in_range (z : Z) : in_range (wrap z).
Proof.
  unfold in_range, wrap, min_signed, max_signed, half_modulus, modulus.
  pose proof (Z.mod_pos_bound (z + 2 ^ 63) (2 ^ 64)). lia.
Qed.

Lemma to_double_small (z : Z) : Z.abs z < 2 ^ 53 -> to_double z = z.
Proof.
  unfold to_double. intros H.
  destruct (Z.ltb_spec (Z.abs z) (2 ^ 53)); [reflexivity | lia].
Qed.

Lemma shr_1 (a : Z) : shr a 1 = a / 2.
Proof. unfold shr. rewrite Z.shiftr_div_pow2 by lia. reflexivity. Qed.

Lemma shr_2 (a : Z) : shr a 2 = a / 4.
Proof. unfold shr. rewrite Z.shiftr_div_pow2 by lia. reflexivity. Qed.

Lemma in_range_intro z :
  - 9223372036854775808 <= z <= 9223372036854775807 -> in_range z.
Proof. unfold in_range, min_signed, max_signed. lia. Qed.

Lemma in_range_elim z :
  in_range z -> - 9223372036854775808 <= z <= 9223372036854775807.
Proof. unfold in_range, min_signed, max_signed. lia. Qed.

Lemma add_small a b : in_range (a + b) -> add a b = a + b.
Proof. apply wrap_small. Qed.
Lemma sub_small a b : in_range (a - b) -> sub a b = a - b.
Proof. apply wrap_small. Qed.
Lemma mul_small a b : in_range (a * b) -> mul a b = a * b.
Proof. apply wrap_small. Qed.

(** The midpoint of the reference loop is exact while the sum of the bounds
    stays below [2^53]. *)
Lemma midpoint_double l u :
  0 <= l -> l <= u -> l + u < 2 ^ 53 ->
  floor_half (to_double (add l u)) = l + (u - l) / 2.
Proof.
  intros Hl Hlu Hs.
  assert (E : 2 ^ 53 = 9007199254740992) by reflexivity.
  rewrite E in Hs.
  rewrite add_small by (apply in_range_intro; lia).
  rewrite to_double_small by (rewrite E; lia).
  unfold floor_half. rewrite wrap_small.
  - replace (l + u) with ((u - l) + l * 2) by lia.
    rewrite Z.div_add by lia. lia.
  - apply in_range_intro. 
    assert (0 <= (l + u) / 2) by (apply Z.div_pos; lia).
    assert ((l + u) / 2 <= l + u) by (apply Z.div_le_upper_bound; lia). lia.
Qed.

(** The midpoint of the tuned loops never wraps. *)
Lemma midpoint_shift l u :
  0 <= l -> l <= u -> in_range u ->
  add l (shr (sub u l) 1) = l + (u - l) / 2.
Proof.
  intros Hl Hlu Hu. apply in_range_elim in Hu.
  rewrite sub_small by (apply in_range_intro; lia).
  rewrite shr_1.
  assert (0 <= (u - l) / 2) by (apply Z.div_pos; lia).
  assert ((u - l) / 2 <= u - l) by (apply Z.div_le_upper_bound; lia).
  apply add_small. apply in_range_intro. lia.
Qed.

Lemma midpoint_bounds l u : l < u -> l <= l + (u - l) / 2 < u.
Proof.
  intros. assert (0 <= (u - l) / 2) by (apply Z.div_pos; lia).
  assert ((u - l) / 2 < u - l) by (apply Z.div_lt_upper_bound; lia). lia.
Qed.
End Int64Facts.
Import Int64Facts.

(** ** The probing monad *)

Lemma branchless_update (b : bool) (l mid u : Z) :
  0 <= l -> l <= mid -> mid < u -> Int64.in_range u ->
  Int64.add l (Int64.mul (b2z b) (Int64.sub (Int64.add mid 1) l))
    = (if b then mid + 1 else l)
  /\ Int64.sub u (Int64.mul (b2z (negb b)) (Int64.sub u mid))
    = (if b then u else mid).
Proof.
  intros Hl Hm Hu Hr. apply in_range_elim in Hr.
  rewrite (add_small mid 1) by (apply in_range_intro; lia).
  rewrite (sub_small (mid + 1) l) by (apply in_range_intro; lia).
  rewrite (sub_small u mid) by (apply in_range_intro; lia).
  destruct b; simpl b2z.
  - rewrite !mul_small by (apply in_range_intro; lia).
    rewrite add_small, sub_small by (apply in_range_intro; lia). lia.
  - rewrite !mul_small by (apply in_range_intro; lia).
    rewrite add_small, sub_small by (apply in_range_intro; lia). lia.
Qed.

Lemma bind_ext {A B} (m : probing A) (f g : A -> probing B) :
  (forall a, f a = g a) -> bind m f = bind m g.
Proof. intros E. unfold bind. destruct (snd m); rewrite ?E; reflexivity. Qed.

Lemma snd_bind_ext {A B} (m : probing A) (f g : A -> probing B) :
  (forall a, snd (f a) = snd (g a)) -> snd (bind m f) = snd (bind m g).
Proof. intros E. unfold bind. destruct (snd m); simpl; rewrite ?E; reflexivity. Qed.

Lemma bind_done {A B} (tr : list Z) (a : A) (f : A -> probing B) :
  bind (tr, Done a) f = (tr ++ fst (f a), snd (f a)).
Proof. reflexivity. Qed.

Lemma bind_assoc {A B C} (m : probing A) (f : A -> probing B)
    (k : B -> probing C) :
  bind (bind m f) k = bind m (fun a => bind (f a) k).
Proof.
  unfold bind. destruct m as [tr [a| |]]; simpl; try reflexivity.
  destruct (f a) as [tr2 [b| |]]; simpl; rewrite ?app_assoc; reflexivity.
Qed.

Lemma bind_ret_l {A B} (a : A) (k : A -> probing B) : bind (ret a) k = k a.
Proof. unfold bind, ret. simpl. destruct (k a); reflexivity. Qed.

Lemma bind_bind_ret {A B C} (m : probing A) (g : A -> B) (k : B -> probing C) :
  bind (bind m (fun a => ret (g a))) k = bind m (fun a => k (g a)).
Proof.
  unfold bind, ret. destruct m as [tr [a| |]]; simpl; try reflexivity.
  rewrite app_nil_r. reflexivity.
Qed.

(** *** Loops that narrow an interval *)
Section Narrowing.

Variable R : Type.
Variable loop : nat -> Z -> Z -> probing R.
Variable step : Z -> Z -> probing (Z * Z).
Variable cond : Z -> Z -> bool.
Variable exit : Z -> Z -> R.
Variable I : Z -> Z -> Prop.

Hypothesis cond_lt : forall l u, I l u -> cond l u = true -> l < u.
Hypothesis loop_exit : forall fuel l u,
  cond l u = false -> loop fuel l u = ret (exit l u).
Hypothesis loop_step : forall fuel l u,
  I l u -> cond l u = true ->
  loop (S fuel) l u = (lu <- step l u ;; loop fuel (fst lu) (snd lu)).
Hypothesis step_narrows : forall l u,
  I l u -> cond l u = true ->
  exists tr l' u',
    step l u = (tr, Done (l', u')) /\
    Forall (fun i => l <= i < u) tr /\
    I l' u' /\ l <= l' /\ u' <= u /\ u' - l' < u - l.

Lemma narrowing_loop_done fuel : forall l u,
  I l u -> (Z.to_nat (u - l) <= fuel)%nat ->
  exists tr l' u',
    loop fuel l u = (tr, Done (exit l' u')) /\
    Forall (fun i => l <= i < u) tr /\
    I l' u' /\ cond l' u' = false.
Proof.
  induction fuel as [|fuel IH]; intros l u HI Hfuel.
  - destruct (cond l u) eqn:C.
    + apply cond_lt in C; [lia | assumption].
    + exists [], l, u. rewrite loop_exit by assumption. repeat split; auto.
  - destruct (cond l u) eqn:C.
    + rewrite loop_step by assumption.
      destruct (step_narrows l u HI C) as (tr & l' & u' & E & Htr & HI' & Hl & Hu & Hm).
      destruct (IH l' u' HI') as (tr2 & l2 & u2 & E2 & Htr2 & HI2 & C2); [lia|].
      exists (tr ++ tr2), l2, u2. rewrite E, bind_done. simpl fst; simpl snd.
      rewrite E2. simpl. repeat split; auto.
      apply Forall_app. split; [assumption|].
      eapply Forall_impl; [|exact Htr2]. simpl. intros; lia.
    + exists [], l, u. rewrite loop_exit by assumption. repeat split; auto.
Qed.

End Narrowing.

(** ** The bisection loops *)

Section BisectFacts.

Context {Composable time : Type} {ops : TimeOps time} {ord : TimeOrder time}.
Variable seq : list Composable.
Variable tgt : time.
Variable key_func : Composable -> time.
Variable sizeof_Retainer : Z.

#[local] Abbreviation key_at := (key_at seq key_func).
#[local] Abbreviation sorted_on := (sorted_on seq key_func).
#[local] Abbreviation none_above := (none_above seq tgt key_func).
#[local] Abbreviation all_above := (all_above seq tgt key_func).
#[local] Abbreviation boundary := (boundary seq tgt key_func).
#[local] Abbreviation round_step := (round_step seq tgt key_func).
#[local] Abbreviation v3_step := (v3_step seq tgt key_func).
#[local] Abbreviation v4_step := (v4_step seq tgt key_func sizeof_Retainer).

Lemma subscript_in_bounds i :
  0 <= i < size seq ->
  exists c, subscript seq i = ([i], Done c) /\ key_at i = Some (key_func c).
Proof.
  intros Hi. unfold subscript, key_at, size in *.
  destruct (Z.leb_spec 0 i); [|lia].
  destruct (Z.ltb_spec i (Z.of_nat (List.length seq))); [|lia]. simpl.
  destruct (nth_error seq (Z.to_nat i)) as [c|] eqn:E.
  - exists c. auto.
  - apply nth_error_None in E. lia.
Qed.

Lemma key_at_in_bounds i :
  0 <= i < size seq -> exists k, key_at i = Some k.
Proof.
  intros Hi. destruct (subscript_in_bounds i Hi) as (c & _ & E). eauto.
Qed.

Lemma none_above_extend l0 u0 l m k :
  sorted_on l0 u0 -> none_above l0 l -> l0 <= m < u0 ->
  key_at m = Some k -> time_lt tgt k = false ->
  none_above l0 (m + 1).
Proof.
  intros Hs Hb Hm Ek Hk i ki Hi Eki.
  rewrite time_gt_lt.
  destruct (Z.eq_dec i m) as [->|Hne]; [congruence|].
  assert (L : time_le ki k = true) by (apply (Hs i m); auto; lia).
  assert (L2 : time_le k tgt = true) by (rewrite time_le_lt, Hk; reflexivity).
  pose proof (time_le_trans _ _ _ L L2) as L3.
  rewrite time_le_lt in L3. destruct (time_lt tgt ki); [discriminate|reflexivity].
Qed.

Lemma all_above_extend l0 u0 u m k :
  sorted_on l0 u0 -> all_above u u0 -> l0 <= m < u0 ->
  key_at m = Some k -> time_lt tgt k = true ->
  all_above m u0.
Proof.
  intros Hs Ha Hm Ek Hk i ki Hi Eki.
  rewrite time_gt_lt.
  destruct (Z.eq_dec i m) as [->|Hne]; [congruence|].
  destruct (time_lt tgt ki) eqn:E; [reflexivity|exfalso].
  assert (L : time_le k ki = true) by (apply (Hs m i); auto; lia).
  assert (L2 : time_le ki tgt = true) by (rewrite time_le_lt, E; reflexivity).
  pose proof (time_le_trans _ _ _ L L2) as L3.
  rewrite time_le_lt, Hk in L3. discriminate.
Qed.

Lemma boundary_unique l u r r' :
  0 <= l -> u <= size seq ->
  boundary l u r -> boundary l u r' -> r = r'.
Proof.
  intros Hl Hu (Hr & Hb & Ha) (Hr' & Hb' & Ha').
  destruct (Z.lt_trichotomy r r') as [L|[E|L]]; [exfalso| assumption |exfalso].
  - destruct (key_at_in_bounds r) as (k & Ek); [lia|].
    pose proof (Hb' r k ltac:(lia) Ek). pose proof (Ha r k ltac:(lia) Ek). congruence.
  - destruct (key_at_in_bounds r') as (k & Ek); [lia|].
    pose proof (Hb r' k ltac:(lia) Ek). pose proof (Ha' r' k ltac:(lia) Ek). congruence.
Qed.

(** *** The invariant of every loop *)

Variables l0 u0 : Z.
Hypothesis l0_nonneg : 0 <= l0.
Hypothesis u0_size : u0 <= size seq.

#[local] Abbreviation narrowed := (narrowed seq tgt key_func l0 u0).

Lemma narrowed_init : narrowed l0 u0.
Proof.
  split; [lia|]. split; [lia|]. split; [right; auto|].
  intros _. split; intros i k Hi; lia.
Qed.

Lemma narrowed_boundary l u :
  narrowed l u -> u <= l -> l0 <= u0 -> sorted_on l0 u0 -> boundary l0 u0 l.
Proof.
  intros (Hl & Hu & Hlu & Hs) Hul Hne Hsorted.
  destruct (Hs Hsorted) as (Hb & Ha).
  assert (l = u) by lia. subst u. repeat split; auto; lia.
Qed.

Lemma narrowed_left l u m k :
  narrowed l u -> l <= m < u -> key_at m = Some k -> time_lt tgt k = true ->
  narrowed l m.
Proof.
  intros (Hl & Hu & Hlu & Hs) Hm Ek Hk.
  split; [lia|]. split; [lia|]. split; [lia|]. intros Hsorted.
  destruct (Hs Hsorted) as (Hb & Ha).
  split; [assumption|].
  apply (all_above_extend l0 u0 u m k); auto; lia.
Qed.

Lemma narrowed_right l u m k :
  narrowed l u -> l <= m < u -> key_at m = Some k -> time_lt tgt k = false ->
  narrowed (m + 1) u.
Proof.
  intros (Hl & Hu & Hlu & Hs) Hm Ek Hk.
  split; [lia|]. split; [lia|]. split; [lia|]. intros Hsorted.
  destruct (Hs Hsorted) as (Hb & Ha).
  split; [|assumption].
  apply (none_above_extend l0 u0 l m k); auto; lia.
Qed.

Lemma narrowed_between l u m1 m2 k1 k2 :
  narrowed l u -> l <= m1 -> m1 < m2 -> m2 < u ->
  key_at m1 = Some k1 -> time_lt tgt k1 = false ->
  key_at m2 = Some k2 -> time_lt tgt k2 = true ->
  narrowed (m1 + 1) m2.
Proof.
  intros N H1 H2 H3 E1 L1 E2 L2.
  assert (N1 : narrowed l m2) by (apply (narrowed_left l u m2 k2); auto; lia).
  apply (narrowed_right l m2 m1 k1); auto; lia.
Qed.

Lemma round_step_bind {R : Type} (k : Z -> Z -> probing R) l u :
  (lu <- round_step l u ;; k (fst lu) (snd lu))
  = (c <- subscript seq (l + (u - l) / 2) ;;
     if time_lt tgt (key_func c) then k l (l + (u - l) / 2)
     else k (l + (u - l) / 2 + 1) u).
Proof.
  unfold round_step. rewrite bind_bind_ret. apply bind_ext. intros c.
  destruct (time_lt tgt (key_func c)); reflexivity.
Qed.

Lemma original_loop_step fuel l u :
  0 <= l -> l < u -> l + u < 2 ^ 53 ->
  original_loop seq tgt key_func (S fuel) l u
  = (lu <- round_step l u ;;
     original_loop seq tgt key_func fuel (fst lu) (snd lu)).
Proof.
  intros Hl Hlu Hu.
  cbn [original_loop]. unfold midpoint_index.
  destruct (Z.ltb_spec l u) as [_|]; [|lia].
  rewrite midpoint_double by lia.
  pose proof (midpoint_bounds l u Hlu).
  change (2 ^ 53) with 9007199254740992 in Hu.
  rewrite add_small by (apply in_range_intro; lia).
  rewrite round_step_bind. reflexivity.
Qed.

Lemma v2_loop_step fuel l u :
  0 <= l -> l < u -> u <= Int64.max_signed ->
  v2_loop seq tgt key_func (S fuel) l u
  = (lu <- round_step l u ;; v2_loop seq tgt key_func fuel (fst lu) (snd lu)).
Proof.
  intros Hl Hlu Hu.
  assert (Hr : Int64.in_range u)
    by (unfold Int64.in_range, Int64.min_signed in *; lia).
  cbn [v2_loop].
  destruct (Z.ltb_spec l u) as [_|]; [|lia].
  rewrite midpoint_shift by (assumption || lia).
  pose proof (midpoint_bounds l u Hlu) as Hm.
  unfold round_step. rewrite bind_bind_ret. apply bind_ext. intros c.
  rewrite time_gt_lt, time_le_lt.
  destruct (branchless_update (negb (time_lt tgt (key_func c))) l
              (l + (u - l) / 2) u) as [E1 E2]; try lia; try assumption.
  rewrite negb_involutive in E2. rewrite E1, E2.
  destruct (time_lt tgt (key_func c)); reflexivity.
Qed.

Lemma v4_loop_step fuel l u :
  0 <= l -> l < u -> u <= Int64.max_signed ->
  v4_loop seq tgt key_func sizeof_Retainer (S fuel) l u
  = (lu <- v4_step l u ;;
     v4_loop seq tgt key_func sizeof_Retainer fuel (fst lu) (snd lu)).
Proof.
  intros Hl Hlu Hu.
  assert (Hr : Int64.in_range u)
    by (unfold Int64.in_range, Int64.min_signed in *; lia).
  cbn [v4_loop].
  destruct (Z.ltb_spec l u) as [_|]; [|lia].
  rewrite midpoint_shift by (assumption || lia).
  pose proof (midpoint_bounds l u Hlu) as Hm.
  unfold v4_step. rewrite bind_assoc. apply bind_ext. intros _.
  unfold round_step. rewrite bind_bind_ret. apply bind_ext. intros c.
  rewrite time_le_lt.
  destruct (branchless_update (negb (time_lt tgt (key_func c))) l
              (l + (u - l) / 2) u) as [E1 E2]; try lia; try assumption.
  rewrite E1, E2.
  destruct (time_lt tgt (key_func c)); reflexivity.
Qed.

Lemma v3_cond l u :
  0 <= l <= Int64.max_signed -> 0 <= u <= Int64.max_signed ->
  (4 <? Int64.sub u l) = (4 <? u - l).
Proof.
  intros. rewrite sub_small; [reflexivity|].
  apply in_range_intro. unfold Int64.max_signed in *. lia.
Qed.

Lemma quarter_bounds l u :
  4 < u - l ->
  l < l + (u - l) / 4 /\ l + (u - l) / 4 < l + (u - l) / 2 /\
  l + (u - l) / 2 < u - (u - l) / 4 /\ u - (u - l) / 4 < u.
Proof.
  intros.
  pose proof (Z.div_mod (u - l) 4 ltac:(lia)).
  pose proof (Z.mod_pos_bound (u - l) 4 ltac:(lia)).
  pose proof (Z.div_mod (u - l) 2 ltac:(lia)).
  pose proof (Z.mod_pos_bound (u - l) 2 ltac:(lia)).
  lia.
Qed.

Lemma v3_loop_step fuel l u :
  0 <= l -> 4 < u - l -> u <= Int64.max_signed ->
  v3_loop seq tgt key_func (S fuel) l u
  = (lu <- v3_step l u ;; v3_loop seq tgt key_func fuel (fst lu) (snd lu)).
Proof.
  intros Hl Hlu Hu. unfold Int64.max_signed in Hu.
  cbn [v3_loop].
  rewrite v3_cond by (unfold Int64.max_signed; lia).
  destruct (Z.ltb_spec 4 (u - l)) as [_|]; [|lia].
  pose proof (quarter_bounds l u Hlu) as Hq.
  rewrite sub_small by (apply in_range_intro; lia).
  rewrite shr_1, shr_2.
  rewrite sub_small by (apply in_range_intro; lia).
  rewrite !add_small by (apply in_range_intro; lia).
  unfold v3_step. rewrite bind_assoc. apply bind_ext. intros c1.
  rewrite bind_assoc. apply bind_ext. intros c2.
  rewrite bind_bind_ret. apply bind_ext. intros c3.
  destruct (time_lt tgt (key_func c1)); [reflexivity|].
  destruct (time_lt tgt (key_func c2)); [reflexivity|].
  destruct (time_lt tgt (key_func c3)); reflexivity.
Qed.

Lemma round_step_narrows l u :
  narrowed l u -> l < u ->
  exists tr l' u',
    round_step l u = (tr, Done (l', u')) /\
    Forall (fun i => l <= i < u) tr /\
    narrowed l' u' /\ l <= l' /\ u' <= u /\ u' - l' < u - l.
Proof.
  intros N Hlu. pose proof (midpoint_bounds l u Hlu) as Hm.
  assert (Hb : l0 <= l /\ u <= u0) by (destruct N as (? & ? & _); lia).
  destruct (subscript_in_bounds (l + (u - l) / 2)) as (c & E & Ek);
    [lia|].
  unfold round_step. rewrite E, bind_done. unfold ret. simpl fst. simpl snd.
  destruct (time_lt tgt (key_func c)) eqn:L.
  - exists [l + (u - l) / 2], l, (l + (u - l) / 2).
    split; [reflexivity|]. split; [repeat constructor; lia|].
    split; [|lia].
    eapply narrowed_left; eauto.
  - exists [l + (u - l) / 2], (l + (u - l) / 2 + 1), u.
    split; [reflexivity|]. split; [repeat constructor; lia|].
    split; [|lia].
    eapply narrowed_right; eauto.
Qed.

Lemma prefetch_in_bounds l u :
  0 <= l -> l < u -> u <= size seq -> u <= Int64.max_signed ->
  exists tr,
    prefetch seq sizeof_Retainer l (l + (u - l) / 2) u = (tr, Done tt) /\
    Forall (fun i => l <= i < u) tr.
Proof.
  intros Hl Hlu Hs Hu. unfold Int64.max_signed in Hu.
  pose proof (midpoint_bounds l u Hlu) as Hm.
  unfold prefetch.
  destruct (ELEMENTS_PER_CACHE_LINE sizeof_Retainer <? _).
  2:{ exists []. split; [reflexivity|constructor]. }
  set (mid := l + (u - l) / 2) in *.
  rewrite (sub_small mid l), (sub_small u mid) by (apply in_range_intro; lia).
  unfold Int64.div.
  rewrite !Z.quot_div_nonneg by lia.
  assert (0 <= (mid - l) / 2 <= mid - l).
  { split; [apply Z.div_pos; lia | apply Z.div_le_upper_bound; lia]. }
  assert (0 <= (u - mid) / 2 < u - mid).
  { split; [apply Z.div_pos; lia | apply Z.div_lt_upper_bound; lia]. }
  rewrite !wrap_small by (apply in_range_intro; lia).
  rewrite sub_small, add_small by (apply in_range_intro; lia).
  destruct (subscript_in_bounds (mid - (mid - l) / 2))
    as (c1 & E1 & _); [lia|].
  destruct (subscript_in_bounds (mid + (u - mid) / 2))
    as (c2 & E2 & _); [lia|].
  rewrite E1, bind_done, E2, bind_done. simpl.
  eexists. split; [reflexivity|]. repeat constructor; lia.
Qed.

Lemma v4_step_narrows l u :
  u0 <= Int64.max_signed ->
  narrowed l u -> l < u ->
  exists tr l' u',
    v4_step l u = (tr, Done (l', u')) /\
    Forall (fun i => l <= i < u) tr /\
    narrowed l' u' /\ l <= l' /\ u' <= u /\ u' - l' < u - l.
Proof.
  intros Hmax N Hlu.
  assert (Hb : l0 <= l /\ u <= u0) by (destruct N as (? & ? & _); lia).
  destruct (prefetch_in_bounds l u) as (tr1 & E1 & F1); try lia.
  destruct (round_step_narrows l u N Hlu) as (tr & l' & u' & E & F & R).
  exists (tr1 ++ tr), l', u'. unfold v4_step. rewrite E1, bind_done, E.
  split; [reflexivity|]. split; [apply Forall_app; auto | exact R].
Qed.

Lemma v3_step_narrows l u :
  narrowed l u -> 4 < u - l ->
  exists tr l' u',
    v3_step l u = (tr, Done (l', u')) /\
    Forall (fun i => l <= i < u) tr /\
    narrowed l' u' /\ l <= l' /\ u' <= u /\ u' - l' < u - l.
Proof.
  intros N Hlu. pose proof (quarter_bounds l u Hlu) as Hq.
  assert (Hb : l0 <= l /\ u <= u0) by (destruct N as (? & ? & _); lia).
  unfold v3_step.
  set (mid1 := l + (u - l) / 4) in *.
  set (mid2 := l + (u - l) / 2) in *.
  set (mid3 := u - (u - l) / 4) in *.
  destruct (subscript_in_bounds mid1) as (c1 & E1 & K1); [lia|].
  destruct (subscript_in_bounds mid2) as (c2 & E2 & K2); [lia|].
  destruct (subscript_in_bounds mid3) as (c3 & E3 & K3); [lia|].
  rewrite E1, bind_done, E2, bind_done, E3, bind_done. unfold ret.
  simpl fst. simpl snd.
  assert (F : Forall (fun i => l <= i < u) ([mid1] ++ [mid2] ++ [mid3] ++ []))
    by (repeat constructor; lia).
  destruct (time_lt tgt (key_func c1)) eqn:L1;
    [|destruct (time_lt tgt (key_func c2)) eqn:L2;
      [|destruct (time_lt tgt (key_func c3)) eqn:L3]].
  - exists ([mid1] ++ [mid2] ++ [mid3] ++ []), l, mid1.
    split; [reflexivity|]. split; [exact F|]. split; [|lia].
    eapply narrowed_left; eauto. lia.
  - exists ([mid1] ++ [mid2] ++ [mid3] ++ []), (mid1 + 1), mid2.
    split; [reflexivity|]. split; [exact F|]. split; [|lia].
    eapply (narrowed_between l u); eauto; lia.
  - exists ([mid1] ++ [mid2] ++ [mid3] ++ []), (mid2 + 1), mid3.
    split; [reflexivity|]. split; [exact F|]. split; [|lia].
    eapply (narrowed_between l u); eauto; lia.
  - exists ([mid1] ++ [mid2] ++ [mid3] ++ []), (mid3 + 1), u.
    split; [reflexivity|]. split; [exact F|]. split; [|lia].
    eapply narrowed_right; eauto. lia.
Qed.

End BisectFacts.

(** ** The loops run to completion *)

Section LoopResults.

Context {Composable time : Type} {ops : TimeOps time} {ord : TimeOrder time}.
Variable seq : list Composable.
Variable tgt : time.
Variable key_func : Composable -> time.
Variable sizeof_Retainer : Z.
Variables l0 u0 : Z.
Hypothesis l0_nonneg : 0 <= l0.
Hypothesis l0_range : l0 <= Int64.max_signed.
Hypothesis u0_size : u0 <= size seq.
Hypothesis u0_range : Int64.in_range u0.

#[local] Abbreviation narrowed := (narrowed seq tgt key_func l0 u0).

Lemma narrowed_range l u :
  narrowed l u -> 0 <= l <= Int64.max_signed /\ Int64.in_range u.
Proof.
  intros (Hl & Hu & Hlu & _).
  unfold Int64.in_range, Int64.max_signed, Int64.min_signed in *. lia.
Qed.

Lemma original_loop_narrowed fuel l u :
  u0 <= two52 -> narrowed l u -> (Z.to_nat (u - l) <= fuel)%nat ->
  exists tr r u',
    original_loop seq tgt key_func fuel l u = (tr, Done r) /\
    Forall (fun i => l <= i < u) tr /\ narrowed r u' /\ u' <= r.
Proof.
  intros H52 N Hfuel.
  destruct (narrowing_loop_done Z (original_loop seq tgt key_func)
              (round_step seq tgt key_func) Z.ltb (fun l _ => l) narrowed)
    with (fuel := fuel) (l := l) (u := u)
    as (tr & r & u' & E & F & N' & C); auto.
  - intros a b _ L. apply Z.ltb_lt. exact L.
  - intros f a b L. destruct f; cbn [original_loop]; rewrite L; reflexivity.
  - intros f a b Na L. apply Z.ltb_lt in L.
    destruct Na as (? & ? & _). unfold two52 in H52.
    apply original_loop_step; lia.
  - intros a b Na L. apply Z.ltb_lt in L.
    apply round_step_narrows; auto.
  - exists tr, r, u'. apply Z.ltb_ge in C. auto.
Qed.

Lemma v2_loop_narrowed fuel l u :
  narrowed l u -> (Z.to_nat (u - l) <= fuel)%nat ->
  exists tr r u',
    v2_loop seq tgt key_func fuel l u = (tr, Done r) /\
    Forall (fun i => l <= i < u) tr /\ narrowed r u' /\ u' <= r.
Proof.
  intros N Hfuel.
  destruct (narrowing_loop_done Z (v2_loop seq tgt key_func)
              (round_step seq tgt key_func) Z.ltb (fun l _ => l) narrowed)
    with (fuel := fuel) (l := l) (u := u)
    as (tr & r & u' & E & F & N' & C); auto.
  - intros a b _ L. apply Z.ltb_lt. exact L.
  - intros f a b L. destruct f; cbn [v2_loop]; rewrite L; reflexivity.
  - intros f a b Na L. apply Z.ltb_lt in L.
    destruct (narrowed_range a b Na) as (? & ? & ?).
    apply v2_loop_step; lia.
  - intros a b Na L. apply Z.ltb_lt in L.
    apply round_step_narrows; auto.
  - exists tr, r, u'. apply Z.ltb_ge in C. auto.
Qed.

Lemma v4_loop_narrowed fuel l u :
  narrowed l u -> (Z.to_nat (u - l) <= fuel)%nat ->
  exists tr r u',
    v4_loop seq tgt key_func sizeof_Retainer fuel l u = (tr, Done r) /\
    Forall (fun i => l <= i < u) tr /\ narrowed r u' /\ u' <= r.
Proof.
  intros N Hfuel.
  destruct (narrowing_loop_done Z (v4_loop seq tgt key_func sizeof_Retainer)
              (v4_step seq tgt key_func sizeof_Retainer) Z.ltb
              (fun l _ => l) narrowed)
    with (fuel := fuel) (l := l) (u := u)
    as (tr & r & u' & E & F & N' & C); auto.
  - intros a b _ L. apply Z.ltb_lt. exact L.
  - intros f a b L. destruct f; cbn [v4_loop]; rewrite L; reflexivity.
  - intros f a b Na L. apply Z.ltb_lt in L.
    destruct (narrowed_range a b Na) as (? & ? & ?).
    apply v4_loop_step; lia.
  - intros a b Na L. apply Z.ltb_lt in L.
    apply v4_step_narrows; auto. apply u0_range.
  - exists tr, r, u'. apply Z.ltb_ge in C. auto.
Qed.

Lemma v3_loop_narrowed fuel l u :
  Int64.in_range (u0 - l0) ->
  narrowed l u -> (Z.to_nat (u - l) <= fuel)%nat ->
  exists tr l' u',
    v3_loop seq tgt key_func fuel l u = (tr, Done (l', u')) /\
    Forall (fun i => l <= i < u) tr /\ narrowed l' u' /\
    l <= l' /\ u' <= u.
Proof.
  intros Hsub N Hfuel.
  assert (G : forall a b, narrowed a b ->
                (4 <? Int64.sub b a) = (4 <? b - a)).
  { intros a b Na. destruct (narrowed_range a b Na) as (? & Hb).
    rewrite sub_small; [reflexivity|].
    destruct Na as (? & ? & ? & _).
    unfold Int64.in_range, Int64.max_signed, Int64.min_signed in *. lia. }
  destruct (narrowing_loop_done (Z * Z) (v3_loop seq tgt key_func)
              (v3_step seq tgt key_func) (fun a b => 4 <? Int64.sub b a)
              pair (fun a b => narrowed a b /\ l <= a /\ b <= u))
    with (fuel := fuel) (l := l) (u := u)
    as (tr & r & u' & E & F & (N' & Hl & Hu) & C); auto.
  - intros a b (Na & _) L. rewrite G in L by assumption.
    apply Z.ltb_lt in L. lia.
  - intros f a b L. destruct f; cbn [v3_loop]; rewrite L; reflexivity.
  - intros f a b (Na & _) L. rewrite G in L by assumption.
    apply Z.ltb_lt in L.
    destruct (narrowed_range a b Na) as (? & Hb).
    apply v3_loop_step; unfold Int64.in_range in Hb; lia.
  - intros a b (Na & Ha & Hb) L. rewrite G in L by assumption.
    apply Z.ltb_lt in L.
    destruct (v3_step_narrows seq tgt key_func l0 u0 l0_nonneg u0_size a b Na L)
      as (t & a' & b' & E & F & N' & R1 & R2 & R3).
    exists t, a', b'.
    split; [exact E|]. split; [exact F|].
    split; [split; [exact N'|lia]|]. lia.
  - split; [exact N|lia].
  - exists tr, r, u'. auto.
Qed.


(** What the final bounds of a finished loop say about the index. *)
Lemma narrowed_result r u' :
  narrowed r u' -> u' <= r ->
  (u0 < l0 -> r = l0) /\
  (l0 <= u0 -> l0 <= r <= u0 /\
     (sorted_on seq key_func l0 u0 -> boundary seq tgt key_func l0 u0 r)).
Proof.
  intros N Hr. split.
  - destruct N as (? & ? & ? & _). lia.
  - intros Hne. split; [destruct N as (? & ? & ? & _); lia|].
    intros Hs. eapply narrowed_boundary; eauto.
Qed.

End LoopResults.

Section LoopEquality.

Context {Composable time : Type} {ops : TimeOps time} {ord : TimeOrder time}.
Variable seq : list Composable.
Variable tgt : time.
Variable key_func : Composable -> time.
Variable sizeof_Retainer : Z.

(** The branch-free loop retraces the reference loop probe by probe,
    whatever the keys. *)
Lemma v2_loop_original fuel : forall l u,
  0 <= l -> u <= two52 ->
  v2_loop seq tgt key_func fuel l u = original_loop seq tgt key_func fuel l u.
Proof.
  unfold two52.
  induction fuel as [|fuel IH]; intros l u Hl Hu.
  - reflexivity.
  - destruct (Z.ltb_spec l u) as [Hlu|Hlu].
    + rewrite v2_loop_step, original_loop_step
        by (unfold Int64.max_signed; lia).
      rewrite !round_step_bind. apply bind_ext. intros c.
      pose proof (midpoint_bounds l u Hlu).
      destruct (time_lt tgt (key_func c)); apply IH; lia.
    + cbn [v2_loop original_loop].
      destruct (Z.ltb_spec l u); [lia | reflexivity].
Qed.

(** So does the prefetching loop, as long as its hints stay inside the
    sequence. *)
Lemma v4_loop_original fuel : forall l u,
  0 <= l -> u <= size seq -> u <= two52 ->
  snd (v4_loop seq tgt key_func sizeof_Retainer fuel l u)
  = snd (original_loop seq tgt key_func fuel l u).
Proof.
  unfold two52.
  induction fuel as [|fuel IH]; intros l u Hl Hs Hu.
  - reflexivity.
  - destruct (Z.ltb_spec l u) as [Hlu|Hlu].
    + rewrite v4_loop_step, original_loop_step
        by (unfold Int64.max_signed; lia).
      destruct (prefetch_in_bounds seq key_func sizeof_Retainer l u) as (tr & E & _);
        try (unfold Int64.max_signed; lia).
      unfold v4_step. rewrite E, bind_assoc, bind_done. simpl snd.
      rewrite !round_step_bind. apply snd_bind_ext. intros c.
      pose proof (midpoint_bounds l u Hlu).
      destruct (time_lt tgt (key_func c)); apply IH; lia.
    + cbn [v4_loop original_loop].
      destruct (Z.ltb_spec l u); [lia | reflexivity].
Qed.

End LoopEquality.


(** ** Counting *)

Lemma filter_all {A} (f : A -> bool) (l : list A) :
  (forall x, In x l -> f x = true) -> filter f l = l.
Proof.
  induction l as [|a l IH]; intros Hf; simpl; [reflexivity|].
  rewrite (Hf a) by (left; reflexivity).
  rewrite IH; [reflexivity|]. intros x Hx. apply Hf. right. exact Hx.
Qed.

Lemma filter_none {A} (f : A -> bool) (l : list A) :
  (forall x, In x l -> f x = false) -> filter f l = [].
Proof.
  induction l as [|a l IH]; intros Hf; simpl; [reflexivity|].
  rewrite (Hf a) by (left; reflexivity).
  apply IH. intros x Hx. apply Hf. right. exact Hx.
Qed.

Section Counting.

Context {Composable time : Type} {ops : TimeOps time} {ord : TimeOrder time}.
Variable seq : list Composable.
Variable tgt : time.
Variable key_func : Composable -> time.

Lemma key_at_nth (n : nat) (c : Composable) :
  nth_error seq n = Some c ->
  key_at seq key_func (Z.of_nat n) = Some (key_func c).
Proof.
  intros E. unfold key_at.
  destruct (Z.leb_spec 0 (Z.of_nat n)); [|lia].
  rewrite Nat2Z.id, E. reflexivity.
Qed.

(** Over the whole sequence the boundary index is the number of elements
    whose key is at most [tgt]. *)
Lemma boundary_count r :
  boundary seq tgt key_func 0 (size seq) r -> r = count_le seq tgt key_func.
Proof.
  intros (Hr & Hb & Ha). unfold count_le, size in *.
  set (n := Z.to_nat r).
  rewrite <- (firstn_skipn n seq), filter_app, length_app.
  rewrite filter_all, filter_none.
  - simpl. rewrite firstn_length_le by lia. lia.
  - intros x Hx. apply In_nth_error in Hx. destruct Hx as (i & Hi).
    rewrite nth_error_skipn in Hi.
    assert (Hlt : (n + i < List.length seq)%nat)
      by (apply nth_error_Some; congruence).
    pose proof (Ha (Z.of_nat (n + i)) (key_func x) ltac:(lia)
                  (key_at_nth _ _ Hi)) as G.
    rewrite time_le_lt. rewrite time_gt_lt in G. rewrite G. reflexivity.
  - intros x Hx. apply In_nth_error in Hx. destruct Hx as (i & Hi).
    rewrite nth_error_firstn in Hi.
    destruct (Nat.ltb_spec i n) as [Hlt|]; [|discriminate].
    pose proof (Hb (Z.of_nat i) (key_func x) ltac:(lia)
                  (key_at_nth _ _ Hi)) as G.
    rewrite time_le_lt. rewrite time_gt_lt in G. rewrite G. reflexivity.
Qed.

End Counting.

(** ** The four functions *)

Section Runs.

Context {Composable time : Type} {ops : TimeOps time} {ord : TimeOrder time}.
Variable seq : list Composable.
Variable tgt : time.
Variable key_func : Composable -> time.
Variable sizeof_Retainer : Z.
Variable fuel : nat.
Variable error_status : handle.
Variable l : Z.
Variable upper_search_bound : option Z.

#[local] Abbreviation u := (upper_bound seq upper_search_bound).

#[local] Abbreviation completed :=
  (completed seq tgt key_func error_status l u).

Lemma with_bounds_search (search : Z -> Z -> probing Z) :
  0 <= l ->
  with_bounds seq error_status (Some l) upper_search_bound search
  = mkRun (fst (search l u)) error_status (snd (search l u)).
Proof.
  intros Hl. unfold with_bounds. destruct (Z.ltb_spec l 0); [lia | reflexivity].
Qed.

Hypothesis l_nonneg : 0 <= l.
Hypothesis l_range : Int64.in_range l.
Hypothesis u_range : Int64.in_range u.
Hypothesis u_size : u <= size seq.
Hypothesis enough_fuel : (Z.to_nat (u - l) <= fuel)%nat.


Lemma l_max : l <= Int64.max_signed.
Proof. apply l_range. Qed.

Lemma completed_intro tr i u' :
  Forall (fun p => l <= p < u) tr ->
  narrowed seq tgt key_func l u i u' -> u' <= i ->
  completed (mkRun tr error_status (Done i)).
Proof.
  intros F N Hi. exists i. simpl.
  destruct (narrowed_result seq tgt key_func l u i u' N Hi) as (R1 & R2).
  split; [reflexivity|]. split; [reflexivity|]. split; [exact F|].
  split; [exact R1 | exact R2].
Qed.

Lemma bisect_right_original_completed :
  size seq <= two52 ->
  completed (bisect_right_original seq tgt key_func fuel error_status
               (Some l) upper_search_bound).
Proof.
  intros H52. unfold bisect_right_original. rewrite with_bounds_search by assumption.
  destruct (original_loop_narrowed seq tgt key_func l u l_nonneg u_size
              fuel l u) as (tr & r & u' & E & F & N & Hr);
    try lia; [apply narrowed_init|].
  rewrite E. simpl. eapply completed_intro; eauto.
Qed.

Lemma bisect_right_optimized_v2_completed :
  completed (bisect_right_optimized_v2 seq tgt key_func fuel error_status
               (Some l) upper_search_bound).
Proof.
  unfold bisect_right_optimized_v2. rewrite with_bounds_search by assumption.
  destruct (v2_loop_narrowed seq tgt key_func l u l_nonneg l_max u_size
              u_range fuel l u) as (tr & r & u' & E & F & N & Hr);
    try lia; [apply narrowed_init|].
  rewrite E. simpl. eapply completed_intro; eauto.
Qed.

Lemma bisect_right_optimized_v4_completed :
  completed (bisect_right_optimized_v4 seq tgt key_func sizeof_Retainer fuel
               error_status (Some l) upper_search_bound).
Proof.
  unfold bisect_right_optimized_v4. rewrite with_bounds_search by assumption.
  destruct (v4_loop_narrowed seq tgt key_func sizeof_Retainer l u l_nonneg
              l_max u_size u_range fuel l u)
    as (tr & r & u' & E & F & N & Hr);
    try lia; [apply narrowed_init|].
  rewrite E. simpl. eapply completed_intro; eauto.
Qed.

Lemma bisect_right_optimized_v3_completed :
  Int64.in_range (u - l) ->
  completed (bisect_right_optimized_v3 seq tgt key_func fuel error_status
               (Some l) upper_search_bound).
Proof.
  intros Hsub. unfold bisect_right_optimized_v3. rewrite with_bounds_search by assumption.
  destruct (v3_loop_narrowed seq tgt key_func l u l_nonneg l_max u_size
              u_range fuel l u Hsub)
    as (tr1 & l' & u1 & E1 & F1 & N1 & Hl' & Hu1);
    try lia; [apply narrowed_init|].
  destruct (v2_loop_narrowed seq tgt key_func l u l_nonneg l_max u_size
              u_range fuel l' u1)
    as (tr2 & r & u' & E2 & F2 & N2 & Hr); try lia; [exact N1|].
  rewrite E1, bind_done. simpl fst. simpl snd. rewrite E2. simpl.
  eapply completed_intro; eauto.
  apply Forall_app. split; [exact F1|].
  eapply Forall_impl; [|exact F2]. simpl. intros; lia.
Qed.

End Runs.

(** ** Sorted sequences and a loop that cannot leave *)

Section MoreFacts.

Context {Composable time : Type} {ops : TimeOps time} {ord : TimeOrder time}.
Variable seq : list Composable.
Variable tgt : time.
Variable key_func : Composable -> time.

Lemma sortedb_nth (keys : list time) :
  sortedb keys = true ->
  forall n m kn km, (n < m)%nat ->
    nth_error keys n = Some kn -> nth_error keys m = Some km ->
    time_le kn km = true.
Proof.
  induction keys as [|k rest IH]; intros Hs n m kn km Hnm En Em.
  - destruct n; discriminate.
  - simpl in Hs. apply andb_true_iff in Hs. destruct Hs as (Hk & Hrest).
    destruct m as [|m]; [lia|]. simpl in Em.
    destruct n as [|n].
    + simpl in En. injection En as <-.
      rewrite forallb_forall in Hk. apply Hk.
      eapply nth_error_In; eauto.
    + simpl in En. apply (IH Hrest n m); auto. lia.
Qed.

Lemma key_at_nth_map i k :
  key_at seq key_func i = Some k ->
  0 <= i /\ nth_error (map key_func seq) (Z.to_nat i) = Some k.
Proof.
  unfold key_at. destruct (Z.leb_spec 0 i); [|discriminate].
  intros E. split; [assumption|]. rewrite nth_error_map. exact E.
Qed.

(** The check passes only on sorted sequences. *)
Lemma sortedb_sorted_on l u :
  sortedb (map key_func seq) = true -> sorted_on seq key_func l u.
Proof.
  intros Hs i j ki kj Hl Hij Hu Ei Ej.
  apply key_at_nth_map in Ei, Ej. destruct Ei as (Hi & Ei), Ej as (Hj & Ej).
  eapply (sortedb_nth _ Hs (Z.to_nat i) (Z.to_nat j)); eauto. lia.
Qed.

(** Once the midpoint is the upper bound itself and the key there is above
    [tgt], the reference loop repeats the same round for ever. *)
Lemma original_loop_stuck l u c :
  l < u -> midpoint_index l u = u ->
  subscript seq u = ([u], Done c) ->
  time_lt tgt (key_func c) = true ->
  forall fuel, snd (original_loop seq tgt key_func fuel l u) = OutOfFuel.
Proof.
  intros Hlu Hmid Hsub Hlt fuel.
  induction fuel as [|fuel IH]; cbn [original_loop];
    destruct (Z.ltb_spec l u); try lia; [reflexivity|].
  rewrite Hmid, Hsub, bind_done, Hlt. simpl. exact IH.
Qed.

End MoreFacts.

Lemma subscript_repeat {A} (c : A) (n : nat) (i : Z) :
  0 <= i < Z.of_nat n -> subscript (repeat c n) i = ([i], Done c).
Proof.
  intros Hi. unfold subscript, size. rewrite repeat_length.
  destruct (Z.leb_spec 0 i); [|lia].
  destruct (Z.ltb_spec i (Z.of_nat n)); [|lia]. simpl.
  rewrite nth_error_repeat by lia. reflexivity.
Qed.

Lemma key_at_repeat {A time} (key_func : A -> time) (c : A) (n : nat) i k :
  key_at (repeat c n) key_func i = Some k -> k = key_func c.
Proof.
  unfold key_at. destruct (0 <=? i); [|discriminate].
  destruct (nth_error (repeat c n) (Z.to_nat i)) as [x|] eqn:E; [|discriminate].
  apply nth_error_In, repeat_spec in E. subst x. simpl. congruence.
Qed.

Lemma repeat_sorted {A time} {ops : TimeOps time} (key_func : A -> time)
    (c : A) (n : nat) l u :
  time_le (key_func c) (key_func c) = true ->
  sorted_on (repeat c n) key_func l u.
Proof.
  intros Hc i j ki kj _ _ _ Ei Ej.
  apply key_at_repeat in Ei, Ej. subst. exact Hc.
Qed.

Lemma long_seq_size : size long_seq = 9007199254740995.
Proof.
  unfold size. rewrite repeat_length. apply Z2Nat.id. lia.
Qed.

Lemma long_seq_stuck fuel :
  snd (original_loop long_seq 0 id_key fuel
         9007199254740993 9007199254740994) = OutOfFuel.
Proof.
  apply original_loop_stuck with (c := 1).
  - reflexivity.
  - vm_compute. reflexivity.
  - apply subscript_repeat. rewrite Z2Nat.id by lia. lia.
  - reflexivity.
Qed.

Lemma long_seq_original fuel error_status :
  returned (bisect_right_original long_seq 0 id_key fuel error_status
              (Some 9007199254740993) (Some 9007199254740994)) = OutOfFuel.
Proof.
  unfold bisect_right_original. rewrite with_bounds_search by lia.
  cbn [returned upper_bound]. apply long_seq_stuck.
Qed.

Lemma upper_bound_default {A} (seq : list A) :
  size seq <= two52 -> upper_bound seq None = size seq.
Proof.
  intros H. unfold upper_bound, size, two52 in *.
  apply wrap_small, in_range_intro. lia.
Qed.

(** ** The claims about the bisections *)

(** C2 (amended).  For a sequence of at most [2^52] elements whose keys
    over [[lower, upper)] are non-decreasing, and bounds with
    [0 <= lower <= upper <= length], [bisect_right_original] returns the
    smallest index [r] of [[lower, upper]] such that every element of the
    sub-range at an index [>= r] has a key greater than [tgt]; with the
    default bounds that index is the number of elements whose key is at
    most [tgt]. *)
Theorem bisect_right_original_boundary
    {Composable time : Type} {ops : TimeOps time} {ord : TimeOrder time}
    (seq : list Composable) (tgt : time) (key_func : Composable -> time)
    (fuel : nat) (error_status : handle) (l : Z)
    (upper_search_bound : option Z) :
  let u := upper_bound seq upper_search_bound in
  0 <= l -> l <= u -> u <= size seq -> size seq <= two52 ->
  sorted_on seq key_func l u ->
  (Z.to_nat (u - l) <= fuel)%nat ->
  exists r,
    returned (bisect_right_original seq tgt key_func fuel error_status
                (Some l) upper_search_bound) = Done r /\
    l <= r <= u /\
    all_above seq tgt key_func r u /\
    (forall i, l <= i <= u -> all_above seq tgt key_func i u -> r <= i) /\
    (l = 0 -> upper_search_bound = None -> r = count_le seq tgt key_func).
Proof.
  intros u Hl Hlu Hu H52 Hs Hfuel.
  destruct (bisect_right_original_completed seq tgt key_func fuel
              error_status l upper_search_bound Hl Hu Hfuel H52)
    as (r & E & _ & _ & _ & B).
  destruct (B Hlu) as (Hrange & Hb). specialize (Hb Hs).
  destruct Hb as (_ & Hnone & Hall).
  exists r. split; [exact E|]. split; [exact Hrange|].
  split; [exact Hall|]. split.
  - intros i Hi Hi_all. destruct (Z_lt_le_dec i r) as [Hlt|]; [exfalso|lia].
    destruct (key_at_in_bounds seq key_func i) as (k & Ek); [lia|].
    pose proof (Hnone i k ltac:(lia) Ek).
    pose proof (Hi_all i k ltac:(lia) Ek). congruence.
  - intros -> ->. apply boundary_count.
    pose proof (upper_bound_default seq H52) as Eu.
    unfold u in *. rewrite Eu in *.
    split; [lia|]. split; assumption.
Qed.

(** C1 (amended).  On a sequence of at most [2^52] elements and with an
    upper bound within the sequence, [bisect_right_optimized_v2] and
    [bisect_right_optimized_v4] return the index [bisect_right_original]
    returns, whatever the keys; [bisect_right_optimized_v3] does when in
    addition [upper - lower] fits [int64_t] and the keys over
    [[lower, upper)] are non-decreasing. *)
Theorem optimized_variants_agree
    {Composable time : Type} {ops : TimeOps time} {ord : TimeOrder time}
    (seq : list Composable) (tgt : time) (key_func : Composable -> time)
    (sizeof_Retainer : Z) (fuel : nat) (error_status : handle) (l : Z)
    (upper_search_bound : option Z) :
  let u := upper_bound seq upper_search_bound in
  let reference :=
    bisect_right_original seq tgt key_func fuel error_status
      (Some l) upper_search_bound in
  u <= size seq -> size seq <= two52 ->
  returned (bisect_right_optimized_v2 seq tgt key_func fuel error_status
              (Some l) upper_search_bound) = returned reference /\
  returned (bisect_right_optimized_v4 seq tgt key_func sizeof_Retainer fuel
              error_status (Some l) upper_search_bound) = returned reference /\
  (Int64.in_range l -> Int64.in_range u -> Int64.in_range (u - l) ->
   sorted_on seq key_func l u -> (Z.to_nat (u - l) <= fuel)%nat ->
   returned (bisect_right_optimized_v3 seq tgt key_func fuel error_status
               (Some l) upper_search_bound) = returned reference).
Proof.
  intros u reference Hu H52. subst reference.
  destruct (Z_lt_le_dec l 0) as [Hneg|Hl].
  - unfold bisect_right_optimized_v2, bisect_right_optimized_v3,
      bisect_right_optimized_v4, bisect_right_original, with_bounds.
    destruct (Z.ltb_spec l 0); [|lia]. repeat split; reflexivity.
  - split; [|split].
    + unfold bisect_right_optimized_v2, bisect_right_original.
      rewrite !with_bounds_search by assumption. simpl.
      fold u. rewrite v2_loop_original by lia. reflexivity.
    + unfold bisect_right_optimized_v4, bisect_right_original.
      rewrite !with_bounds_search by assumption. simpl.
      fold u. apply v4_loop_original; lia.
    + intros Rl Ru Rsub Hs Hfuel.
      destruct (bisect_right_optimized_v3_completed seq tgt key_func fuel
                  error_status l upper_search_bound Hl Rl Ru Hu Hfuel Rsub)
        as (i & Ei & _ & _ & Ii & Bi).
      destruct (bisect_right_original_completed seq tgt key_func fuel
                  error_status l upper_search_bound Hl Hu Hfuel H52)
        as (j & Ej & _ & _ & Ij & Bj).
      rewrite Ei, Ej. f_equal.
      destruct (Z_lt_le_dec u l) as [Hul|Hlu].
      * rewrite Ii, Ij by assumption. reflexivity.
      * destruct (Bi Hlu) as (_ & Bi'), (Bj Hlu) as (_ & Bj').
        eapply boundary_unique; eauto.
Qed.

(** C4.  With a negative lower bound every bisection returns [0]; a
    supplied handle then holds the kind [INTERNAL_ERROR] (the kind the code
    gives to this invalid argument) and the message, an absent handle stays
    absent.  With a lower bound that is not negative the handle is left as
    it was. *)
Theorem negative_lower_bound_reported
    {Composable time : Type} {ops : TimeOps time}
    (seq : list Composable) (tgt : time) (key_func : Composable -> time)
    (sizeof_Retainer : Z) (fuel : nat) (error_status : handle) (l : Z)
    (upper_search_bound : option Z) :
  let reported :=
    match error_status with
    | Some _ =>
        Some (mkErrorStatus INTERNAL_ERROR
                "lower_search_bound must be non-negative")
    | None => None
    end in
  let runs :=
    [ bisect_right_original seq tgt key_func fuel error_status
        (Some l) upper_search_bound;
      bisect_right_optimized_v2 seq tgt key_func fuel error_status
        (Some l) upper_search_bound;
      bisect_right_optimized_v3 seq tgt key_func fuel error_status
        (Some l) upper_search_bound;
      bisect_right_optimized_v4 seq tgt key_func sizeof_Retainer fuel
        error_status (Some l) upper_search_bound ] in
  (l < 0 ->
   Forall (fun r => returned r = Done 0 /\ status r = reported) runs) /\
  (0 <= l -> Forall (fun r => status r = error_status) runs).
Proof.
  intros reported runs. subst runs reported.
  unfold bisect_right_original, bisect_right_optimized_v2,
    bisect_right_optimized_v3, bisect_right_optimized_v4, with_bounds.
  split; intros Hl; destruct (Z.ltb_spec l 0); try lia;
    repeat constructor; destruct error_status; reflexivity.
Qed.

(** C8 (amended).  For bounds with [0 <= lower <= upper] and
    [lower + upper < 2^53] the midpoint of the reference loop is
    [lower + (upper - lower) / 2] with floor division, and a round of the
    loop compares [tgt] with the key at that index by the order of the time
    type alone: it keeps the lower half when [tgt] is less than that key
    and the upper half otherwise. *)
Theorem original_loop_round
    {Composable time : Type} {ops : TimeOps time} {ord : TimeOrder time}
    (seq : list Composable) (tgt : time) (key_func : Composable -> time)
    (fuel : nat) (l u : Z) :
  0 <= l -> l <= u -> l + u < 2 ^ 53 ->
  let mid := l + (u - l) / 2 in
  midpoint_index l u = mid /\
  (l < u ->
   original_loop seq tgt key_func (S fuel) l u
   = (c <- subscript seq mid ;;
      if time_lt tgt (key_func c)
      then original_loop seq tgt key_func fuel l mid
      else original_loop seq tgt key_func fuel (mid + 1) u)).
Proof.
  intros Hl Hlu Hs mid. split.
  - unfold midpoint_index. apply midpoint_double; assumption.
  - intros Hlt. rewrite original_loop_step by assumption.
    apply round_step_bind.
Qed.

(** C10 (amended).  Every bisection reads [*lower_search_bound] before
    anything checks that it holds a value, so a call without a lower bound
    is undefined.  With a lower bound [l >= 0] and an upper bound [u] within
    the sequence, both of them [int64_t] values, the variants v2 and v4
    return, and every index they subscript lies in [[l, u)]; so does v3
    when [u - l] fits [int64_t], and so does the reference when the
    sequence has at most [2^52] elements. *)
Theorem bisections_safe
    {Composable time : Type} {ops : TimeOps time} {ord : TimeOrder time}
    (seq : list Composable) (tgt : time) (key_func : Composable -> time)
    (sizeof_Retainer : Z) (fuel : nat) (error_status : handle)
    (upper_search_bound : option Z) :
  (returned (bisect_right_original seq tgt key_func fuel error_status
               None upper_search_bound) = UB /\
   returned (bisect_right_optimized_v2 seq tgt key_func fuel error_status
               None upper_search_bound) = UB /\
   returned (bisect_right_optimized_v3 seq tgt key_func fuel error_status
               None upper_search_bound) = UB /\
   returned (bisect_right_optimized_v4 seq tgt key_func sizeof_Retainer fuel
               error_status None upper_search_bound) = UB) /\
  (forall l,
     let u := upper_bound seq upper_search_bound in
     let safe (r : run) :=
       (exists i, returned r = Done i) /\
       Forall (fun p => l <= p < u /\ 0 <= p < size seq) (probes r) in
     0 <= l -> Int64.in_range l -> Int64.in_range u -> u <= size seq ->
     (Z.to_nat (u - l) <= fuel)%nat ->
     safe (bisect_right_optimized_v2 seq tgt key_func fuel error_status
             (Some l) upper_search_bound) /\
     safe (bisect_right_optimized_v4 seq tgt key_func sizeof_Retainer fuel
             error_status (Some l) upper_search_bound) /\
     (Int64.in_range (u - l) ->
      safe (bisect_right_optimized_v3 seq tgt key_func fuel error_status
              (Some l) upper_search_bound)) /\
     (size seq <= two52 ->
      safe (bisect_right_original seq tgt key_func fuel error_status
              (Some l) upper_search_bound))).
Proof.
  split; [repeat split; reflexivity|].
  intros l u safe Hl Rl Ru Hu Hfuel.
  assert (S : forall r, completed seq tgt key_func error_status l u r ->
                        safe r).
  { intros r (i & E & _ & F & _). split; [eauto|].
    eapply Forall_impl; [|exact F]. simpl. intros; lia. }
  split; [|split; [|split]].
  - apply S, bisect_right_optimized_v2_completed; assumption.
  - apply S, bisect_right_optimized_v4_completed; assumption.
  - intros Rsub. apply S, bisect_right_optimized_v3_completed; assumption.
  - intros H52. apply S, bisect_right_original_completed; assumption.
Qed.

(** *** Instances *)

Example bisect_right_original_runs :
  map (fun t => returned (bisect_right_original [1; 2; 2; 3; 5; 8; 9; 9; 9; 10]
                            t id_key 10 None (Some 0) None))
      [0; 2; 9; 11]
  = [Done 0; Done 3; Done 9; Done 10].
Proof. vm_compute. reflexivity. Qed.

Example optimized_variants_run :
  map (fun t =>
         ( returned (bisect_right_optimized_v2 [1; 2; 2; 3; 5; 8; 9; 9; 9; 10]
                       t id_key 10 None (Some 0) None),
           returned (bisect_right_optimized_v3 [1; 2; 2; 3; 5; 8; 9; 9; 9; 10]
                       t id_key 10 None (Some 0) None),
           returned (bisect_right_optimized_v4 [1; 2; 2; 3; 5; 8; 9; 9; 9; 10]
                       t id_key 8 10 None (Some 0) None) ))
      [0; 2; 9; 11]
  = [ (Done 0, Done 0, Done 0); (Done 3, Done 3, Done 3);
      (Done 9, Done 9, Done 9); (Done 10, Done 10, Done 10) ].
Proof. vm_compute. reflexivity. Qed.

Example bisect_right_sub_range :
  bisect_right_original [1; 2; 2; 3; 5; 8; 9; 9; 9; 10] 9 id_key 10 None
    (Some 2) (Some 7)
  = mkRun [4; 6] None (Done 7).
Proof. vm_compute. reflexivity. Qed.

Lemma bisect_right_original_boundary_witness :
  exists r,
    returned (bisect_right_original [1; 2; 2; 3; 5] 2 id_key 5 None
                (Some 0) None) = Done r /\
    0 <= r <= 5 /\
    all_above [1; 2; 2; 3; 5] 2 id_key r 5 /\
    (forall i, 0 <= i <= 5 -> all_above [1; 2; 2; 3; 5] 2 id_key i 5 -> r <= i) /\
    (0 = 0 -> @None Z = None -> r = count_le [1; 2; 2; 3; 5] 2 id_key).
Proof.
  apply (bisect_right_original_boundary [1; 2; 2; 3; 5] 2 id_key 5 None 0 None).
  - lia.
  - vm_compute. discriminate.
  - vm_compute. discriminate.
  - vm_compute. discriminate.
  - apply sortedb_sorted_on. reflexivity.
  - vm_compute. lia.
Defined.

Lemma optimized_variants_agree_witness :
  let reference :=
    bisect_right_original [1; 2; 2; 3; 5; 8; 9] 2 id_key 7 None (Some 0) None in
  returned (bisect_right_optimized_v2 [1; 2; 2; 3; 5; 8; 9] 2 id_key 7 None
              (Some 0) None) = returned reference /\
  returned (bisect_right_optimized_v4 [1; 2; 2; 3; 5; 8; 9] 2 id_key 8 7 None
              (Some 0) None) = returned reference /\
  returned (bisect_right_optimized_v3 [1; 2; 2; 3; 5; 8; 9] 2 id_key 7 None
              (Some 0) None) = returned reference.
Proof.
  destruct (optimized_variants_agree [1; 2; 2; 3; 5; 8; 9] 2 id_key 8 7 None
              0 None) as (E2 & E4 & E3).
  - vm_compute. discriminate.
  - vm_compute. discriminate.
  - split; [exact E2|]. split; [exact E4|]. apply E3.
    + apply in_range_intro. lia.
    + apply in_range_intro. vm_compute. split; discriminate.
    + apply in_range_intro. vm_compute. split; discriminate.
    + apply sortedb_sorted_on. reflexivity.
    + vm_compute. lia.
Defined.

Lemma negative_lower_bound_reported_witness :
  Forall (fun r =>
            returned r = Done 0 /\
            status r = Some (mkErrorStatus INTERNAL_ERROR
                               "lower_search_bound must be non-negative"))
    [ bisect_right_original [1; 2; 3] 2 id_key 3 (Some (mkErrorStatus OK "no error"))
        (Some (-1)) None;
      bisect_right_optimized_v2 [1; 2; 3] 2 id_key 3
        (Some (mkErrorStatus OK "no error")) (Some (-1)) None;
      bisect_right_optimized_v3 [1; 2; 3] 2 id_key 3
        (Some (mkErrorStatus OK "no error")) (Some (-1)) None;
      bisect_right_optimized_v4 [1; 2; 3] 2 id_key 8 3
        (Some (mkErrorStatus OK "no error")) (Some (-1)) None ] /\
  Forall (fun r => status r = None)
    [ bisect_right_original [1; 2; 3] 2 id_key 3 None (Some 0) None;
      bisect_right_optimized_v2 [1; 2; 3] 2 id_key 3 None (Some 0) None;
      bisect_right_optimized_v3 [1; 2; 3] 2 id_key 3 None (Some 0) None;
      bisect_right_optimized_v4 [1; 2; 3] 2 id_key 8 3 None (Some 0) None ].
Proof.
  split.
  - apply (negative_lower_bound_reported [1; 2; 3] 2 id_key 8 3
             (Some (mkErrorStatus OK "no error")) (-1) None). lia.
  - apply (negative_lower_bound_reported [1; 2; 3] 2 id_key 8 3 None 0 None).
    lia.
Defined.

Lemma original_loop_round_witness :
  midpoint_index 3 10 = 6 /\
  (3 < 10 ->
   original_loop [1; 2; 2; 3; 5; 8; 9; 9; 9; 10] 2 id_key 4 3 10
   = (c <- subscript [1; 2; 2; 3; 5; 8; 9; 9; 9; 10] 6 ;;
      if time_lt 2 (id_key c)
      then original_loop [1; 2; 2; 3; 5; 8; 9; 9; 9; 10] 2 id_key 3 3 6
      else original_loop [1; 2; 2; 3; 5; 8; 9; 9; 9; 10] 2 id_key 3 (6 + 1) 10)).
Proof.
  apply (original_loop_round [1; 2; 2; 3; 5; 8; 9; 9; 9; 10] 2 id_key 3 3 10);
    lia.
Defined.

Lemma bisections_safe_witness :
  let safe (r : run) :=
    (exists i, returned r = Done i) /\
    Forall (fun p => 0 <= p < 3 /\ 0 <= p < 3) (probes r) in
  safe (bisect_right_optimized_v2 [1; 2; 3] 2 id_key 3 None (Some 0) None) /\
  safe (bisect_right_optimized_v4 [1; 2; 3] 2 id_key 8 3 None (Some 0) None) /\
  safe (bisect_right_optimized_v3 [1; 2; 3] 2 id_key 3 None (Some 0) None) /\
  safe (bisect_right_original [1; 2; 3] 2 id_key 3 None (Some 0) None).
Proof.
  destruct (bisections_safe [1; 2; 3] 2 id_key 8 3 None None) as (_ & S).
  destruct (S 0) as (S2 & S4 & S3 & S0).
  - lia.
  - apply in_range_intro. lia.
  - apply in_range_intro. vm_compute. split; discriminate.
  - vm_compute. discriminate.
  - vm_compute. lia.
  - split; [exact S2|]. split; [exact S4|]. split.
    + apply S3. apply in_range_intro. vm_compute. split; discriminate.
    + apply S0. vm_compute. discriminate.
Defined.

(** *** Where the claims as first stated fail *)

(** C1, as first stated, fails: on unsorted keys, with an upper bound
    beyond the sequence, and with bounds whose difference overflows the
    third variant departs from the reference; on a sequence of
    [2^53 + 3] elements the reference never returns and the second variant
    does. *)
Lemma optimized_variants_disagree :
  returned (bisect_right_optimized_v3 [0; 0; 9; 0; 0; 0; 0; 0] 1 id_key 20
              None (Some 0) None)
    <> returned (bisect_right_original [0; 0; 9; 0; 0; 0; 0; 0] 1 id_key 20
                   None (Some 0) None) /\
  returned (bisect_right_optimized_v3 [1; 1; 1; 1; 1] 0 id_key 20
              None (Some 0) (Some 8))
    <> returned (bisect_right_original [1; 1; 1; 1; 1] 0 id_key 20
                   None (Some 0) (Some 8)) /\
  returned (bisect_right_optimized_v3 [] 0 id_key 20
              None (Some 6) (Some (-9223372036854775807)))
    <> returned (bisect_right_original [] 0 id_key 20
                   None (Some 6) (Some (-9223372036854775807))) /\
  returned (bisect_right_optimized_v2 long_seq 0 id_key 20
              None (Some 9007199254740993) (Some 9007199254740994))
    <> returned (bisect_right_original long_seq 0 id_key 20
                   None (Some 9007199254740993) (Some 9007199254740994)).
Proof.
  split; [vm_compute; discriminate|].
  split; [vm_compute; discriminate|].
  split; [vm_compute; discriminate|].
  rewrite long_seq_original.
  destruct (bisect_right_optimized_v2_completed long_seq 0 id_key 20 None
              9007199254740993 (Some 9007199254740994)) as (i & E & _).
  - lia.
  - apply in_range_intro. lia.
  - apply in_range_intro. cbn [upper_bound]. lia.
  - cbn [upper_bound]. rewrite long_seq_size. lia.
  - cbn [upper_bound]. lia.
  - rewrite E. discriminate.
Qed.

(** C2, as first stated, fails on three sorted keys, for each way the
    bounds can leave [0 <= lower <= upper <= length]:
    - with the bounds [2] and [1] the reference returns [2], and no index
      lies in [[2, 1]];
    - with the lower bound [-1] and a target above every key it returns
      [0], where the key at [0] is not above the target (the smallest index
      with only greater keys from it on is [3]);
    - with the upper bound [5] and a target above every key it subscripts
      the sequence at [4], beyond its last element, and returns nothing
      defined. *)
Lemma bisect_right_original_needs_bounds :
  (sorted_on [1; 2; 3] id_key 2 1 /\
   returned (bisect_right_original [1; 2; 3] 2 id_key 5 None
               (Some 2) (Some 1)) = Done 2 /\
   ~ 2 <= 2 <= 1) /\
  (sorted_on [1; 2; 3] id_key (-1) 3 /\
   returned (bisect_right_original [1; 2; 3] 5 id_key 5 None
               (Some (-1)) None) = Done 0 /\
   ~ all_above [1; 2; 3] 5 id_key 0 3 /\
   boundary [1; 2; 3] 5 id_key (-1) 3 3) /\
  (sorted_on [1; 2; 3] id_key 0 5 /\
   size [1; 2; 3] = 3 /\
   bisect_right_original [1; 2; 3] 5 id_key 5 None (Some 0) (Some 5)
   = mkRun [2; 4] None UB).
Proof.
  split; [|split].
  - split; [apply sortedb_sorted_on; reflexivity|].
    split; [reflexivity | lia].
  - split; [apply sortedb_sorted_on; reflexivity|].
    split; [reflexivity|]. split.
    + intros H. specialize (H 0 1). discriminate H; [lia | reflexivity].
    + split; [lia|]. split.
      * intros i k Hi Ek. apply key_at_nth_map in Ek. destruct Ek as (H0 & Ek).
        assert (Hc : i = 0 \/ i = 1 \/ i = 2) by lia.
        destruct Hc as [ -> | [ -> | -> ] ]; vm_compute in Ek; injection Ek as <-;
          reflexivity.
      * intros i k Hi. lia.
  - split; [apply sortedb_sorted_on; reflexivity|].
    split; reflexivity.
Qed.

(** Where the limit of [2^52] elements comes from: over [2^53 + 3] equal
    keys, all above [tgt], and the bounds [2^53 + 1] and [2^53 + 2], the
    midpoint computed in double precision is the upper bound itself, and
    the reference never returns. *)
Lemma bisect_right_original_spins :
  let l := 9007199254740993 in
  let u := 9007199254740994 in
  0 <= l /\ l <= u /\ u <= size long_seq /\ sorted_on long_seq id_key l u /\
  forall fuel,
    returned (bisect_right_original long_seq 0 id_key fuel None
                (Some l) (Some u)) = OutOfFuel.
Proof.
  intros l u. split; [lia|]. split; [lia|].
  split; [rewrite long_seq_size; lia|].
  split; [apply repeat_sorted; reflexivity|].
  intros fuel. apply long_seq_original.
Qed.

(** C8, as first stated, fails: for the bounds [2^53] and [2^53 + 2] the
    sum [2^54 + 2] rounds to the double [2^54], and the midpoint is the
    lower bound, not [2^53 + 1]. *)
Lemma midpoint_index_rounds :
  0 <= 9007199254740992 <= 9007199254740994 /\
  midpoint_index 9007199254740992 9007199254740994 = 9007199254740992 /\
  midpoint_index 9007199254740992 9007199254740994
    <> 9007199254740992 + (9007199254740994 - 9007199254740992) / 2.
Proof.
  split; [lia|]. split; vm_compute; [reflexivity | discriminate].
Qed.

(** C10, as first stated, fails: with the lower bound [6] and the upper
    bound [INT64_MIN + 1], which is within any sequence, [right - left]
    overflows in the third variant and its first probe is far outside the
    sequence; and on [2^53 + 3] elements the reference never returns. *)
Lemma bisections_unsafe :
  (0 <= 6 /\ -9223372036854775807 <= size (@nil Z) /\
   returned (bisect_right_optimized_v3 [] 0 id_key 20 None (Some 6)
               (Some (-9223372036854775807))) = UB /\
   probes (bisect_right_optimized_v3 [] 0 id_key 20 None (Some 6)
             (Some (-9223372036854775807))) = [2305843009213693956]) /\
  (0 <= 9007199254740993 /\ 9007199254740994 <= size long_seq /\
   forall fuel,
     returned (bisect_right_original long_seq 0 id_key fuel None
                 (Some 9007199254740993) (Some 9007199254740994))
     = OutOfFuel).
Proof.
  split.
  - split; [lia|]. split; [vm_compute; discriminate|].
    split; vm_compute; reflexivity.
  - split; [lia|]. split; [rewrite long_seq_size; lia|].
    intros fuel. apply long_seq_original.
Qed.

(** ** The tree walk *)

Section WalkFacts.

Context {Meta TimeRange : Type}.
Variable children_in_range :
  Composable Meta -> TimeRange -> handle -> list (Composable Meta) * handle.
Variable transformed_time_range :
  Composable Meta -> TimeRange -> Composable Meta -> handle ->
  TimeRange * handle.

#[local] Abbreviation loop is_T :=
  (find_children_loop is_T transformed_time_range).
#[local] Abbreviation find is_T :=
  (find_children is_T children_in_range transformed_time_range).

Lemma find_children_unfold is_T fuel this es range shallow :
  find is_T (S fuel) this es range shallow
  = if match range with Some _ => is_error (snd (narrowing children_in_range this es range))
                      | None => false end
    then Some ([], snd (narrowing children_in_range this es range))
    else loop is_T (fun c e r => find is_T fuel c e r shallow) this shallow
           (fst (narrowing children_in_range this es range)) [] range
           (snd (narrowing children_in_range this es range)).
Proof.
  cbn [find_children]. unfold narrowing. destruct range as [r|].
  - destruct (children_in_range this r es) as [cs es']. reflexivity.
  - reflexivity.
Qed.

(** *** Shallow search *)

Lemma shallow_loop is_T recurse this children : forall out range es,
  loop is_T recurse this true children out range es
  = Some (out ++ filter is_T children, es).
Proof.
  induction children as [|child rest IH]; intros out range es; simpl.
  - rewrite app_nil_r. reflexivity.
  - rewrite IH. destruct (is_T child); [|reflexivity].
    rewrite <- app_assoc. reflexivity.
Qed.

(** *** The filter only omits *)

Lemma filter_snoc (is_T : Composable Meta -> bool) (out : list (Composable Meta)) child :
  (if is_T child then filter is_T out ++ [child] else filter is_T out)
  = filter is_T (out ++ [child]).
Proof.
  rewrite filter_app. simpl. destruct (is_T child); [reflexivity|].
  rewrite app_nil_r. reflexivity.
Qed.

Lemma loop_filtered is_T recurse recurse_all this shallow :
  (forall c es r, recurse c es r = filtered is_T (recurse_all c es r)) ->
  forall children out range es,
    loop is_T recurse this shallow children (filter is_T out) range es
    = filtered is_T
        (loop (fun _ => true) recurse_all this shallow children out range es).
Proof.
  intros Hrec. induction children as [|child rest IH]; intros out range es.
  - reflexivity.
  - cbn [find_children_loop]. rewrite filter_snoc.
    destruct (negb shallow); [|apply IH].
    destruct (is_composition child); [|apply IH].
    destruct range as [r|].
    + destruct (transformed_time_range this r child es) as [r' es1].
      destruct (is_error es1); [reflexivity|].
      rewrite Hrec.
      destruct (recurse_all child es1 (Some r')) as [[valid es2]|];
        [|reflexivity].
      cbn [filtered option_map fst snd].
      destruct (is_error es2); [reflexivity|].
      rewrite <- filter_app. apply IH.
    + rewrite Hrec.
      destruct (recurse_all child es None) as [[valid es2]|]; [|reflexivity].
      cbn [filtered option_map fst snd].
      destruct (is_error es2); [reflexivity|].
      rewrite <- filter_app. apply IH.
Qed.

Lemma find_children_filtered is_T fuel : forall this es range shallow,
  find is_T fuel this es range shallow
  = filtered is_T (find (fun _ => true) fuel this es range shallow).
Proof.
  induction fuel as [|fuel IH]; intros this es range shallow;
    [reflexivity|].
  rewrite !find_children_unfold.
  destruct (match range with Some _ => _ | None => false end);
    [reflexivity|].
  apply (loop_filtered is_T _ _ this shallow) with (out := []).
  intros c e r. apply IH.
Qed.

End WalkFacts.

Section Tree.
Context {Meta : Type}.

Lemma height_child (m : Meta) (cs : list (Composable Meta)) k :
  In k cs -> (height k < height (Comp m cs))%nat.
Proof.
  cbn [height]. induction cs as [|c cs IH]; intros Hin; [destruct Hin|].
  cbn [fold_right]. destruct Hin as [->|Hin]; [lia|].
  specialize (IH Hin). lia.
Qed.

Lemma height_children (this k : Composable Meta) :
  In k (_children this) -> (height k < height this)%nat.
Proof.
  destruct this as [m|m cs]; [intros [] | apply height_child].
Qed.

End Tree.

Section Order.

Context {Meta TimeRange : Type}.
Variable is_T : Composable Meta -> bool.
Variable children_in_range :
  Composable Meta -> TimeRange -> handle -> list (Composable Meta) * handle.
Variable transformed_time_range :
  Composable Meta -> TimeRange -> Composable Meta -> handle ->
  TimeRange * handle.

#[local] Abbreviation loop := (find_children_loop is_T transformed_time_range).
#[local] Abbreviation find :=
  (find_children is_T children_in_range transformed_time_range).

Lemma own_entry_push out child :
  (if is_T child then out ++ [child] else out) = out ++ own_entry is_T child.
Proof.
  unfold own_entry. destruct (is_T child); [reflexivity|].
  rewrite app_nil_r. reflexivity.
Qed.

(** *** An error ends the walk *)


Lemma loop_composition recurse this child rest out range es :
  is_composition child = true ->
  loop recurse this false (child :: rest) out range es
  = let d := descent transformed_time_range this child range es in
    if match range with Some _ => is_error (snd d) | None => false end
    then Some (out ++ own_entry is_T child, snd d)
    else
      match recurse child (snd d) (fst d) with
      | None => None
      | Some (valid_children, es') =>
          if is_error es' then Some (out ++ own_entry is_T child, es')
          else loop recurse this false rest
                 ((out ++ own_entry is_T child) ++ valid_children) (fst d) es'
      end.
Proof.
  intros Hc. cbn [find_children_loop negb]. rewrite Hc, own_entry_push.
  unfold descent. destruct range as [r|]; [|reflexivity].
  destruct (transformed_time_range this r child es) as [r' es1]. reflexivity.
Qed.

Lemma loop_leaf recurse this child rest out range es :
  is_composition child = false ->
  loop recurse this false (child :: rest) out range es
  = loop recurse this false rest (out ++ own_entry is_T child) range es.
Proof.
  intros Hc. cbn [find_children_loop negb]. rewrite Hc, own_entry_push.
  reflexivity.
Qed.


(** *** Blocks in sibling order *)

Lemma loop_blocks recurse this children : forall out range es out' es',
  loop recurse this false children out range es = Some (out', es') ->
  exists visited rest blocks,
    children = visited ++ rest /\
    (is_error es' = false -> rest = []) /\
    Forall2 (block_of is_T recurse) visited blocks /\
    out' = out ++ List.concat blocks.
Proof.
  induction children as [|child rest IH]; intros out range es out' es' E.
  - cbn in E. injection E as <- <-.
    exists [], [], [].
    split; [reflexivity|]. split; [reflexivity|].
    split; [apply Forall2_nil | simpl; rewrite app_nil_r; reflexivity].
  - assert (Own : block_of is_T recurse child (own_entry is_T child)).
    { exists []. rewrite app_nil_r. auto. }
    assert (Stop : forall e, is_error e = true ->
              Some (out ++ own_entry is_T child, e) = Some (out', es') ->
              exists visited rest0 blocks,
                child :: rest = visited ++ rest0 /\
                (is_error es' = false -> rest0 = []) /\
                Forall2 (block_of is_T recurse) visited blocks /\
                out' = out ++ List.concat blocks).
    { intros e He Eq. injection Eq as <- <-.
      exists [child], rest, [own_entry is_T child].
      split; [reflexivity|]. split; [congruence|].
      split; [repeat constructor; exact Own|].
      simpl. rewrite app_nil_r. reflexivity. }
    destruct (is_composition child) eqn:Hc.
    + rewrite loop_composition in E by assumption. cbv zeta in E.
      set (d := descent transformed_time_range this child range es) in *.
      destruct (match range with Some _ => is_error (snd d) | None => false end)
        eqn:Ht.
      { apply (Stop (snd d)); [|exact E]. destruct range; [exact Ht|discriminate]. }
      destruct (recurse child (snd d) (fst d)) as [[valid es2]|] eqn:Hr;
        [|discriminate].
      destruct (is_error es2) eqn:He2; [apply (Stop es2); assumption|].
      destruct (IH _ _ _ _ _ E) as (visited & rest0 & blocks & E1 & E2 & E3 & E4).
      exists (child :: visited), rest0, ((own_entry is_T child ++ valid) :: blocks).
      split; [simpl; congruence|]. split; [exact E2|]. split.
      * constructor; [|exact E3]. exists valid. split; [reflexivity|].
        right. split; [exact Hc|]. eauto.
      * rewrite E4. simpl. rewrite !app_assoc. reflexivity.
    + rewrite loop_leaf in E by assumption.
      destruct (IH _ _ _ _ _ E) as (visited & rest0 & blocks & E1 & E2 & E3 & E4).
      exists (child :: visited), rest0, (own_entry is_T child :: blocks).
      split; [simpl; congruence|]. split; [exact E2|]. split.
      * constructor; [exact Own | exact E3].
      * rewrite E4. simpl. rewrite !app_assoc. reflexivity.
Qed.

(** *** The walk returns *)

Lemma loop_returns recurse this shallow children :
  (forall child, In child children -> is_composition child = true ->
     forall es r, exists w, recurse child es r = Some w) ->
  forall out range es,
    exists w, loop recurse this shallow children out range es = Some w.
Proof.
  induction children as [|child rest IH]; intros Hrec out range es.
  - eexists. reflexivity.
  - assert (IH' := IH (fun c Hin => Hrec c (or_intror Hin))).
    cbn [find_children_loop].
    destruct (negb shallow); [|apply IH'].
    destruct (is_composition child) eqn:Hc; [|apply IH'].
    destruct range as [r|].
    + destruct (transformed_time_range this r child es) as [r' es1].
      destruct (is_error es1); [eexists; reflexivity|].
      destruct (Hrec child (or_introl eq_refl) Hc es1 (Some r')) as ([v e] & ->).
      destruct (is_error e); [eexists; reflexivity | apply IH'].
    + destruct (Hrec child (or_introl eq_refl) Hc es None) as ([v e] & ->).
      destruct (is_error e); [eexists; reflexivity | apply IH'].
Qed.

Lemma narrowing_below this es range k :
  narrows_below children_in_range ->
  In k (fst (narrowing children_in_range this es range)) -> (height k < height this)%nat.
Proof.
  intros Hn. unfold narrowing. destruct range as [r|].
  - apply Hn.
  - apply height_children.
Qed.

Lemma find_children_returns fuel :
  narrows_below children_in_range ->
  forall this es range shallow,
    (height this < fuel)%nat ->
    exists w, find fuel this es range shallow = Some w.
Proof.
  intros Hn. induction fuel as [|fuel IH]; intros this es range shallow Hh;
    [lia|].
  rewrite find_children_unfold.
  destruct (match range with Some _ => _ | None => false end);
    [eexists; reflexivity|].
  apply loop_returns. intros child Hin _ es' r.
  apply IH. apply (narrowing_below this es range) in Hin; [lia|exact Hn].
Qed.

End Order.

Section Preorder.

Context {Meta TimeRange : Type}.
Variable is_T : Composable Meta -> bool.
Variable children_in_range :
  Composable Meta -> TimeRange -> handle -> list (Composable Meta) * handle.
Variable transformed_time_range :
  Composable Meta -> TimeRange -> Composable Meta -> handle ->
  TimeRange * handle.

#[local] Abbreviation loop := (find_children_loop is_T transformed_time_range).
#[local] Abbreviation find :=
  (find_children is_T children_in_range transformed_time_range).

Lemma matches_below_children (this : Composable Meta) :
  matches_below is_T this
  = flat_map (fun child => own_entry is_T child ++ matches_below is_T child)
      (_children this).
Proof.
  destruct this as [m|m cs]; [reflexivity|]. cbn [matches_below _children].
  induction cs as [|c cs IH]; [reflexivity|].
  cbn [flat_map]. rewrite IH, app_assoc. reflexivity.
Qed.

Lemma matches_below_leaf (c : Composable Meta) :
  is_composition c = false -> matches_below is_T c = [].
Proof. destruct c; [reflexivity | discriminate]. Qed.

Lemma loop_preorder fuel this es children :
  is_error es = false ->
  (forall child, In child children ->
     find fuel child es None false = Some (matches_below is_T child, es)) ->
  forall out,
    loop (fun c e r => find fuel c e r false) this false children out None es
    = Some (out ++ flat_map (fun child => own_entry is_T child
                                          ++ matches_below is_T child) children,
            es).
Proof.
  intros He. induction children as [|child rest IH]; intros Hrec out.
  - cbn. rewrite app_nil_r. reflexivity.
  - assert (IH' := IH (fun c Hin => Hrec c (or_intror Hin))).
    cbn [flat_map]. destruct (is_composition child) eqn:Hc.
    + rewrite loop_composition by assumption. cbv zeta.
      cbn [descent fst snd]. rewrite (Hrec child (or_introl eq_refl)), He.
      rewrite IH'. rewrite !app_assoc. reflexivity.
    + rewrite loop_leaf by assumption. rewrite IH'.
      rewrite (matches_below_leaf child Hc), app_nil_r, !app_assoc.
      reflexivity.
Qed.

(** Without a range and with no error in the handle, the walk is the
    pre-order list of the matches below the composition. *)
Lemma find_children_preorder fuel : forall this es,
  (height this < fuel)%nat -> is_error es = false ->
  find fuel this es None false = Some (matches_below is_T this, es).
Proof.
  induction fuel as [|fuel IH]; intros this es Hh He; [lia|].
  rewrite find_children_unfold. cbn [narrowing fst snd].
  rewrite loop_preorder; auto.
  - rewrite matches_below_children. reflexivity.
  - intros child Hin. apply IH; [|exact He].
    apply height_children in Hin. lia.
Qed.

End Preorder.

(** ** The claims about [find_children] *)

(** C5 (amended).  A shallow search returns its matches among the children
    it runs over and nothing else: without a range the direct children that
    satisfy [T], in order; with a range, when the handle holds no error
    after the narrowing, the narrowed children that satisfy [T], and when
    it holds one, put there by the narrowing or left from before the call,
    nothing.  Nothing below a child is looked at, so no entry comes from a
    nested composition. *)
Theorem find_children_shallow
    {Meta TimeRange : Type} (is_T : Composable Meta -> bool)
    (children_in_range :
       Composable Meta -> TimeRange -> handle ->
       list (Composable Meta) * handle)
    (transformed_time_range :
       Composable Meta -> TimeRange -> Composable Meta -> handle ->
       TimeRange * handle)
    (fuel : nat) (this : Composable Meta) (error_status : handle)
    (search_range : option TimeRange) :
  let children := fst (narrowing children_in_range this error_status
                         search_range) in
  let status := snd (narrowing children_in_range this error_status
                       search_range) in
  exists out,
    find_children is_T children_in_range transformed_time_range (S fuel)
      this error_status search_range true = Some (out, status) /\
    incl out children /\
    (search_range = None \/ is_error status = false ->
     out = filter is_T children) /\
    (search_range <> None -> is_error status = true -> out = []).
Proof.
  intros children status. rewrite find_children_unfold.
  fold children status.
  destruct search_range as [r|].
  - destruct (is_error status) eqn:He.
    + exists []. split; [reflexivity|]. split; [intros x []|].
      split; [intros [H|H]; discriminate | reflexivity].
    + exists (filter is_T children). rewrite shallow_loop.
      split; [reflexivity|]. split; [|split; [reflexivity | discriminate]].
      intros x Hx. apply filter_In in Hx. apply Hx.
  - exists (filter is_T children). rewrite shallow_loop.
    split; [reflexivity|]. split; [|split; [reflexivity | congruence]].
    intros x Hx. apply filter_In in Hx. apply Hx.
Qed.

(** C6.  A deep search that is given enough depth returns, and its result
    is the concatenation, in sibling order, of one block per visited child:
    the child's own entry if it satisfies [T], followed at once by what the
    search below that child returned.  The visited children are a prefix of
    the children the loop runs over, all of them when the handle holds no
    error at the end.  Without a range and with no error in the handle the
    result is the pre-order list of the matches below the composition. *)
Theorem find_children_order
    {Meta TimeRange : Type} (is_T : Composable Meta -> bool)
    (children_in_range :
       Composable Meta -> TimeRange -> handle ->
       list (Composable Meta) * handle)
    (transformed_time_range :
       Composable Meta -> TimeRange -> Composable Meta -> handle ->
       TimeRange * handle)
    (fuel : nat) (this : Composable Meta) (error_status : handle)
    (search_range : option TimeRange) :
  narrows_below children_in_range ->
  (height this <= fuel)%nat ->
  (exists out status visited rest blocks,
     find_children is_T children_in_range transformed_time_range (S fuel)
       this error_status search_range false = Some (out, status) /\
     fst (narrowing children_in_range this error_status search_range)
       = visited ++ rest /\
     (is_error status = false -> rest = []) /\
     Forall2
       (block_of is_T
          (fun c e r =>
             find_children is_T children_in_range transformed_time_range
               fuel c e r false))
       visited blocks /\
     out = List.concat blocks) /\
  (search_range = None -> is_error error_status = false ->
   find_children is_T children_in_range transformed_time_range (S fuel)
     this error_status search_range false
   = Some (matches_below is_T this, error_status)).
Proof.
  intros Hn Hh. split.
  - destruct (find_children_returns is_T children_in_range
                transformed_time_range (S fuel) Hn this error_status
                search_range false) as ([out status] & E); [lia|].
    exists out, status. rewrite E. rewrite find_children_unfold in E.
    destruct (match search_range with Some _ => _ | None => false end) eqn:Ht.
    + injection E as <- <-.
      exists [], (fst (narrowing children_in_range this error_status
                         search_range)), [].
      split; [reflexivity|]. split; [reflexivity|].
      split; [|split; [constructor | reflexivity]].
      destruct search_range; [congruence | discriminate].
    + apply loop_blocks in E.
      destruct E as (visited & rest & blocks & E1 & E2 & E3 & E4).
      exists visited, rest, blocks. split; [reflexivity|]. auto.
  - intros -> He. apply find_children_preorder; [lia | exact He].
Qed.


(** C9.  The type filter only omits: the walk for [T] is the walk that
    accepts every node with the entries that do not satisfy [T] struck out,
    and it leaves the handle exactly as that walk does; so every entry of a
    result satisfies [T]. *)
Theorem find_children_filter_only_omits
    {Meta TimeRange : Type} (is_T : Composable Meta -> bool)
    (children_in_range :
       Composable Meta -> TimeRange -> handle ->
       list (Composable Meta) * handle)
    (transformed_time_range :
       Composable Meta -> TimeRange -> Composable Meta -> handle ->
       TimeRange * handle)
    (fuel : nat) (this : Composable Meta) (error_status : handle)
    (search_range : option TimeRange) (shallow_search : bool) :
  find_children is_T children_in_range transformed_time_range fuel this
    error_status search_range shallow_search
  = filtered is_T
      (find_children (fun _ => true) children_in_range transformed_time_range
         fuel this error_status search_range shallow_search) /\
  (forall out status,
     find_children is_T children_in_range transformed_time_range fuel this
       error_status search_range shallow_search = Some (out, status) ->
     Forall (fun c => is_T c = true) out).
Proof.
  split; [apply find_children_filtered|].
  intros out status E. rewrite find_children_filtered in E.
  destruct (find_children _ _ _ _ _ _ _ _) as [[o e]|]; [|discriminate].
  injection E as <- <-. apply Forall_forall. intros x Hx.
  apply filter_In in Hx. apply Hx.
Qed.

(** *** On a track of clips *)

Module TrackFacts.
Import TrackModel.

Lemma overlapping_incl r cs : forall offset,
  incl (overlapping offset r cs) cs.
Proof.
  induction cs as [|c cs IH]; intros offset x Hx; [destruct Hx|].
  cbn [overlapping] in Hx. apply in_app_or in Hx. destruct Hx as [Hx|Hx].
  - destruct (_ && _) in Hx; [|destruct Hx].
    destruct Hx as [<-|[]]. left. reflexivity.
  - right. eapply IH. exact Hx.
Qed.

Lemma children_in_range_below : narrows_below children_in_range.
Proof.
  intros this r es k Hk. apply height_children.
  eapply overlapping_incl. exact Hk.
Qed.

End TrackFacts.
Import TrackModel TrackFacts.

(** C3.  The loop assigns the transformed range back to [search_range], so
    the range handed to the second child composition is the supplied range
    transformed for the first child and then again for the second.  On the
    timeline of a clip followed by the tracks A and B, searched over
    [[10, 20)], track A is searched over the range starting at [5] and
    track B over the range starting at [-10], where the supplied range
    starts at [-5] in the space of B; the clip [b1] of B, which lies in the
    supplied range, is not found. *)
Theorem find_children_reuses_transformed_range :
  find_children is_clip children_in_range transformed_time_range 3
    timeline None (Some (10, 10)) false
  = Some ([clip "a1" 10], None) /\
  specified_find_children is_clip children_in_range transformed_time_range 3
    timeline None (Some (10, 10)) false
  = Some ([clip "a1" 10; clip "b1" 5], None) /\
  find_children_loop is_clip transformed_time_range passed_range timeline
    false [track_A; track_B] [] (Some (10, 10)) None
  = Some ([clip "passed" 5; clip "passed" (-10)], None) /\
  fst (transformed_time_range timeline (10, 10) track_B None) = (-5, 10).
Proof. repeat split; vm_compute; reflexivity. Qed.

(** C5, as first stated, fails: a handle that holds an error before the
    call, which the narrowing leaves as it is, makes a shallow search over
    a range return nothing.  On the timeline searched over [[0, 12)] the
    narrowing succeeds and hands back the clip [c0] and track A, the clip
    satisfies the filter, and the result is empty; with a handle that
    holds no error the same search returns the clip. *)
Lemma find_children_shallow_stale_error :
  children_in_range timeline (0, 12) (Some range_error)
  = ([clip "c0" 5; track_A], Some range_error) /\
  filter is_clip [clip "c0" 5; track_A] = [clip "c0" 5] /\
  find_children is_clip children_in_range transformed_time_range 1 timeline
    (Some range_error) (Some (0, 12)) true
  = Some ([], Some range_error) /\
  find_children is_clip children_in_range transformed_time_range 1 timeline
    (Some (mkErrorStatus OK "no error")) (Some (0, 12)) true
  = Some ([clip "c0" 5], Some (mkErrorStatus OK "no error")).
Proof. repeat split; vm_compute; reflexivity. Qed.

Lemma find_children_shallow_witness :
  exists out,
    find_children is_clip children_in_range transformed_time_range 1
      timeline None (Some (0, 12)) true = Some (out, None) /\
    incl out [clip "c0" 5; track_A] /\
    out = [clip "c0" 5].
Proof.
  destruct (find_children_shallow is_clip children_in_range
              transformed_time_range 0 timeline None (Some (0, 12)))
    as (out & E & I & F & _).
  exists out. split; [exact E|]. split; [exact I|].
  rewrite F; [reflexivity|]. right. reflexivity.
Defined.

Lemma find_children_order_witness :
  (exists out status visited rest blocks,
     find_children is_clip children_in_range transformed_time_range 3
       timeline None None false = Some (out, status) /\
     [clip "c0" 5; track_A; track_B] = visited ++ rest /\
     (is_error status = false -> rest = []) /\
     Forall2
       (block_of is_clip
          (fun c e r =>
             find_children is_clip children_in_range transformed_time_range
               2 c e r false))
       visited blocks /\
     out = List.concat blocks) /\
  find_children is_clip children_in_range transformed_time_range 3
    timeline None None false
  = Some ([clip "c0" 5; clip "a1" 10; clip "b1" 5; clip "b2" 5], None).
Proof.
  destruct (find_children_order is_clip children_in_range
              transformed_time_range 2 timeline None None
              children_in_range_below) as (B & P).
  - vm_compute. lia.
  - split; [exact B|]. apply P; reflexivity.
Defined.


Lemma find_children_filter_only_omits_witness :
  find_children is_clip children_in_range transformed_time_range 3 timeline
    None None false
  = filtered is_clip
      (find_children (fun _ => true) children_in_range transformed_time_range
         3 timeline None None false) /\
  Forall (fun c => is_clip c = true)
    [clip "c0" 5; clip "a1" 10; clip "b1" 5; clip "b2" 5].
Proof.
  destruct (find_children_filter_only_omits is_clip children_in_range
              transformed_time_range 3 timeline None None false) as (E & F).
  split; [exact E|]. apply (F _ None). reflexivity.
Defined.

(** ** Loops that halve an interval *)

Lemma rounds_spec (s : Z) : s < 2 ^ Z.of_nat (rounds s).
Proof.
  unfold rounds. destruct (Z.leb_spec s 0) as [Hs|Hs].
  - simpl. lia.
  - rewrite Nat2Z.inj_succ, Z2Nat.id by apply Z.log2_nonneg.
    apply Z.log2_spec. lia.
Qed.

Lemma half_below_pow (s : Z) (k : nat) :
  s < 2 ^ Z.of_nat (S k) -> s / 2 < 2 ^ Z.of_nat k.
Proof.
  rewrite Nat2Z.inj_succ, Z.pow_succ_r by lia. intros H.
  apply Z.div_lt_upper_bound; lia.
Qed.

Section Halving.

Variable R : Type.
Variable loop : nat -> Z -> Z -> probing R.
Variable step : Z -> Z -> probing (Z * Z).
Variable cond : Z -> Z -> bool.
Variable exit : Z -> Z -> R.
Variable I : Z -> Z -> Prop.
Variable c : nat.

Hypothesis cond_lt : forall l u, I l u -> cond l u = true -> l < u.
Hypothesis loop_exit : forall fuel l u,
  cond l u = false -> loop fuel l u = ret (exit l u).
Hypothesis loop_step : forall fuel l u,
  I l u -> cond l u = true ->
  loop (S fuel) l u = (lu <- step l u ;; loop fuel (fst lu) (snd lu)).
Hypothesis step_halves : forall l u,
  I l u -> cond l u = true ->
  exists tr l' u',
    step l u = (tr, Done (l', u')) /\
    Forall (fun i => l <= i < u) tr /\ (List.length tr <= c)%nat /\
    I l' u' /\ l <= l' /\ u' <= u /\ u' - l' <= (u - l) / 2.

Lemma halving_loop_done (k : nat) : forall fuel l u,
  I l u -> u - l < 2 ^ Z.of_nat k -> (k <= fuel)%nat ->
  exists tr l' u',
    loop fuel l u = (tr, Done (exit l' u')) /\
    Forall (fun i => l <= i < u) tr /\ (List.length tr <= c * k)%nat /\
    I l' u' /\ cond l' u' = false /\ l <= l' /\ u' <= u.
Proof.
  induction k as [|k IH]; intros fuel l u HI Hk Hfuel.
  - assert (C : cond l u = false).
    { destruct (cond l u) eqn:C; [|reflexivity].
      apply cond_lt in C; [|assumption]. simpl in Hk. lia. }
    exists [], l, u. rewrite loop_exit by assumption.
    repeat split; auto; simpl; lia.
  - destruct (cond l u) eqn:C.
    + destruct fuel as [|fuel]; [lia|].
      rewrite loop_step by assumption.
      destruct (step_halves l u HI C)
        as (tr & l' & u' & E & Htr & Hlen & HI' & Hl & Hu & Hm).
      pose proof (half_below_pow _ _ Hk) as Hhalf.
      destruct (IH fuel l' u' HI') as
        (tr2 & l2 & u2 & E2 & Htr2 & Hlen2 & HI2 & C2 & Hl2 & Hu2); [lia|lia|].
      exists (tr ++ tr2), l2, u2. rewrite E, bind_done. simpl fst; simpl snd.
      rewrite E2. simpl.
      split; [reflexivity|]. split.
      { apply Forall_app. split; [assumption|].
        eapply Forall_impl; [|exact Htr2]. simpl. intros; lia. }
      split; [rewrite length_app; lia|].
      repeat split; auto; lia.
    + exists [], l, u. rewrite loop_exit by assumption.
      repeat split; auto; simpl; lia.
Qed.

End Halving.

(** ** Steps under any invariant that follows the comparisons *)

Section Following.

Context {Composable time : Type} {ops : TimeOps time} {ord : TimeOrder time}.
Variable seq : list Composable.
Variable tgt : time.
Variable key_func : Composable -> time.
Variable sizeof_Retainer : Z.
Variables l0 u0 : Z.
Hypothesis l0_nonneg : 0 <= l0.
Hypothesis u0_size : u0 <= size seq.

Variable I : Z -> Z -> Prop.
Hypothesis I_bounds : forall l u,
  I l u -> l0 <= l /\ u <= u0 /\ (l <= u \/ (l = l0 /\ u = u0)).
Hypothesis I_left : forall l u m k,
  I l u -> l <= m < u -> key_at seq key_func m = Some k ->
  time_lt tgt k = true -> I l m.
Hypothesis I_right : forall l u m k,
  I l u -> l <= m < u -> key_at seq key_func m = Some k ->
  time_lt tgt k = false -> I (m + 1) u.

Lemma round_step_halves l u :
  I l u -> l < u ->
  exists tr l' u',
    round_step seq tgt key_func l u = (tr, Done (l', u')) /\
    Forall (fun i => l <= i < u) tr /\ (List.length tr <= 1)%nat /\
    I l' u' /\ l <= l' /\ u' <= u /\ u' - l' <= (u - l) / 2.
Proof.
  intros N Hlu. pose proof (midpoint_bounds l u Hlu) as Hm.
  pose proof (I_bounds l u N) as Hb.
  destruct (subscript_in_bounds seq key_func (l + (u - l) / 2)) as (c & E & Ek);
    [lia|].
  pose proof (Z.div_mod (u - l) 2 ltac:(lia)).
  pose proof (Z.mod_pos_bound (u - l) 2 ltac:(lia)).
  unfold round_step. rewrite E, bind_done. unfold ret. simpl fst. simpl snd.
  destruct (time_lt tgt (key_func c)) eqn:L.
  - exists [l + (u - l) / 2], l, (l + (u - l) / 2).
    split; [reflexivity|]. split; [repeat constructor; lia|].
    split; [simpl; lia|]. split; [|lia].
    eapply I_left; eauto.
  - exists [l + (u - l) / 2], (l + (u - l) / 2 + 1), u.
    split; [reflexivity|]. split; [repeat constructor; lia|].
    split; [simpl; lia|]. split; [|lia].
    eapply I_right; eauto.
Qed.

Lemma prefetch_length l mid u tr :
  prefetch seq sizeof_Retainer l mid u = (tr, Done tt) ->
  (List.length tr <= 2)%nat.
Proof.
  unfold prefetch. destruct (_ <? _).
  - unfold bind.
    destruct (subscript seq _) as [t1 [c1| |]] eqn:E1; simpl;
      try discriminate.
    destruct (subscript seq (Int64.add _ _)) as [t2 [c2| |]] eqn:E2; simpl;
      try discriminate.
    intros E. injection E as <-.
    unfold subscript in E1, E2.
    destruct (_ && _) in E1; [destruct (nth_error _ _) in E1|];
      injection E1 as <- _;
      (destruct (_ && _) in E2; [destruct (nth_error _ _) in E2|]);
      injection E2 as <- _; simpl; lia.
  - intros E. injection E as <-. simpl. lia.
Qed.

Lemma v4_step_halves l u :
  u0 <= Int64.max_signed ->
  I l u -> l < u ->
  exists tr l' u',
    v4_step seq tgt key_func sizeof_Retainer l u = (tr, Done (l', u')) /\
    Forall (fun i => l <= i < u) tr /\ (List.length tr <= 3)%nat /\
    I l' u' /\ l <= l' /\ u' <= u /\ u' - l' <= (u - l) / 2.
Proof.
  intros Hmax N Hlu. pose proof (I_bounds l u N) as Hb.
  destruct (prefetch_in_bounds seq key_func sizeof_Retainer l u)
    as (tr1 & E1 & F1); try lia.
  destruct (round_step_halves l u N Hlu)
    as (tr & l' & u' & E & F & Hlen & R).
  pose proof (prefetch_length _ _ _ _ E1).
  exists (tr1 ++ tr), l', u'. unfold v4_step. rewrite E1, bind_done, E.
  split; [reflexivity|]. split; [apply Forall_app; auto|].
  split; [rewrite length_app; lia | exact R].
Qed.

Lemma v3_step_halves l u :
  I l u -> 4 < u - l ->
  exists tr l' u',
    v3_step seq tgt key_func l u = (tr, Done (l', u')) /\
    Forall (fun i => l <= i < u) tr /\ (List.length tr <= 3)%nat /\
    I l' u' /\ l <= l' /\ u' <= u /\ u' - l' <= (u - l) / 2.
Proof.
  intros N Hlu. pose proof (quarter_bounds l u Hlu) as Hq.
  pose proof (I_bounds l u N) as Hb.
  pose proof (Z.div_mod (u - l) 2 ltac:(lia)).
  pose proof (Z.mod_pos_bound (u - l) 2 ltac:(lia)).
  pose proof (Z.div_mod (u - l) 4 ltac:(lia)).
  pose proof (Z.mod_pos_bound (u - l) 4 ltac:(lia)).
  unfold v3_step.
  set (mid1 := l + (u - l) / 4) in *.
  set (mid2 := l + (u - l) / 2) in *.
  set (mid3 := u - (u - l) / 4) in *.
  destruct (subscript_in_bounds seq key_func mid1) as (c1 & E1 & K1); [lia|].
  destruct (subscript_in_bounds seq key_func mid2) as (c2 & E2 & K2); [lia|].
  destruct (subscript_in_bounds seq key_func mid3) as (c3 & E3 & K3); [lia|].
  rewrite E1, bind_done, E2, bind_done, E3, bind_done. unfold ret.
  simpl fst. simpl snd.
  assert (F : Forall (fun i => l <= i < u) ([mid1] ++ [mid2] ++ [mid3] ++ []))
    by (repeat constructor; lia).
  destruct (time_lt tgt (key_func c1)) eqn:L1;
    [|destruct (time_lt tgt (key_func c2)) eqn:L2;
      [|destruct (time_lt tgt (key_func c3)) eqn:L3]].
  - exists ([mid1] ++ [mid2] ++ [mid3] ++ []), l, mid1.
    split; [reflexivity|]. split; [exact F|]. split; [simpl; lia|].
    split; [|lia]. eapply I_left; eauto. lia.
  - exists ([mid1] ++ [mid2] ++ [mid3] ++ []), (mid1 + 1), mid2.
    split; [reflexivity|]. split; [exact F|]. split; [simpl; lia|].
    split; [|lia].
    apply (I_right l mid2 mid1 (key_func c1)); auto; [|lia].
    apply (I_left l u mid2 (key_func c2)); auto. lia.
  - exists ([mid1] ++ [mid2] ++ [mid3] ++ []), (mid2 + 1), mid3.
    split; [reflexivity|]. split; [exact F|]. split; [simpl; lia|].
    split; [|lia].
    apply (I_right l mid3 mid2 (key_func c2)); auto; [|lia].
    apply (I_left l u mid3 (key_func c3)); auto. lia.
  - exists ([mid1] ++ [mid2] ++ [mid3] ++ []), (mid3 + 1), u.
    split; [reflexivity|]. split; [exact F|]. split; [simpl; lia|].
    split; [|lia]. eapply I_right; eauto. lia.
Qed.

(** *** The loops under such an invariant *)

Hypothesis l0_range : l0 <= Int64.max_signed.
Hypothesis u0_range : Int64.in_range u0.

Lemma following_range l u :
  I l u -> 0 <= l <= Int64.max_signed /\ Int64.in_range u.
Proof.
  intros N. destruct (I_bounds l u N) as (Hl & Hu & Hlu).
  unfold Int64.in_range, Int64.max_signed, Int64.min_signed in *. lia.
Qed.

Lemma original_loop_halving k fuel l u :
  u0 <= two52 -> I l u -> u - l < 2 ^ Z.of_nat k -> (k <= fuel)%nat ->
  exists tr r u',
    original_loop seq tgt key_func fuel l u = (tr, Done r) /\
    Forall (fun i => l <= i < u) tr /\ (List.length tr <= k)%nat /\
    I r u' /\ u' <= r.
Proof.
  intros H52 N Hk Hfuel.
  destruct (halving_loop_done Z (original_loop seq tgt key_func)
              (round_step seq tgt key_func) Z.ltb (fun l _ => l) I 1)
    with (k := k) (fuel := fuel) (l := l) (u := u)
    as (tr & r & u' & E & F & Hlen & N' & C & _); auto.
  - intros a b _ L. apply Z.ltb_lt. exact L.
  - intros f a b L. destruct f; cbn [original_loop]; rewrite L; reflexivity.
  - intros f a b Na L. apply Z.ltb_lt in L.
    destruct (I_bounds a b Na) as (? & ? & _). unfold two52 in H52.
    apply original_loop_step; lia.
  - intros a b Na L. apply Z.ltb_lt in L.
    apply round_step_halves; auto.
  - exists tr, r, u'. apply Z.ltb_ge in C.
    repeat split; auto. lia.
Qed.

Lemma v2_loop_halving k fuel l u :
  I l u -> u - l < 2 ^ Z.of_nat k -> (k <= fuel)%nat ->
  exists tr r u',
    v2_loop seq tgt key_func fuel l u = (tr, Done r) /\
    Forall (fun i => l <= i < u) tr /\ (List.length tr <= k)%nat /\
    I r u' /\ u' <= r.
Proof.
  intros N Hk Hfuel.
  destruct (halving_loop_done Z (v2_loop seq tgt key_func)
              (round_step seq tgt key_func) Z.ltb (fun l _ => l) I 1)
    with (k := k) (fuel := fuel) (l := l) (u := u)
    as (tr & r & u' & E & F & Hlen & N' & C & _); auto.
  - intros a b _ L. apply Z.ltb_lt. exact L.
  - intros f a b L. destruct f; cbn [v2_loop]; rewrite L; reflexivity.
  - intros f a b Na L. apply Z.ltb_lt in L.
    destruct (following_range a b Na) as (? & ? & ?).
    apply v2_loop_step; lia.
  - intros a b Na L. apply Z.ltb_lt in L.
    apply round_step_halves; auto.
  - exists tr, r, u'. apply Z.ltb_ge in C.
    repeat split; auto. lia.
Qed.

Lemma v4_loop_halving k fuel l u :
  I l u -> u - l < 2 ^ Z.of_nat k -> (k <= fuel)%nat ->
  exists tr r u',
    v4_loop seq tgt key_func sizeof_Retainer fuel l u = (tr, Done r) /\
    Forall (fun i => l <= i < u) tr /\ (List.length tr <= 3 * k)%nat /\
    I r u' /\ u' <= r.
Proof.
  intros N Hk Hfuel.
  destruct (halving_loop_done Z (v4_loop seq tgt key_func sizeof_Retainer)
              (v4_step seq tgt key_func sizeof_Retainer) Z.ltb
              (fun l _ => l) I 3)
    with (k := k) (fuel := fuel) (l := l) (u := u)
    as (tr & r & u' & E & F & Hlen & N' & C & _); auto.
  - intros a b _ L. apply Z.ltb_lt. exact L.
  - intros f a b L. destruct f; cbn [v4_loop]; rewrite L; reflexivity.
  - intros f a b Na L. apply Z.ltb_lt in L.
    destruct (following_range a b Na) as (? & ? & ?).
    apply v4_loop_step; lia.
  - intros a b Na L. apply Z.ltb_lt in L.
    apply v4_step_halves; auto. apply u0_range.
  - exists tr, r, u'. apply Z.ltb_ge in C.
    repeat split; auto.
Qed.

Lemma v3_loop_halving k fuel l u :
  Int64.in_range (u0 - l0) ->
  I l u -> u - l < 2 ^ Z.of_nat k -> (k <= fuel)%nat ->
  exists tr l' u',
    v3_loop seq tgt key_func fuel l u = (tr, Done (l', u')) /\
    Forall (fun i => l <= i < u) tr /\ (List.length tr <= 3 * k)%nat /\
    I l' u' /\ l <= l' /\ u' <= u /\ u' - l' <= 4.
Proof.
  intros Hsub N Hk Hfuel.
  assert (G : forall a b, I a b -> (4 <? Int64.sub b a) = (4 <? b - a)).
  { intros a b Na. destruct (following_range a b Na) as (? & Hb).
    rewrite sub_small; [reflexivity|].
    destruct (I_bounds a b Na) as (? & ? & ?).
    unfold Int64.in_range, Int64.max_signed, Int64.min_signed in *. lia. }
  destruct (halving_loop_done (Z * Z) (v3_loop seq tgt key_func)
              (v3_step seq tgt key_func) (fun a b => 4 <? Int64.sub b a)
              pair I 3)
    with (k := k) (fuel := fuel) (l := l) (u := u)
    as (tr & r & u' & E & F & Hlen & N' & C & Hl & Hu); auto.
  - intros a b Na L. rewrite G in L by assumption.
    apply Z.ltb_lt in L. lia.
  - intros f a b L. destruct f; cbn [v3_loop]; rewrite L; reflexivity.
  - intros f a b Na L. rewrite G in L by assumption.
    apply Z.ltb_lt in L.
    destruct (following_range a b Na) as (? & Hb).
    apply v3_loop_step; unfold Int64.in_range in Hb; lia.
  - intros a b Na L. rewrite G in L by assumption.
    apply Z.ltb_lt in L. apply v3_step_halves; auto.
  - exists tr, r, u'. rewrite G in C by assumption. apply Z.ltb_ge in C.
    repeat split; auto.
Qed.

End Following.

(** ** Crossings *)

Section Crossings.

Context {Composable time : Type} {ops : TimeOps time} {ord : TimeOrder time}.
Variable seq : list Composable.
Variable tgt : time.
Variable key_func : Composable -> time.
Variables l0 u0 : Z.

#[local] Abbreviation bracketed := (bracketed seq tgt key_func l0 u0).

Lemma bracketed_init : bracketed l0 u0.
Proof.
  split; [lia|]. split; [lia|]. split; [right; auto|]. split; intros; lia.
Qed.

Lemma bracketed_bounds l u :
  bracketed l u -> l0 <= l /\ u <= u0 /\ (l <= u \/ (l = l0 /\ u = u0)).
Proof. intros (? & ? & ? & _). auto. Qed.

Lemma bracketed_left l u m k :
  bracketed l u -> l <= m < u -> key_at seq key_func m = Some k ->
  time_lt tgt k = true -> bracketed l m.
Proof.
  intros (Hl & Hu & Hlu & Hb & Ha) Hm Ek Hk.
  split; [lia|]. split; [lia|]. split; [lia|]. split; [exact Hb|].
  intros _. exists k. rewrite time_gt_lt. auto.
Qed.

Lemma bracketed_right l u m k :
  bracketed l u -> l <= m < u -> key_at seq key_func m = Some k ->
  time_lt tgt k = false -> bracketed (m + 1) u.
Proof.
  intros (Hl & Hu & Hlu & Hb & Ha) Hm Ek Hk.
  split; [lia|]. split; [lia|]. split; [lia|]. split; [|exact Ha].
  intros _. exists k. replace (m + 1 - 1) with m by lia.
  rewrite time_gt_lt. auto.
Qed.

Lemma bracketed_crossing r u' :
  bracketed r u' -> u' <= r ->
  (u0 < l0 -> r = l0) /\ (l0 <= u0 -> crossing seq tgt key_func l0 u0 r).
Proof.
  intros (Hl & Hu & Hlu & Hb & Ha) Hr. split; [lia|].
  intros Hne. split; [lia|]. split; [exact Hb|].
  intros Hru. assert (u' = r) by lia. subst u'. apply Ha. lia.
Qed.

End Crossings.

Section CrossingRuns.

Context {Composable time : Type} {ops : TimeOps time} {ord : TimeOrder time}.
Variable seq : list Composable.
Variable tgt : time.
Variable key_func : Composable -> time.
Variable sizeof_Retainer : Z.
Variable fuel : nat.
Variable error_status : handle.
Variable l : Z.
Variable upper_search_bound : option Z.

#[local] Abbreviation u := (upper_bound seq upper_search_bound).
#[local] Abbreviation bracketed := (bracketed seq tgt key_func l u).
#[local] Abbreviation crossed := (crossed seq tgt key_func error_status l u).

Lemma crossed_intro tr i u' bound :
  Forall (fun p => l <= p < u) tr -> (List.length tr <= bound)%nat ->
  bracketed i u' -> u' <= i ->
  crossed bound (mkRun tr error_status (Done i)).
Proof.
  intros F Hlen N Hi. exists i. simpl.
  destruct (bracketed_crossing seq tgt key_func l u i u' N Hi) as (R1 & R2).
  repeat split; auto; apply R2; auto.
Qed.

Hypothesis l_nonneg : 0 <= l.
Hypothesis l_range : Int64.in_range l.
Hypothesis u_range : Int64.in_range u.
Hypothesis u_size : u <= size seq.
Hypothesis enough_fuel : (rounds (u - l) <= fuel)%nat.

Lemma bisect_right_original_crossed :
  size seq <= two52 ->
  crossed (rounds (u - l))
    (bisect_right_original seq tgt key_func fuel error_status
       (Some l) upper_search_bound).
Proof.
  intros H52. unfold bisect_right_original.
  rewrite with_bounds_search by assumption.
  destruct (original_loop_halving seq tgt key_func l u l_nonneg u_size
              bracketed (bracketed_bounds seq tgt key_func l u)
              (bracketed_left seq tgt key_func l u)
              (bracketed_right seq tgt key_func l u)
              (rounds (u - l)) fuel l u)
    as (tr & r & u' & E & F & Hlen & N & Hr);
    try lia; [apply bracketed_init | apply rounds_spec |].
  rewrite E. simpl. eapply crossed_intro; eauto.
Qed.

Lemma bisect_right_optimized_v2_crossed :
  crossed (rounds (u - l))
    (bisect_right_optimized_v2 seq tgt key_func fuel error_status
       (Some l) upper_search_bound).
Proof.
  unfold bisect_right_optimized_v2.
  rewrite with_bounds_search by assumption.
  destruct (v2_loop_halving seq tgt key_func l u l_nonneg u_size
              bracketed (bracketed_bounds seq tgt key_func l u)
              (bracketed_left seq tgt key_func l u)
              (bracketed_right seq tgt key_func l u)
              (proj2 l_range) u_range
              (rounds (u - l)) fuel l u)
    as (tr & r & u' & E & F & Hlen & N & Hr);
    try lia; [apply bracketed_init | apply rounds_spec |].
  rewrite E. simpl. eapply crossed_intro; eauto.
Qed.

Lemma bisect_right_optimized_v4_crossed :
  crossed (3 * rounds (u - l))
    (bisect_right_optimized_v4 seq tgt key_func sizeof_Retainer fuel
       error_status (Some l) upper_search_bound).
Proof.
  unfold bisect_right_optimized_v4.
  rewrite with_bounds_search by assumption.
  destruct (v4_loop_halving seq tgt key_func sizeof_Retainer l u l_nonneg
              u_size bracketed (bracketed_bounds seq tgt key_func l u)
              (bracketed_left seq tgt key_func l u)
              (bracketed_right seq tgt key_func l u)
              (proj2 l_range) u_range
              (rounds (u - l)) fuel l u)
    as (tr & r & u' & E & F & Hlen & N & Hr);
    try lia; [apply bracketed_init | apply rounds_spec |].
  rewrite E. simpl. eapply crossed_intro; eauto.
Qed.

Lemma bisect_right_optimized_v3_crossed :
  Int64.in_range (u - l) ->
  crossed (3 * rounds (u - l) + 3)
    (bisect_right_optimized_v3 seq tgt key_func fuel error_status
       (Some l) upper_search_bound).
Proof.
  intros Hsub. unfold bisect_right_optimized_v3.
  rewrite with_bounds_search by assumption.
  destruct (v3_loop_halving seq tgt key_func l u l_nonneg
              u_size bracketed (bracketed_bounds seq tgt key_func l u)
              (bracketed_left seq tgt key_func l u)
              (bracketed_right seq tgt key_func l u)
              (proj2 l_range) u_range
              (rounds (u - l)) fuel l u Hsub)
    as (tr1 & l' & u1 & E1 & F1 & Hlen1 & N1 & Hl' & Hu1 & Hsmall);
    try lia; [apply bracketed_init | apply rounds_spec |].
  pose proof (rounds_spec (u - l)) as Hpow.
  destruct (v2_loop_halving seq tgt key_func l u l_nonneg
              u_size bracketed (bracketed_bounds seq tgt key_func l u)
              (bracketed_left seq tgt key_func l u)
              (bracketed_right seq tgt key_func l u)
              (proj2 l_range) u_range
              (Nat.min 3 (rounds (u - l))) fuel l' u1)
    as (tr2 & r & u' & E2 & F2 & Hlen2 & N2 & Hr); try lia; [exact N1| |].
  { destruct (Nat.min_spec 3 (rounds (u - l))) as [(_ & ->)|(_ & ->)].
    - simpl. lia.
    - lia. }
  rewrite E1, bind_done. simpl fst. simpl snd. rewrite E2. simpl.
  eapply crossed_intro; eauto.
  - apply Forall_app. split; [exact F1|].
    eapply Forall_impl; [|exact F2]. simpl. intros; lia.
  - rewrite length_app. lia.
Qed.

End CrossingRuns.

Section TunedEquality.

Context {Composable time : Type} {ops : TimeOps time} {ord : TimeOrder time}.
Variable seq : list Composable.
Variable tgt : time.
Variable key_func : Composable -> time.
Variable sizeof_Retainer : Z.


End TunedEquality.

Lemma in_range_between (l u z : Z) :
  0 <= l -> l <= z -> z <= u -> u <= Int64.max_signed -> Int64.in_range z.
Proof.
  unfold Int64.in_range, Int64.max_signed, Int64.min_signed. lia.
Qed.

Lemma crossed_ends {Composable time : Type} {ops : TimeOps time}
    (seq : list Composable) (tgt : time) (key_func : Composable -> time)
    (es : handle) (l u : Z) (b : nat) (r : run) :
  l <= u -> crossed seq tgt key_func es l u b r ->
  (none_above seq tgt key_func l u -> returned r = Done u) /\
  (all_above seq tgt key_func l u -> returned r = Done l).
Proof.
  intros Hlu (i & E & _ & _ & _ & _ & C).
  destruct (C Hlu) as (Hi & Hbefore & Hat). split.
  - intros Hnone. rewrite E. f_equal.
    destruct (Z_lt_le_dec i u) as [Hiu|]; [exfalso|lia].
    destruct (Hat Hiu) as (k & Ek & Hk).
    rewrite (Hnone i k) in Hk by (auto; lia). discriminate.
  - intros Hall. rewrite E. f_equal.
    destruct (Z_lt_le_dec l i) as [Hli|]; [exfalso|lia].
    destruct (Hbefore Hli) as (k & Ek & Hk).
    rewrite (Hall (i - 1) k) in Hk by (auto; lia). discriminate.
Qed.

(** ** More about the bisections *)

(** X1.  On any sequence, sorted or not, each bisection returns a crossing
    of the sub-range: an index of [[lower, upper]] with a key that is not
    above [tgt] just before it and a key above [tgt] at it, wherever the
    sub-range has those positions. *)
Theorem bisections_return_crossing
    {Composable time : Type} {ops : TimeOps time} {ord : TimeOrder time}
    (seq : list Composable) (tgt : time) (key_func : Composable -> time)
    (sizeof_Retainer : Z) (fuel : nat) (error_status : handle) (l : Z)
    (upper_search_bound : option Z) :
  let u := upper_bound seq upper_search_bound in
  let found (r : run) :=
    exists i, returned r = Done i /\ crossing seq tgt key_func l u i in
  0 <= l -> l <= u -> u <= size seq -> u <= Int64.max_signed ->
  (rounds (u - l) <= fuel)%nat ->
  found (bisect_right_optimized_v2 seq tgt key_func fuel error_status
           (Some l) upper_search_bound) /\
  found (bisect_right_optimized_v3 seq tgt key_func fuel error_status
           (Some l) upper_search_bound) /\
  found (bisect_right_optimized_v4 seq tgt key_func sizeof_Retainer fuel
           error_status (Some l) upper_search_bound) /\
  (size seq <= two52 ->
   found (bisect_right_original seq tgt key_func fuel error_status
            (Some l) upper_search_bound)).
Proof.
  intros u found Hl Hlu Hs Hmax Hfuel.
  assert (Rl : Int64.in_range l) by (apply (in_range_between l u); lia).
  assert (Ru : Int64.in_range u) by (apply (in_range_between l u); lia).
  assert (Rs : Int64.in_range (u - l)) by (apply (in_range_between 0 u); lia).
  assert (S : forall b r, crossed seq tgt key_func error_status l u b r ->
                          found r).
  { intros b r (i & E & _ & _ & _ & _ & C). exists i. auto. }
  split; [|split; [|split]].
  - eapply S, bisect_right_optimized_v2_crossed; assumption.
  - eapply S, bisect_right_optimized_v3_crossed; assumption.
  - eapply S, bisect_right_optimized_v4_crossed; assumption.
  - intros H52. eapply S, bisect_right_original_crossed; assumption.
Qed.



(** X4.  While the upper bound is at most [2^52], the branch-free variant
    is the reference run for run: the same probes in the same order, the
    same handle and the same outcome, on any sequence, with any bounds
    (absent, negative or beyond the sequence included) and at any depth. *)
Theorem optimized_v2_retraces_original
    {Composable time : Type} {ops : TimeOps time} {ord : TimeOrder time}
    (seq : list Composable) (tgt : time) (key_func : Composable -> time)
    (fuel : nat) (error_status : handle)
    (lower_search_bound upper_search_bound : option Z) :
  upper_bound seq upper_search_bound <= two52 ->
  bisect_right_optimized_v2 seq tgt key_func fuel error_status
    lower_search_bound upper_search_bound
  = bisect_right_original seq tgt key_func fuel error_status
      lower_search_bound upper_search_bound.
Proof.
  intros Hu. unfold bisect_right_optimized_v2, bisect_right_original,
    with_bounds.
  destruct lower_search_bound as [l|]; [|reflexivity].
  destruct (Z.ltb_spec l 0); [reflexivity|].
  rewrite v2_loop_original by lia. reflexivity.
Qed.


Section SortedRuns.

Context {Composable time : Type} {ops : TimeOps time} {ord : TimeOrder time}.
Variable seq : list Composable.
Variable key_func : Composable -> time.

(** Over sorted keys a crossing is the boundary. *)
Lemma crossing_boundary tgt l u r :
  sorted_on seq key_func l u -> crossing seq tgt key_func l u r ->
  boundary seq tgt key_func l u r.
Proof.
  intros Hs (Hr & Hbefore & Hat). split; [exact Hr|]. split.
  - destruct (Z_lt_le_dec l r) as [Hlr|Hlr].
    + destruct (Hbefore Hlr) as (k & Ek & Hk). rewrite time_gt_lt in Hk.
      replace r with (r - 1 + 1) by lia.
      apply (none_above_extend seq tgt key_func l u l (r - 1) k); auto;
        [|lia].
      intros i ki Hi. lia.
    + intros i ki Hi. lia.
  - destruct (Z_lt_le_dec r u) as [Hru|Hru].
    + destruct (Hat Hru) as (k & Ek & Hk). rewrite time_gt_lt in Hk.
      apply (all_above_extend seq tgt key_func l u u r k); auto; [|lia].
      intros i ki Hi. lia.
    + intros i ki Hi. lia.
Qed.

Lemma crossed_boundary tgt es l u b r :
  l <= u -> sorted_on seq key_func l u ->
  crossed seq tgt key_func es l u b r ->
  exists i, returned r = Done i /\ boundary seq tgt key_func l u i.
Proof.
  intros Hlu Hs (i & E & _ & _ & _ & _ & C). exists i.
  split; [exact E|]. apply crossing_boundary; auto.
Qed.

(** On a sorted sub-range of a sequence of at most [2^52] elements the four
    functions return the boundary. *)
Lemma four_runs_boundary tgt sizeof_Retainer fuel es l upper_search_bound :
  let u := upper_bound seq upper_search_bound in
  0 <= l -> l <= u -> u <= size seq -> size seq <= two52 ->
  sorted_on seq key_func l u -> (rounds (u - l) <= fuel)%nat ->
  exists i,
    boundary seq tgt key_func l u i /\
    Forall (fun r => returned r = Done i)
      (four_runs seq tgt key_func sizeof_Retainer fuel es (Some l)
         upper_search_bound).
Proof.
  intros u Hl Hlu Hu H52 Hs Hfuel.
  assert (Hmax : u <= Int64.max_signed)
    by (unfold two52, Int64.max_signed in *; lia).
  assert (Rl : Int64.in_range l) by (apply (in_range_between l u); lia).
  assert (Ru : Int64.in_range u) by (apply (in_range_between l u); lia).
  assert (Rs : Int64.in_range (u - l)) by (apply (in_range_between 0 u); lia).
  destruct (crossed_boundary tgt es l u _ _ Hlu Hs
              (bisect_right_original_crossed seq tgt key_func fuel es l
                 upper_search_bound Hl Hu Hfuel H52)) as (i0 & E0 & B0).
  destruct (crossed_boundary tgt es l u _ _ Hlu Hs
              (bisect_right_optimized_v2_crossed seq tgt key_func fuel es l
                 upper_search_bound Hl Rl Ru Hu Hfuel)) as (i2 & E2 & B2).
  destruct (crossed_boundary tgt es l u _ _ Hlu Hs
              (bisect_right_optimized_v3_crossed seq tgt key_func fuel es l
                 upper_search_bound Hl Rl Ru Hu Hfuel Rs)) as (i3 & E3 & B3).
  destruct (crossed_boundary tgt es l u _ _ Hlu Hs
              (bisect_right_optimized_v4_crossed seq tgt key_func
                 sizeof_Retainer fuel es l upper_search_bound Hl Rl Ru Hu
                 Hfuel)) as (i4 & E4 & B4).
  assert (i2 = i0) by (eapply boundary_unique; eauto).
  assert (i3 = i0) by (eapply boundary_unique; eauto).
  assert (i4 = i0) by (eapply boundary_unique; eauto).
  subst. exists i0. split; [exact B0|].
  repeat constructor; assumption.
Qed.

End SortedRuns.

(** X6.  Over sorted keys the returned index does not decrease when the
    target grows: for [tgt <= tgt'] and the same bounds, what the four
    functions return for [tgt] is at most what they return for [tgt']. *)
Theorem bisections_monotone_in_target
    {Composable time : Type} {ops : TimeOps time} {ord : TimeOrder time}
    (seq : list Composable) (tgt tgt' : time) (key_func : Composable -> time)
    (sizeof_Retainer : Z) (fuel : nat) (error_status : handle) (l : Z)
    (upper_search_bound : option Z) :
  let u := upper_bound seq upper_search_bound in
  0 <= l -> l <= u -> u <= size seq -> size seq <= two52 ->
  sorted_on seq key_func l u -> (rounds (u - l) <= fuel)%nat ->
  time_le tgt tgt' = true ->
  exists i i',
    Forall (fun r => returned r = Done i)
      (four_runs seq tgt key_func sizeof_Retainer fuel error_status
         (Some l) upper_search_bound) /\
    Forall (fun r => returned r = Done i')
      (four_runs seq tgt' key_func sizeof_Retainer fuel error_status
         (Some l) upper_search_bound) /\
    i <= i'.
Proof.
  intros u Hl Hlu Hu H52 Hs Hfuel Hle.
  destruct (four_runs_boundary seq key_func tgt sizeof_Retainer fuel
              error_status l upper_search_bound Hl Hlu Hu H52 Hs Hfuel)
    as (i & (Hi & Hnone & _) & F).
  destruct (four_runs_boundary seq key_func tgt' sizeof_Retainer fuel
              error_status l upper_search_bound Hl Hlu Hu H52 Hs Hfuel)
    as (i' & (Hi' & _ & Hall') & F').
  exists i, i'. split; [exact F|]. split; [exact F'|].
  destruct (Z_lt_le_dec i' i) as [Hlt|]; [exfalso|lia].
  destruct (key_at_in_bounds seq key_func i') as (k & Ek); [fold u in Hi; lia|].
  pose proof (Hnone i' k ltac:(lia) Ek) as H1.
  pose proof (Hall' i' k ltac:(fold u in Hi; lia) Ek) as H2.
  rewrite time_gt_lt in H1, H2.
  assert (L1 : time_le k tgt = true) by (rewrite time_le_lt, H1; reflexivity).
  pose proof (time_le_trans _ _ _ L1 Hle) as L2.
  rewrite time_le_lt, H2 in L2. discriminate.
Qed.


Lemma sortedb_app {time : Type} {ops : TimeOps time} (A B : list time) :
  sortedb (A ++ B) = true <->
  sortedb A = true /\ sortedb B = true /\
  (forall a b, In a A -> In b B -> time_le a b = true).
Proof.
  induction A as [|x A IH].
  - simpl. split.
    + intros H. split; [reflexivity|]. split; [exact H|]. intros a b [].
    + intros (_ & H & _). exact H.
  - cbn [app sortedb]. rewrite !andb_true_iff, IH, forallb_app.
    rewrite andb_true_iff, !forallb_forall. split.
    + intros ((HxA & HxB) & HA & HB & HAB).
      split; [split; assumption|]. split; [assumption|].
      intros a b [<-|Ha] Hb; auto.
    + intros ((HxA & HA) & HB & HAB).
      split; [split; [assumption|]|].
      * intros b Hb. apply HAB; [left; reflexivity | exact Hb].
      * split; [assumption|]. split; [assumption|].
        intros a b Ha Hb. apply HAB; [right; exact Ha | exact Hb].
Qed.

(** X8.  The returned index is an insertion point: in a sorted sequence,
    an element whose key is [tgt], put at the index the four functions
    return for [tgt] with the default bounds, leaves the sequence sorted,
    with every key before it at most [tgt] and every key after it above
    [tgt]. *)
Theorem bisections_insertion_point
    {Composable time : Type} {ops : TimeOps time} {ord : TimeOrder time}
    (seq : list Composable) (tgt : time) (key_func : Composable -> time)
    (sizeof_Retainer : Z) (fuel : nat) (error_status : handle)
    (x : Composable) :
  (forall a b, time_lt a b = true -> time_lt b a = false) ->
  size seq <= two52 ->
  sortedb (map key_func seq) = true ->
  key_func x = tgt ->
  (rounds (size seq) <= fuel)%nat ->
  exists i,
    Forall (fun r => returned r = Done i)
      (four_runs seq tgt key_func sizeof_Retainer fuel error_status
         (Some 0) None) /\
    0 <= i <= size seq /\
    let before := firstn (Z.to_nat i) seq in
    let after := skipn (Z.to_nat i) seq in
    sortedb (map key_func (before ++ x :: after)) = true /\
    Forall (fun c => time_le (key_func c) tgt = true) before /\
    Forall (fun c => time_gt (key_func c) tgt = true) after.
Proof.
  intros Hasym H52 Hsorted Hx Hfuel.
  pose proof (upper_bound_default seq H52) as Eu.
  assert (Hn : 0 <= size seq) by (unfold size; lia).
  destruct (four_runs_boundary seq key_func tgt sizeof_Retainer fuel
              error_status 0 None) as (i & B & F);
    rewrite ?Eu; auto; try lia.
  { apply sortedb_sorted_on. exact Hsorted. }
  { rewrite Z.sub_0_r. exact Hfuel. }
  rewrite Eu in B. destruct B as (Hi & Hnone & Hall).
  exists i. split; [exact F|]. split; [exact Hi|].
  intros before after.
  assert (Hb : Forall (fun c => time_le (key_func c) tgt = true) before).
  { apply Forall_forall. intros c Hc. apply In_nth_error in Hc.
    destruct Hc as (n & Hc). unfold before in Hc.
    rewrite nth_error_firstn in Hc.
    destruct (Nat.ltb_spec n (Z.to_nat i)); [|discriminate].
    pose proof (Hnone (Z.of_nat n) (key_func c) ltac:(lia)
                  (key_at_nth seq key_func n c Hc)) as G.
    rewrite time_gt_lt in G. rewrite time_le_lt, G. reflexivity. }
  assert (Ha : Forall (fun c => time_gt (key_func c) tgt = true) after).
  { apply Forall_forall. intros c Hc. apply In_nth_error in Hc.
    destruct Hc as (n & Hc). unfold after in Hc.
    rewrite nth_error_skipn in Hc.
    assert (Z.to_nat i + n < List.length seq)%nat
      by (apply nth_error_Some; congruence).
    apply (Hall (Z.of_nat (Z.to_nat i + n)) (key_func c));
      [unfold size in *; lia|].
    apply key_at_nth. exact Hc. }
  split; [|split; assumption].
  rewrite map_app. cbn [map]. rewrite Hx.
  unfold before, after. rewrite <- firstn_map, <- skipn_map.
  rewrite <- (firstn_skipn (Z.to_nat i) (map key_func seq)) in Hsorted.
  apply sortedb_app in Hsorted. destruct Hsorted as (SA & SB & SAB).
  apply sortedb_app. split; [exact SA|]. split.
  - cbn [sortedb]. rewrite SB, andb_true_r. apply forallb_forall.
    intros k Hk. rewrite skipn_map in Hk. apply in_map_iff in Hk.
    destruct Hk as (c & <- & Hc).
    rewrite Forall_forall in Ha. specialize (Ha c Hc).
    rewrite time_gt_lt in Ha. rewrite time_le_lt, (Hasym _ _ Ha). reflexivity.
  - intros a b HaA [<-|HbB].
    + rewrite firstn_map in HaA. apply in_map_iff in HaA.
      destruct HaA as (c & <- & Hc). rewrite Forall_forall in Hb. auto.
    + apply SAB; assumption.
Qed.

Module BenchmarkFacts.
Import Benchmark.

Lemma create_test_data_throws n :
  n < 0 -> create_test_data n = Throws length_error.
Proof.
  intros Hn. unfold create_test_data.
  destruct (Z.ltb_spec n 0); [reflexivity | lia].
Qed.

Lemma create_test_data_returns n :
  0 <= n ->
  exists data,
    create_test_data n = Returns data /\ size data = n /\
    forall i k, key_at data key_func i = Some k -> k = 1.
Proof.
  intros Hn. unfold create_test_data.
  destruct (Z.ltb_spec n 0); [lia|].
  exists (repeat new_Clip (Z.to_nat n)). split; [reflexivity|]. split.
  - unfold size. rewrite repeat_length. lia.
  - intros i k E. apply key_at_repeat in E. exact E.
Qed.

End BenchmarkFacts.
Import Benchmark BenchmarkFacts.

(** X9.  For an [int] [n], each of the four benchmark drivers either
    never searches or takes the rightmost path.  A negative [n] makes
    [create_test_data] throw [std::length_error], and the driver leaves
    with it before any search.  Otherwise every iteration searches [n]
    clips, all with the key 1, for the target [n / 2]: over two clips or
    more each variant returns [n], over one clip or none the target is 0
    and each returns 0; the status stays as constructed, and at most as
    many probes are made as X3 allows. *)
Theorem benchmarks_return_the_length (sizeof_Retainer : Z) (fuel : nat)
    (n : Z) :
  - 2147483648 <= n <= 2147483647 -> (rounds n <= fuel)%nat ->
  Forall (fun d =>
            if n <? 0 then d = Throws length_error
            else
              exists r,
                d = Returns r /\
                returned r = Done (if 2 <=? n then n else 0) /\
                status r = Some fresh_status /\
                (List.length (probes r) <= 3 * rounds n + 3)%nat)
    [ BM_BisectRight_Original fuel n;
      BM_BisectRight_Optimized_V2 fuel n;
      BM_BisectRight_Optimized_V3 fuel n;
      BM_BisectRight_Optimized_V4 sizeof_Retainer fuel n ].
Proof.
  intros Hn Hfuel.
  unfold BM_BisectRight_Original, BM_BisectRight_Optimized_V2,
    BM_BisectRight_Optimized_V3, BM_BisectRight_Optimized_V4.
  destruct (Z.ltb_spec n 0) as [Hneg|Hpos].
  { rewrite (create_test_data_throws n Hneg).
    repeat apply Forall_cons; try reflexivity. apply Forall_nil. }
  destruct (create_test_data_returns n Hpos) as (data & -> & Es & Keys).
  assert (H52 : size data <= two52) by (rewrite Es; unfold two52; lia).
  pose proof (upper_bound_default _ H52) as Eu. rewrite Es in Eu.
  assert (Rn : Int64.in_range n) by (apply in_range_intro; lia).
  assert (R0 : Int64.in_range 0) by (apply in_range_intro; lia).
  assert (Ends :
    (if 2 <=? n then none_above data (target n) key_func 0 n
     else all_above data (target n) key_func 0 n)).
  { unfold target, RationalTime. rewrite Z.quot_div_nonneg by lia.
    destruct (Z.leb_spec 2 n) as [H2|H2].
    - intros i k _ Ek. apply Keys in Ek. subst k.
      assert (1 <= n / 2) by (apply Z.div_le_lower_bound; lia).
      simpl. rewrite Z.gtb_ltb. apply Z.ltb_ge. lia.
    - intros i k _ Ek. apply Keys in Ek. subst k.
      rewrite Z.div_small by lia. reflexivity. }
  assert (S : forall b r,
            (b <= 3 * rounds n + 3)%nat ->
            crossed data (target n) key_func (Some fresh_status) 0 n b r ->
            exists r',
              Returns r = Returns r' /\
              returned r' = Done (if 2 <=? n then n else 0) /\
              status r' = Some fresh_status /\
              (List.length (probes r') <= 3 * rounds n + 3)%nat).
  { intros b r Hb C. exists r. split; [reflexivity|].
    destruct (crossed_ends _ _ _ _ _ _ _ _ Hpos C) as (E1 & E2).
    destruct C as (i & _ & St & _ & Hlen & _).
    split; [|split; [exact St | lia]].
    destruct (2 <=? n); auto. }
  repeat apply Forall_cons; [ | | | | apply Forall_nil ].
  - apply (S (rounds n)); [lia|].
    pose proof (bisect_right_original_crossed data (target n)
                  key_func fuel (Some fresh_status) 0 None) as C.
    rewrite Eu, Z.sub_0_r in C. apply C; auto; lia.
  - apply (S (rounds n)); [lia|].
    pose proof (bisect_right_optimized_v2_crossed data
                  (target n) key_func fuel (Some fresh_status) 0 None) as C.
    rewrite Eu, Z.sub_0_r in C. apply C; auto; lia.
  - apply (S (3 * rounds n + 3)%nat); [lia|].
    pose proof (bisect_right_optimized_v3_crossed data
                  (target n) key_func fuel (Some fresh_status) 0 None) as C.
    rewrite Eu, Z.sub_0_r in C. apply C; auto; lia.
  - apply (S (3 * rounds n)%nat); [lia|].
    pose proof (bisect_right_optimized_v4_crossed data
                  (target n) key_func sizeof_Retainer fuel
                  (Some fresh_status) 0 None) as C.
    rewrite Eu, Z.sub_0_r in C. apply C; auto; lia.
Qed.

(** X18.  With an upper bound at or below a lower bound that is not
    negative, the bisections return the lower bound without looking at the
    sequence and without touching the handle, at any depth and whatever the
    bounds are to the length of the sequence; for v3 as long as
    [upper - lower] is an [int64_t]. *)
Theorem bisections_inverted_bounds
    {Composable time : Type} {ops : TimeOps time}
    (seq : list Composable) (tgt : time) (key_func : Composable -> time)
    (sizeof_Retainer : Z) (fuel : nat) (error_status : handle) (l : Z)
    (upper_search_bound : option Z) :
  let u := upper_bound seq upper_search_bound in
  let untouched := mkRun [] error_status (Done l) in
  0 <= l -> u <= l ->
  bisect_right_original seq tgt key_func fuel error_status
    (Some l) upper_search_bound = untouched /\
  bisect_right_optimized_v2 seq tgt key_func fuel error_status
    (Some l) upper_search_bound = untouched /\
  bisect_right_optimized_v4 seq tgt key_func sizeof_Retainer fuel
    error_status (Some l) upper_search_bound = untouched /\
  (Int64.in_range (u - l) ->
   bisect_right_optimized_v3 seq tgt key_func fuel error_status
     (Some l) upper_search_bound = untouched).
Proof.
  intros u untouched Hl Hul. subst untouched.
  unfold bisect_right_original, bisect_right_optimized_v2,
    bisect_right_optimized_v3, bisect_right_optimized_v4, with_bounds.
  fold u. destruct (Z.ltb_spec l 0) as [|_]; [lia|].
  assert (E : (l <? u) = false) by (apply Z.ltb_ge; exact Hul).
  split; [|split; [|split]].
  - destruct fuel; cbn [original_loop]; rewrite E; reflexivity.
  - destruct fuel; cbn [v2_loop]; rewrite E; reflexivity.
  - destruct fuel; cbn [v4_loop]; rewrite E; reflexivity.
  - intros Hr.
    assert (E3 : (4 <? Int64.sub u l) = false).
    { rewrite sub_small by exact Hr. apply Z.ltb_ge. lia. }
    destruct fuel; cbn [v3_loop v2_loop]; rewrite E3; cbn; rewrite E;
      reflexivity.
Qed.

Lemma bisections_inverted_bounds_witness :
  bisect_right_original [5; 1; 9] 4 id_key 0 None (Some 7) (Some 2)
  = mkRun [] None (Done 7) /\
  bisect_right_optimized_v3 [5; 1; 9] 4 id_key 0 None (Some 7) (Some 2)
  = mkRun [] None (Done 7).
Proof.
  destruct (bisections_inverted_bounds [5; 1; 9] 4 id_key 8 0 None 7
              (Some 2)) as (E0 & _ & _ & E3).
  - lia.
  - vm_compute. discriminate.
  - split; [exact E0|]. apply E3. apply in_range_intro. vm_compute.
    split; discriminate.
Defined.

(** ** More about [find_children] *)

Section WalkMore.

Context {Meta TimeRange : Type}.
Variable children_in_range :
  Composable Meta -> TimeRange -> handle -> list (Composable Meta) * handle.
Variable transformed_time_range :
  Composable Meta -> TimeRange -> Composable Meta -> handle ->
  TimeRange * handle.

#[local] Abbreviation loop is_T :=
  (find_children_loop is_T transformed_time_range).
#[local] Abbreviation find is_T :=
  (find_children is_T children_in_range transformed_time_range).

(** *** Without a range *)

Lemma loop_without_range is_T recurse this shallow children :
  (forall c, In c children -> is_composition c = true ->
     forall es, exists out, recurse c es None = Some (out, es)) ->
  forall out es,
    exists out',
      loop is_T recurse this shallow children out None es = Some (out', es).
Proof.
  induction children as [|child rest IH]; intros Hrec out es.
  - eexists. reflexivity.
  - assert (IH' := IH (fun c Hin => Hrec c (or_intror Hin))).
    cbn [find_children_loop].
    destruct (negb shallow); [|apply IH'].
    destruct (is_composition child) eqn:Hc; [|apply IH'].
    destruct (Hrec child (or_introl eq_refl) Hc es) as (v & ->).
    destruct (is_error es); [eexists; reflexivity | apply IH'].
Qed.

Lemma find_without_range is_T fuel : forall this es shallow,
  (height this < fuel)%nat ->
  exists out, find is_T fuel this es None shallow = Some (out, es).
Proof.
  induction fuel as [|fuel IH]; intros this es shallow Hh; [lia|].
  rewrite find_children_unfold. cbn [narrowing fst snd].
  apply loop_without_range. intros c Hin _ es'.
  apply IH. apply height_children in Hin. lia.
Qed.

(** *** A handle that already holds an error *)

Lemma loop_stale_error is_T recurse this children es :
  is_error es = true ->
  (forall c, In c children -> is_composition c = true ->
     exists out, recurse c es None = Some (out, es)) ->
  forall out,
    loop is_T recurse this false children out None es
    = Some (out ++ filter is_T (through_first_composition children), es).
Proof.
  intros He. induction children as [|child rest IH]; intros Hrec out.
  - cbn. rewrite app_nil_r. reflexivity.
  - assert (IH' := IH (fun c Hin => Hrec c (or_intror Hin))).
    cbn [find_children_loop negb through_first_composition filter].
    destruct (is_composition child) eqn:Hc.
    + destruct (Hrec child (or_introl eq_refl) Hc) as (v & ->).
      rewrite He. cbn [filter].
      destruct (is_T child); [reflexivity | rewrite app_nil_r; reflexivity].
    + rewrite IH'. destruct (is_T child); [|reflexivity].
      rewrite <- app_assoc. reflexivity.
Qed.

(** *** Shallow and deep *)

Lemma blocks_cover is_T
    (recurse : Composable Meta -> handle -> option TimeRange -> walk)
    (children : list (Composable Meta)) blocks :
  Forall2 (block_of is_T recurse) children blocks ->
  incl (filter is_T children) (List.concat blocks).
Proof.
  induction 1 as [|child block children blocks Hb _ IH]; [intros x []|].
  intros x Hx. cbn [filter] in Hx. cbn [List.concat]. apply in_or_app.
  destruct Hb as (sub & -> & _).
  destruct (is_T child) eqn:Ht.
  - destruct Hx as [<-|Hx]; [|right; apply IH; exact Hx].
    left. apply in_or_app. left. unfold own_entry. rewrite Ht. left.
    reflexivity.
  - right. apply IH. exact Hx.
Qed.

(** *** Filters within filters *)

Lemma filter_within (is_U is_T : Composable Meta -> bool) :
  (forall c, is_U c = true -> is_T c = true) ->
  forall l, filter is_U (filter is_T l) = filter is_U l.
Proof.
  intros Hsub. induction l as [|c l IH]; [reflexivity|].
  cbn [filter]. destruct (is_T c) eqn:Ht.
  - cbn [filter]. rewrite IH. reflexivity.
  - destruct (is_U c) eqn:Hu; [|exact IH].
    apply Hsub in Hu. congruence.
Qed.

Lemma filtered_within (is_U is_T : Composable Meta -> bool) :
  (forall c, is_U c = true -> is_T c = true) ->
  forall w : walk, filtered is_U (filtered is_T w) = filtered is_U w.
Proof.
  intros Hsub [[out es]|]; [|reflexivity].
  cbn [filtered option_map fst snd]. rewrite filter_within by exact Hsub.
  reflexivity.
Qed.

(** *** The loop of the text and the loop of the code *)

Lemma specified_shallow_loop is_T recurse this children :
  forall out range es,
    specified_loop is_T transformed_time_range recurse this true children
      out range es
    = Some (out ++ filter is_T children, es).
Proof.
  induction children as [|child rest IH]; intros out range es; simpl.
  - rewrite app_nil_r. reflexivity.
  - rewrite IH. destruct (is_T child); [|reflexivity].
    rewrite <- app_assoc. reflexivity.
Qed.

Lemma loop_specified_without_range is_T recurse recurse' this shallow
    children :
  (forall c e, recurse c e None = recurse' c e None) ->
  forall out es,
    loop is_T recurse this shallow children out None es
    = specified_loop is_T transformed_time_range recurse' this shallow
        children out None es.
Proof.
  intros Hrec. induction children as [|child rest IH]; intros out es;
    [reflexivity|].
  cbn [find_children_loop specified_loop].
  destruct (negb shallow); [|apply IH].
  destruct (is_composition child); [|apply IH].
  rewrite Hrec. destruct (recurse' child es None) as [[v e2]|]; [|reflexivity].
  destruct (is_error e2); [reflexivity | apply IH].
Qed.

Lemma loop_no_composition is_T recurse this children :
  filter is_composition children = [] ->
  forall out range es,
    loop is_T recurse this false children out range es
    = Some (out ++ filter is_T children, es).
Proof.
  induction children as [|child rest IH]; intros Hf out range es.
  - cbn. rewrite app_nil_r. reflexivity.
  - cbn [filter] in Hf. cbn [find_children_loop negb filter].
    destruct (is_composition child); [discriminate|].
    rewrite (IH Hf). destruct (is_T child); [|reflexivity].
    rewrite <- app_assoc. reflexivity.
Qed.

Lemma specified_loop_no_composition is_T recurse this children :
  filter is_composition children = [] ->
  forall out range es,
    specified_loop is_T transformed_time_range recurse this false children
      out range es
    = Some (out ++ filter is_T children, es).
Proof.
  induction children as [|child rest IH]; intros Hf out range es.
  - cbn. rewrite app_nil_r. reflexivity.
  - cbn [filter] in Hf. cbn [specified_loop negb filter].
    destruct (is_composition child); [discriminate|].
    rewrite (IH Hf). destruct (is_T child); [|reflexivity].
    rewrite <- app_assoc. reflexivity.
Qed.

(** *** Below the composition *)

Lemma blocks_below is_T
    (recurse : Composable Meta -> handle -> option TimeRange -> walk)
    (visited : list (Composable Meta)) blocks :
  (forall c es r sub es',
     In c visited -> recurse c es r = Some (sub, es') ->
     incl sub (matches_below is_T c)) ->
  Forall2 (block_of is_T recurse) visited blocks ->
  incl (List.concat blocks)
    (flat_map (fun c => own_entry is_T c ++ matches_below is_T c) visited).
Proof.
  intros Hrec H.
  induction H as [|child block children blocks Hb _ IH]; [intros x []|].
  intros x Hx. cbn [List.concat] in Hx. cbn [flat_map].
  apply in_app_or in Hx. apply in_or_app. destruct Hx as [Hx|Hx].
  - left. destruct Hb as (sub & -> & Hsub).
    apply in_app_or in Hx. apply in_or_app.
    destruct Hx as [Hx|Hx]; [left; exact Hx|].
    destruct Hsub as [->|(_ & es & r & es' & Hr)]; [destruct Hx|].
    right. apply (Hrec child es r sub es'); [left; reflexivity|exact Hr|].
    exact Hx.
  - right. apply IH; [|exact Hx].
    intros c es r sub es' Hin. apply Hrec. right. exact Hin.
Qed.

Lemma flat_map_incl {A B : Type} (f : A -> list B) (l l' : list A) :
  incl l l' -> incl (flat_map f l) (flat_map f l').
Proof.
  intros Hi x Hx. apply in_flat_map in Hx. destruct Hx as (a & Ha & Hx).
  apply in_flat_map. exists a. split; [apply Hi; exact Ha | exact Hx].
Qed.

Lemma filter_own_entry is_T (children : list (Composable Meta)) :
  incl (filter is_T children)
    (flat_map (fun c => own_entry is_T c ++ matches_below is_T c) children).
Proof.
  intros x Hx. apply filter_In in Hx. destruct Hx as (Hin & Ht).
  apply in_flat_map. exists x. split; [exact Hin|].
  apply in_or_app. left. unfold own_entry. rewrite Ht. left. reflexivity.
Qed.

Lemma find_below is_T :
  narrows_to_children children_in_range ->
  forall fuel this es range shallow out es',
    find is_T fuel this es range shallow = Some (out, es') ->
    incl out (matches_below is_T this).
Proof.
  intros Hn. induction fuel as [|fuel IH];
    intros this es range shallow out es' E; [discriminate|].
  rewrite find_children_unfold in E.
  destruct (match range with Some _ => _ | None => false end).
  { injection E as <- <-. intros x []. }
  assert (Hc : incl (fst (narrowing children_in_range this es range))
                 (_children this)).
  { unfold narrowing. destruct range as [r|]; [apply Hn | apply incl_refl]. }
  rewrite matches_below_children.
  destruct shallow.
  - rewrite shallow_loop in E. injection E as <- <-. cbn [app].
    intros x Hx. apply (flat_map_incl _ _ _ Hc).
    apply filter_own_entry. exact Hx.
  - apply loop_blocks in E.
    destruct E as (visited & rest & blocks & E1 & _ & E3 & ->).
    cbn [app]. intros x Hx.
    apply (flat_map_incl _ visited).
    + intros c Hin. apply Hc. rewrite E1. apply in_or_app. left. exact Hin.
    + revert x Hx. refine (blocks_below is_T _ visited blocks _ E3).
      intros c e r sub e' _ Hr. apply (IH c e r false sub e'). exact Hr.
Qed.

(** *** Without a handle *)

Lemma loop_unchecked is_T recurse recurse' this shallow children :
  (forall this r c, snd (transformed_time_range this r c None) = None) ->
  (forall c r, In c children ->
     recurse c None r = Some (recurse' c r, None)) ->
  forall out range,
    loop is_T recurse this shallow children out range None
    = Some (out ++ unchecked_loop is_T transformed_time_range recurse' this
                     shallow children range,
            None).
Proof.
  intros Ht. induction children as [|child rest IH]; intros Hrec out range.
  - cbn. rewrite app_nil_r. reflexivity.
  - assert (IH' := IH (fun c r Hin => Hrec c r (or_intror Hin))).
    cbn [find_children_loop unchecked_loop].
    rewrite (own_entry_push is_T).
    destruct (negb shallow); cbn [andb];
      [|rewrite IH', app_assoc; reflexivity].
    destruct (is_composition child);
      [|rewrite IH', app_assoc; reflexivity].
    destruct range as [r|]; cbn [option_map].
    + pose proof (Ht this r child) as Hn.
      destruct (transformed_time_range this r child None) as [r' es1].
      cbn [fst snd] in *. subst es1. cbn [is_error].
      rewrite (Hrec child (Some r') (or_introl eq_refl)). cbn [is_error].
      rewrite IH', !app_assoc. reflexivity.
    + rewrite (Hrec child None (or_introl eq_refl)). cbn [is_error].
      rewrite IH', !app_assoc. reflexivity.
Qed.

Lemma find_unchecked is_T :
  handle_stays_null children_in_range transformed_time_range ->
  narrows_below children_in_range ->
  forall fuel this range shallow,
    (height this < fuel)%nat ->
    find is_T fuel this None range shallow
    = Some (unchecked_find_children is_T children_in_range
              transformed_time_range fuel this range shallow,
            None).
Proof.
  intros (Hc & Ht) Hb. induction fuel as [|fuel IH];
    intros this range shallow Hh; [lia|].
  rewrite find_children_unfold. cbn [unchecked_find_children].
  assert (Hn : snd (narrowing children_in_range this None range) = None).
  { unfold narrowing. destruct range; [apply Hc | reflexivity]. }
  assert (Hf : fst (narrowing children_in_range this None range)
               = match range with
                 | Some r => fst (children_in_range this r None)
                 | None => _children this
                 end)
    by (unfold narrowing; destruct range; reflexivity).
  rewrite Hn. cbn [is_error].
  replace (match range with Some _ => false | None => false end)
    with false by (destruct range; reflexivity).
  rewrite <- Hf.
  apply (loop_unchecked is_T _ _ this shallow _ Ht) with (out := []).
  intros c r Hin. apply IH.
  apply (narrowing_below children_in_range this None range) in Hin;
    [lia | exact Hb].
Qed.

End WalkMore.

Section WalkSpecified.

Context {Meta TimeRange : Type}.
Variable is_T : Composable Meta -> bool.
Variable children_in_range :
  Composable Meta -> TimeRange -> handle -> list (Composable Meta) * handle.
Variable transformed_time_range :
  Composable Meta -> TimeRange -> Composable Meta -> handle ->
  TimeRange * handle.

Lemma loop_specified_single recurse this children :
  (List.length (filter is_composition children) <= 1)%nat ->
  forall out range es,
    find_children_loop is_T transformed_time_range recurse this false
      children out range es
    = specified_loop is_T transformed_time_range recurse this false
        children out range es.
Proof.
  induction children as [|child rest IH]; intros H out range es;
    [reflexivity|].
  cbn [find_children_loop specified_loop negb]. cbn [filter] in H.
  destruct (is_composition child) eqn:Hc; [|apply IH; exact H].
  assert (Hf : filter is_composition rest = []).
  { destruct (filter is_composition rest); [reflexivity|].
    cbn [List.length] in H. lia. }
  destruct range as [r|].
  - destruct (transformed_time_range this r child es) as [r' es1].
    destruct (is_error es1); [reflexivity|].
    destruct (recurse child es1 (Some r')) as [[v e2]|]; [|reflexivity].
    destruct (is_error e2); [reflexivity|].
    rewrite loop_no_composition, specified_loop_no_composition by exact Hf.
    reflexivity.
  - destruct (recurse child es None) as [[v e2]|]; [|reflexivity].
    destruct (is_error e2); [reflexivity|].
    rewrite loop_no_composition, specified_loop_no_composition by exact Hf.
    reflexivity.
Qed.

Lemma find_specified_without_range fuel : forall this es shallow,
  find_children is_T children_in_range transformed_time_range fuel this es
    None shallow
  = specified_find_children is_T children_in_range transformed_time_range
      fuel this es None shallow.
Proof.
  induction fuel as [|fuel IH]; intros this es shallow; [reflexivity|].
  cbn [find_children specified_find_children].
  apply loop_specified_without_range. intros c e. apply IH.
Qed.

Lemma find_specified_shallow fuel this es range :
  find_children is_T children_in_range transformed_time_range fuel this es
    range true
  = specified_find_children is_T children_in_range transformed_time_range
      fuel this es range true.
Proof.
  destruct fuel as [|fuel]; [reflexivity|].
  cbn [find_children specified_find_children].
  destruct range as [r|].
  - destruct (children_in_range this r es) as [cs es1].
    destruct (is_error es1); [reflexivity|].
    rewrite shallow_loop, specified_shallow_loop. reflexivity.
  - rewrite shallow_loop, specified_shallow_loop. reflexivity.
Qed.

End WalkSpecified.

Section Below.

Context {Meta : Type}.
Variable is_T : Composable Meta -> bool.

Lemma matches_below_height (n : nat) : forall this c : Composable Meta,
  (height this <= n)%nat -> In c (matches_below is_T this) ->
  (height c < height this)%nat.
Proof.
  induction n as [|n IH]; intros this c Hh Hc.
  - destruct this as [m|m cs]; [destruct Hc | cbn [height] in Hh; lia].
  - rewrite matches_below_children in Hc. apply in_flat_map in Hc.
    destruct Hc as (child & Hin & Hc). apply height_children in Hin.
    apply in_app_or in Hc. destruct Hc as [Hc|Hc].
    + unfold own_entry in Hc. destruct (is_T child); [|destruct Hc].
      destruct Hc as [<-|[]]. exact Hin.
    + apply IH in Hc; lia.
Qed.

End Below.

Module TrackMore.
Import TrackModel TrackFacts.

Lemma children_in_range_children : narrows_to_children children_in_range.
Proof. intros this r es. apply overlapping_incl. Qed.

Lemma track_handle_stays_null :
  handle_stays_null children_in_range transformed_time_range.
Proof. split; reflexivity. Qed.

End TrackMore.

(** X10.  A search without a range never writes through the handle: given
    enough depth it returns, shallow or deep, with the handle exactly as it
    was passed in, whatever it held. *)
Theorem find_children_without_range_keeps_handle
    {Meta TimeRange : Type} (is_T : Composable Meta -> bool)
    (children_in_range :
       Composable Meta -> TimeRange -> handle ->
       list (Composable Meta) * handle)
    (transformed_time_range :
       Composable Meta -> TimeRange -> Composable Meta -> handle ->
       TimeRange * handle)
    (fuel : nat) (this : Composable Meta) (error_status : handle)
    (shallow_search : bool) :
  (height this < fuel)%nat ->
  exists out,
    find_children is_T children_in_range transformed_time_range fuel this
      error_status None shallow_search = Some (out, error_status).
Proof. apply find_without_range. Qed.

(** X11.  The handle is read before it is written: when it already holds
    an error on entry, a deep search without a range takes the first
    search below a child composition for failed and stops there.  The
    result is the matches among the direct children up to and including
    the first composition; nothing below any child is returned, and the
    stale error stays in the handle. *)
Theorem find_children_stale_error_truncates
    {Meta TimeRange : Type} (is_T : Composable Meta -> bool)
    (children_in_range :
       Composable Meta -> TimeRange -> handle ->
       list (Composable Meta) * handle)
    (transformed_time_range :
       Composable Meta -> TimeRange -> Composable Meta -> handle ->
       TimeRange * handle)
    (fuel : nat) (this : Composable Meta) (error_status : handle) :
  is_error error_status = true ->
  (height this < fuel)%nat ->
  find_children is_T children_in_range transformed_time_range fuel this
    error_status None false
  = Some (filter is_T (through_first_composition (_children this)),
          error_status).
Proof.
  intros He Hh. destruct fuel as [|fuel]; [lia|].
  rewrite find_children_unfold. cbn [narrowing fst snd].
  rewrite (loop_stale_error transformed_time_range is_T _ this
             (_children this) error_status He); [reflexivity|].
  intros c Hin _.
  apply (find_without_range children_in_range transformed_time_range).
  apply height_children in Hin. lia.
Qed.

(** X12.  A deep search that ends without an error in the handle returns
    everything the shallow search with the same arguments returns. *)
Theorem find_children_deep_covers_shallow
    {Meta TimeRange : Type} (is_T : Composable Meta -> bool)
    (children_in_range :
       Composable Meta -> TimeRange -> handle ->
       list (Composable Meta) * handle)
    (transformed_time_range :
       Composable Meta -> TimeRange -> Composable Meta -> handle ->
       TimeRange * handle)
    (fuel : nat) (this : Composable Meta) (error_status : handle)
    (search_range : option TimeRange)
    (shallow deep : list (Composable Meta)) (status status' : handle) :
  find_children is_T children_in_range transformed_time_range fuel this
    error_status search_range true = Some (shallow, status) ->
  find_children is_T children_in_range transformed_time_range fuel this
    error_status search_range false = Some (deep, status') ->
  is_error status' = false ->
  incl shallow deep.
Proof.
  intros Es Ed He. destruct fuel as [|fuel]; [discriminate|].
  rewrite find_children_unfold in Es, Ed.
  destruct (match search_range with Some _ => _ | None => false end).
  { injection Es as <- _. intros x []. }
  rewrite shallow_loop in Es. injection Es as <- _. cbn [app].
  apply loop_blocks in Ed.
  destruct Ed as (visited & rest & blocks & E1 & E2 & E3 & ->).
  rewrite (E2 He), app_nil_r in E1. rewrite E1. cbn [app].
  exact (blocks_cover is_T _ visited blocks E3).
Qed.

(** X13.  Searching for a narrower type is searching for a wider one and
    keeping the entries of the narrower type: when every node that casts to
    [U] casts to [T], the walk for [U] is the walk for [T] with the entries
    that are not of type [U] struck out, and the handle is left the same. *)
Theorem find_children_subtype
    {Meta TimeRange : Type} (is_U is_T : Composable Meta -> bool)
    (children_in_range :
       Composable Meta -> TimeRange -> handle ->
       list (Composable Meta) * handle)
    (transformed_time_range :
       Composable Meta -> TimeRange -> Composable Meta -> handle ->
       TimeRange * handle)
    (fuel : nat) (this : Composable Meta) (error_status : handle)
    (search_range : option TimeRange) (shallow_search : bool) :
  (forall c, is_U c = true -> is_T c = true) ->
  find_children is_U children_in_range transformed_time_range fuel this
    error_status search_range shallow_search
  = filtered is_U
      (find_children is_T children_in_range transformed_time_range fuel this
         error_status search_range shallow_search).
Proof.
  intros Hsub.
  rewrite (find_children_filtered children_in_range transformed_time_range
             is_T).
  rewrite (filtered_within is_U is_T Hsub).
  apply find_children_filtered.
Qed.

(** X14.  The range the loop overwrites is read only by a deep search
    that was given a range: without a range, and in a shallow search, the
    code is the walk of section 4.5. *)
Theorem find_children_as_specified
    {Meta TimeRange : Type} (is_T : Composable Meta -> bool)
    (children_in_range :
       Composable Meta -> TimeRange -> handle ->
       list (Composable Meta) * handle)
    (transformed_time_range :
       Composable Meta -> TimeRange -> Composable Meta -> handle ->
       TimeRange * handle)
    (fuel : nat) (this : Composable Meta) (error_status : handle)
    (search_range : option TimeRange) (shallow_search : bool) :
  search_range = None \/ shallow_search = true ->
  find_children is_T children_in_range transformed_time_range fuel this
    error_status search_range shallow_search
  = specified_find_children is_T children_in_range transformed_time_range
      fuel this error_status search_range shallow_search.
Proof.
  intros [-> | ->].
  - apply find_specified_without_range.
  - apply find_specified_shallow.
Qed.

(** X15.  The overwritten range is first read at the second child
    composition: over children of which at most one is a composition, the
    loop of the code is the loop of section 4.5, whatever the search below
    that composition does. *)
Theorem find_children_loop_single_composition
    {Meta TimeRange : Type} (is_T : Composable Meta -> bool)
    (transformed_time_range :
       Composable Meta -> TimeRange -> Composable Meta -> handle ->
       TimeRange * handle)
    (recurse : Composable Meta -> handle -> option TimeRange -> walk)
    (this : Composable Meta) (shallow_search : bool)
    (children out : list (Composable Meta))
    (search_range : option TimeRange) (error_status : handle) :
  (List.length (filter is_composition children) <= 1)%nat ->
  find_children_loop is_T transformed_time_range recurse this shallow_search
    children out search_range error_status
  = specified_loop is_T transformed_time_range recurse this shallow_search
      children out search_range error_status.
Proof.
  intros H. destruct shallow_search.
  - rewrite shallow_loop, specified_shallow_loop. reflexivity.
  - apply loop_specified_single. exact H.
Qed.

(** X16.  A walk returns nothing but matching descendants: when the
    narrowing hands back children of the composition it is asked about,
    every entry of a result, shallow or deep, with or without a range,
    ended by an error or not, is among the matches below the composition
    searched; the composition itself is never returned. *)
Theorem find_children_returns_descendants
    {Meta TimeRange : Type} (is_T : Composable Meta -> bool)
    (children_in_range :
       Composable Meta -> TimeRange -> handle ->
       list (Composable Meta) * handle)
    (transformed_time_range :
       Composable Meta -> TimeRange -> Composable Meta -> handle ->
       TimeRange * handle)
    (fuel : nat) (this : Composable Meta) (error_status : handle)
    (search_range : option TimeRange) (shallow_search : bool)
    (out : list (Composable Meta)) (status : handle) :
  narrows_to_children children_in_range ->
  find_children is_T children_in_range transformed_time_range fuel this
    error_status search_range shallow_search = Some (out, status) ->
  incl out (matches_below is_T this) /\
  Forall (fun c => (height c < height this)%nat) out.
Proof.
  intros Hn E.
  assert (I : incl out (matches_below is_T this))
    by exact (find_below children_in_range transformed_time_range is_T Hn
                fuel this error_status search_range shallow_search out
                status E).
  split; [exact I|].
  apply Forall_forall. intros c Hc. apply I in Hc.
  exact (matches_below_height is_T (height this) this c (le_n _) Hc).
Qed.

(** X17.  Without a handle nothing ends a walk early.  When the narrowing
    and the transformation, given no handle, hand none back, and the
    narrowing hands back nodes below the composition, a search started
    without a handle and given enough depth returns, without a handle, the
    result of the walk that has no [is_error] test: for every narrowed
    child in order its own entry and, in a deep search, for every child
    composition the whole result of the search below it, made over the
    range as the loop has transformed it so far. *)
Theorem find_children_null_handle
    {Meta TimeRange : Type} (is_T : Composable Meta -> bool)
    (children_in_range :
       Composable Meta -> TimeRange -> handle ->
       list (Composable Meta) * handle)
    (transformed_time_range :
       Composable Meta -> TimeRange -> Composable Meta -> handle ->
       TimeRange * handle)
    (fuel : nat) (this : Composable Meta)
    (search_range : option TimeRange) (shallow_search : bool) :
  handle_stays_null children_in_range transformed_time_range ->
  narrows_below children_in_range ->
  (height this < fuel)%nat ->
  find_children is_T children_in_range transformed_time_range fuel this
    None search_range shallow_search
  = Some (unchecked_find_children is_T children_in_range
            transformed_time_range fuel this search_range shallow_search,
          None).
Proof.
  intros Hs Hb Hh.
  exact (find_unchecked children_in_range transformed_time_range is_T Hs Hb
           fuel this search_range shallow_search Hh).
Qed.

Import TrackModel TrackFacts TrackMore Benchmark.
Open Scope Z_scope.

(** ** The added properties at work *)

Lemma bisections_return_crossing_witness :
  (exists i,
     returned (bisect_right_optimized_v2 [5; 1; 9; 2; 8; 3; 7] 4 id_key 10
                 None (Some 0) None) = Done i /\
     crossing [5; 1; 9; 2; 8; 3; 7] 4 id_key 0 7 i) /\
  (exists i,
     returned (bisect_right_original [5; 1; 9; 2; 8; 3; 7] 4 id_key 10
                 None (Some 0) None) = Done i /\
     crossing [5; 1; 9; 2; 8; 3; 7] 4 id_key 0 7 i).
Proof.
  destruct (bisections_return_crossing [5; 1; 9; 2; 8; 3; 7] 4 id_key 8 10
              None 0 None) as (C2 & _ & _ & C0).
  - lia.
  - vm_compute. discriminate.
  - vm_compute. discriminate.
  - vm_compute. discriminate.
  - vm_compute. lia.
  - split; [exact C2|]. apply C0. vm_compute. discriminate.
Defined.



Lemma optimized_v2_retraces_original_witness :
  bisect_right_optimized_v2 [5; 1; 9; 2; 8; 3; 7] 4 id_key 10 None
    (Some 2) (Some 9)
  = bisect_right_original [5; 1; 9; 2; 8; 3; 7] 4 id_key 10 None
      (Some 2) (Some 9).
Proof.
  apply (optimized_v2_retraces_original [5; 1; 9; 2; 8; 3; 7] 4 id_key 10
           None (Some 2) (Some 9)).
  vm_compute. discriminate.
Defined.


Lemma bisections_monotone_in_target_witness :
  exists i i',
    Forall (fun r => returned r = Done i)
      (four_runs [1; 2; 2; 3; 5; 8; 9] 2 id_key 8 10 None (Some 0) None) /\
    Forall (fun r => returned r = Done i')
      (four_runs [1; 2; 2; 3; 5; 8; 9] 5 id_key 8 10 None (Some 0) None) /\
    i <= i'.
Proof.
  apply (bisections_monotone_in_target [1; 2; 2; 3; 5; 8; 9] 2 5 id_key 8 10
           None 0 None).
  - lia.
  - vm_compute. discriminate.
  - vm_compute. discriminate.
  - vm_compute. discriminate.
  - apply sortedb_sorted_on. reflexivity.
  - vm_compute. lia.
  - reflexivity.
Defined.


Lemma bisections_insertion_point_witness :
  exists i,
    Forall (fun r => returned r = Done i)
      (four_runs [1; 2; 2; 3; 5; 8; 9] 4 id_key 8 10 None (Some 0) None) /\
    0 <= i <= 7 /\
    sortedb (map id_key (firstn (Z.to_nat i) [1; 2; 2; 3; 5; 8; 9]
                           ++ 4 :: skipn (Z.to_nat i) [1; 2; 2; 3; 5; 8; 9]))
    = true /\
    Forall (fun c => time_le (id_key c) 4 = true)
      (firstn (Z.to_nat i) [1; 2; 2; 3; 5; 8; 9]) /\
    Forall (fun c => time_gt (id_key c) 4 = true)
      (skipn (Z.to_nat i) [1; 2; 2; 3; 5; 8; 9]).
Proof.
  apply (bisections_insertion_point [1; 2; 2; 3; 5; 8; 9] 4 id_key 8 10 None
           4).
  - intros a b H. apply Z.ltb_lt in H. apply Z.ltb_ge. lia.
  - vm_compute. discriminate.
  - reflexivity.
  - reflexivity.
  - vm_compute. lia.
Defined.

Lemma benchmarks_return_the_length_witness :
  Forall (fun d =>
            exists r,
              d = Returns r /\
              returned r = Done 8 /\
              status r = Some fresh_status /\
              (List.length (probes r) <= 15)%nat)
    [ BM_BisectRight_Original 4 8;
      BM_BisectRight_Optimized_V2 4 8;
      BM_BisectRight_Optimized_V3 4 8;
      BM_BisectRight_Optimized_V4 8 4 8 ] /\
  Forall (fun d => d = Throws length_error)
    [ BM_BisectRight_Original 0 (-1);
      BM_BisectRight_Optimized_V2 0 (-1);
      BM_BisectRight_Optimized_V3 0 (-1);
      BM_BisectRight_Optimized_V4 8 0 (-1) ].
Proof.
  split.
  - apply (benchmarks_return_the_length 8 4 8).
    + lia.
    + vm_compute. lia.
  - apply (benchmarks_return_the_length 8 0 (-1)).
    + lia.
    + vm_compute. lia.
Defined.

Lemma find_children_without_range_keeps_handle_witness :
  exists out,
    find_children is_clip children_in_range transformed_time_range 3
      timeline (Some range_error) None true = Some (out, Some range_error).
Proof.
  apply (find_children_without_range_keeps_handle is_clip children_in_range
           transformed_time_range 3 timeline (Some range_error) true).
  vm_compute. lia.
Defined.

Lemma find_children_stale_error_truncates_witness :
  find_children is_clip children_in_range transformed_time_range 3 timeline
    (Some range_error) None false
  = Some ([clip "c0" 5], Some range_error).
Proof.
  apply (find_children_stale_error_truncates is_clip children_in_range
           transformed_time_range 3 timeline (Some range_error)).
  - reflexivity.
  - vm_compute. lia.
Defined.

Lemma find_children_deep_covers_shallow_witness :
  incl [clip "c0" 5] [clip "c0" 5; clip "a1" 10].
Proof.
  apply (find_children_deep_covers_shallow is_clip children_in_range
           transformed_time_range 3 timeline None (Some (0, 12))
           [clip "c0" 5] [clip "c0" 5; clip "a1" 10] None None);
    reflexivity.
Defined.

Lemma find_children_subtype_witness :
  find_children (fun c => is_clip c && (5 <? duration c))
    children_in_range transformed_time_range 3 timeline None None false
  = filtered (fun c => is_clip c && (5 <? duration c))
      (find_children is_clip children_in_range transformed_time_range 3
         timeline None None false).
Proof.
  apply (find_children_subtype (fun c => is_clip c && (5 <? duration c))
           is_clip children_in_range transformed_time_range 3 timeline None
           None false).
  intros c H. apply andb_prop in H. apply H.
Defined.

Lemma find_children_as_specified_witness :
  find_children is_clip children_in_range transformed_time_range 3 timeline
    None (Some (10, 10)) true
  = specified_find_children is_clip children_in_range transformed_time_range
      3 timeline None (Some (10, 10)) true.
Proof.
  apply (find_children_as_specified is_clip children_in_range
           transformed_time_range 3 timeline None (Some (10, 10)) true).
  right. reflexivity.
Defined.

Lemma find_children_loop_single_composition_witness :
  find_children_loop is_clip transformed_time_range passed_range timeline
    false [clip "c0" 5; track_B] [] (Some (10, 10)) None
  = specified_loop is_clip transformed_time_range passed_range timeline
      false [clip "c0" 5; track_B] [] (Some (10, 10)) None.
Proof.
  apply (find_children_loop_single_composition is_clip
           transformed_time_range passed_range timeline false
           [clip "c0" 5; track_B] [] (Some (10, 10)) None).
  vm_compute. lia.
Defined.

Lemma find_children_returns_descendants_witness :
  incl [clip "c0" 5; clip "a1" 10] (matches_below is_clip timeline) /\
  Forall (fun c => (height c < height timeline)%nat)
    [clip "c0" 5; clip "a1" 10].
Proof.
  apply (find_children_returns_descendants is_clip children_in_range
           transformed_time_range 3 timeline None (Some (0, 12)) false
           [clip "c0" 5; clip "a1" 10] None).
  - exact children_in_range_children.
  - reflexivity.
Defined.

Lemma find_children_null_handle_witness :
  find_children is_clip children_in_range transformed_time_range 3 timeline
    None (Some (0, 12)) false
  = Some ([clip "c0" 5; clip "a1" 10], None) /\
  find_children is_clip children_in_range transformed_time_range 3 timeline
    None None false
  = Some ([clip "c0" 5; clip "a1" 10; clip "b1" 5; clip "b2" 5], None).
Proof.
  split.
  - refine (find_children_null_handle is_clip children_in_range
              transformed_time_range 3 timeline (Some (0, 12)) false
              track_handle_stays_null children_in_range_below _).
    vm_compute. lia.
  - refine (find_children_null_handle is_clip children_in_range
              transformed_time_range 3 timeline None false
              track_handle_stays_null children_in_range_below _).
    vm_compute. lia.
Defined.
